(** * PaStA: the unified-diff parser of [PaStA/Repository/Patch.py]

    A shallow embedding of the classes [Hunk] and [Diff] and of the
    line-oriented parser [Diff.parse_diff] / [Diff.parse_diff_nosplit].

    Conventions of the model.
    - A Python [str] is a [string]; one [ascii] stands for one code point
      below 256, so [String.length] is Python's [len].
    - The destructive [diff.pop(0)] is explicit state passing: every loop
      takes the remaining lines and returns the lines it left.
    - An uncaught Python exception is the outcome [Raise e].
    - The dictionaries are [gmap]s and the set [affected] is a [gset]. *)

From Stdlib Require Import String Ascii List Arith Bool Lia.
From stdpp Require Import gmap strings list fin_maps.
Import ListNotations.

Local Open Scope string_scope.
Local Open Scope list_scope.

(** ** Outcomes

    [pop(0)] on an empty list raises [IndexError]; [.group(1)] on the [None]
    of a failed match raises [AttributeError]; [int] on a string of more
    digits than the interpreter converts raises [ValueError].  [OutOfFuel]
    is not a Python outcome: it is what the two fuelled loops below return
    when their bound is too small, and [parse_diff_nosplit_total] shows the
    parser never returns it. *)

Inductive exn := IndexError | AttributeError | ValueError.

Inductive outcome (A : Type) :=
  | Ok (a : A)
  | Raise (e : exn)
  | OutOfFuel.

Arguments Ok {A} a.
Arguments Raise {A} e.
Arguments OutOfFuel {A}.

Definition bind {A B : Type} (m : outcome A) (k : A -> outcome B) : outcome B :=
  match m with
  | Ok a => k a
  | Raise e => Raise e
  | OutOfFuel => OutOfFuel
  end.

Notation "x <- m ;; k" := (bind m (fun x => k))
  (at level 100, m at next level, right associativity).

(** ** Strings *)

Module Str.

(** [s.startswith(p)], returning what follows the prefix. *)
Fixpoint strip_prefix (p s : string) : option string :=
  match p with
  | EmptyString => Some s
  | String a p' =>
      match s with
      | EmptyString => None
      | String b s' => if Ascii.eqb a b then strip_prefix p' s' else None
      end
  end.

(** The longest prefix whose characters satisfy [f], and the rest: what a
    greedy character-class star consumes. *)
Fixpoint span (f : ascii -> bool) (s : string) : string * string :=
  match s with
  | EmptyString => (EmptyString, EmptyString)
  | String c s' =>
      if f c then let '(a, b) := span f s' in (String c a, b)
      else (EmptyString, s)
  end.

Definition is_empty (s : string) : bool :=
  match s with EmptyString => true | String _ _ => false end.

(** [needle in hay] *)
Fixpoint contains (needle hay : string) : bool :=
  if String.prefix needle hay then true
  else match hay with
       | EmptyString => false
       | String _ hay' => contains needle hay'
       end.

(** [s[2:]] *)
Definition drop2 (s : string) : string :=
  match s with
  | String _ (String _ s') => s'
  | _ => EmptyString
  end.

Definition newline : ascii := "010"%char.

(** [s.split('\n')]: the separator is the line feed alone. *)
Fixpoint split_newline (s : string) : list string :=
  match s with
  | EmptyString => [EmptyString]
  | String c s' =>
      if Ascii.eqb c newline then EmptyString :: split_newline s'
      else match split_newline s' with
           | l :: ls => String c l :: ls
           | [] => [String c EmptyString]
           end
  end.

(** ['\n'.join(ls)] *)
Fixpoint join_newline (ls : list string) : string :=
  match ls with
  | [] => EmptyString
  | [l] => l
  | l :: ls' => l +:+ String newline (join_newline ls')
  end.

Definition is_digit (c : ascii) : bool :=
  let n := nat_of_ascii c in (48 <=? n)%nat && (n <=? 57)%nat.

(** The digits of [s] read after the value [acc]. *)
Fixpoint int_acc (acc : nat) (s : string) : nat :=
  match s with
  | EmptyString => acc
  | String c s' => int_acc (10 * acc + (nat_of_ascii c - 48)) s'
  end.

(** The value of a string of decimal digits. *)
Definition decimal (s : string) : nat := int_acc 0 s.

(** The longest string of digits that [int] converts: the interpreter's
    limit [sys.int_info.default_max_str_digits] (CPython 3.11 and later). *)
Definition int_max_str_digits : nat := 4300.

(** [int(s)] on a string of decimal digits, which is what a group [\d+]
    of a pattern holds: its value, or [ValueError] when the string is
    longer than the limit. *)
Definition int (s : string) : outcome nat :=
  if (String.length s <=? int_max_str_digits)%nat then Ok (decimal s)
  else Raise ValueError.

End Str.

(** ** The regular expressions of class [Diff]

    Each pattern is used through [re.match] only, so it is anchored at the
    start of the line.  The matchers follow the patterns token by token;
    greedy repetition is [Str.span], and in none of the patterns can
    backtracking find a match the greedy reading misses, because every
    repetition is followed by a token outside its class. *)

Module Re.

(** The class [\s] on code points below 256: tab to carriage return, the
    separators 28 to 31, space, NEL and the no-break space. *)
Definition is_space (c : ascii) : bool :=
  let n := nat_of_ascii c in
  ((9 <=? n)%nat && (n <=? 13)%nat) || ((28 <=? n)%nat && (n <=? 32)%nat)
  || (n =? 133)%nat || (n =? 160)%nat.

Definition not_space (c : ascii) : bool := negb (is_space c).

Definition not_newline (c : ascii) : bool := negb (Ascii.eqb c Str.newline).

(** A dot-star followed by [$]: the dot stops at a line feed, and [$]
    holds at the end of the string or just before a line feed that ends
    it. *)
Fixpoint dot_star_dollar (s : string) : bool :=
  match s with
  | EmptyString => true
  | String c s' =>
      if Ascii.eqb c Str.newline then Str.is_empty s' else dot_star_dollar s'
  end.

(** [DIFF_SELECTOR_REGEX = ^[-\+@]] *)
Definition DIFF_SELECTOR (x : string) : bool :=
  match x with
  | String c _ =>
      Ascii.eqb c "-"%char || Ascii.eqb c "+"%char || Ascii.eqb c "@"%char
  | EmptyString => false
  end.

(** The shape shared by the two file-header patterns: the header text,
    group 1 made of the non-space characters that follow (possibly none),
    then anything up to the end of the line.  The result is group 1. *)
Definition FILE_SEPARATOR (header x : string) : option string :=
  match Str.strip_prefix header x with
  | None => None
  | Some rest =>
      let '(filename, tail) := Str.span not_space rest in
      if dot_star_dollar tail then Some filename else None
  end.

(** [FILE_SEPARATOR_MINUS_REGEX], whose header is three dashes and a
    space. *)
Definition FILE_SEPARATOR_MINUS : string -> option string :=
  FILE_SEPARATOR "--- ".

(** [FILE_SEPARATOR_PLUS_REGEX], whose header is three plus signs and a
    space. *)
Definition FILE_SEPARATOR_PLUS : string -> option string :=
  FILE_SEPARATOR "+++ ".

(** [EXCLUDE_CC_REGEX = ^diff --cc (.+)$]; only whether it matches is
    used. *)
Definition EXCLUDE_CC (x : string) : bool :=
  match Str.strip_prefix "diff --cc " x with
  | Some (String c rest) => not_newline c && dot_star_dollar rest
  | _ => false
  end.

(** The groups of [HUNK_REGEX]; groups 2 and 4 are optional. *)
Record hunk_groups := {
  group1 : string;
  group2 : option string;
  group3 : string;
  group4 : option string;
  group5 : string
}.

(** [(\d+)] *)
Definition digits1 (s : string) : option (string * string) :=
  let '(d, rest) := Str.span Str.is_digit s in
  if Str.is_empty d then None else Some (d, rest).

(** [(?:,(\d+))?] *)
Definition opt_count (s : string) : option string * string :=
  match Str.strip_prefix "," s with
  | None => (None, s)
  | Some s' =>
      match digits1 s' with
      | Some (d, rest) => (Some d, rest)
      | None => (None, s)
      end
  end.

(** [HUNK_REGEX]: [@@ -], a number, an optional count, [ +], a number, an
    optional count, [ @@], an optional space, and group 5: the rest of the
    line. *)
Definition HUNK (x : string) : option hunk_groups :=
  match Str.strip_prefix "@@ -" x with
  | None => None
  | Some s1 =>
  match digits1 s1 with
  | None => None
  | Some (g1, s2) =>
  let '(g2, s3) := opt_count s2 in
  match Str.strip_prefix " +" s3 with
  | None => None
  | Some s4 =>
  match digits1 s4 with
  | None => None
  | Some (g3, s5) =>
  let '(g4, s6) := opt_count s5 in
  match Str.strip_prefix " @@" s6 with
  | None => None
  | Some s7 =>
      let s8 := match Str.strip_prefix " " s7 with
                | Some s => s
                | None => s7
                end in
      Some {| group1 := g1; group2 := g2; group3 := g3; group4 := g4;
              group5 := fst (Str.span not_newline s8) |}
  end end end end end.

End Re.

(** ** class Hunk *)

Record Hunk := mkHunk {
  insertions : list string;
  deletions : list string;
  context : list string
}.

(** [Hunk()] *)
Definition Hunk_empty : Hunk := mkHunk [] [] [].

(** [Hunk.merge]: the three [+=] of the method. *)
Definition merge (self other : Hunk) : Hunk :=
  {| insertions := insertions self ++ insertions other;
     deletions := deletions self ++ deletions other;
     context := context self ++ context other |}.

(** ** class Diff *)

Abbreviation diff_index := (string * string)%type.
Abbreviation patches_map := (gmap (string * string) (gmap string Hunk)).

Definition dev_null : string := "/dev/null".

(** One round of the loop of [Diff.__init__] over the keys. *)
Definition add_affected (acc : gset string) (key : diff_index) : gset string :=
  let '(i, j) := key in
  let acc := if Str.contains dev_null i then acc else acc ∪ {[ Str.drop2 i ]} in
  if Str.contains dev_null j then acc else acc ∪ {[ Str.drop2 j ]}.

Definition affected_of_keys (keys : list diff_index) : gset string :=
  foldl add_affected ∅ keys.

Record Diff := mkDiff {
  patches : gmap (string * string) (gmap string Hunk);
  lines : nat;
  affected : gset string
}.

(** [Diff.__init__(patches, lines)] *)
Definition Diff_init (patches : patches_map) (lines : nat) : Diff :=
  {| patches := patches;
     lines := lines;
     affected := affected_of_keys (fst <$> map_to_list patches) |}.

(** ** The hunk body: the innermost [while] of [parse_diff_nosplit] *)

Record body_state := mkBody {
  del_cntr : nat;
  add_cntr : nat;
  b_insertions : list string;
  b_deletions : list string;
  b_context : list string
}.

Definition body_init : body_state := mkBody 0 0 [] [] [].

Definition LINE_IDENTIFIER_INSERTION : ascii := "+"%char.
Definition LINE_IDENTIFIER_DELETION : ascii := "-"%char.
Definition LINE_IDENTIFIER_CONTEXT : ascii := " "%char.
Definition LINE_IDENTIFIER_NEWLINE : ascii := "\"%char.

(** [identifier, payload] of a popped line; the empty line is read as a
    context line with an empty payload. *)
Definition identify (line : string) : ascii * string :=
  match line with
  | EmptyString => (" "%char, EmptyString)
  | String c payload => (c, payload)
  end.

(** The [if]/[elif] chain on the identifier. *)
Definition account (st : body_state) (line : string) : body_state :=
  let '(identifier, payload) := identify line in
  if Ascii.eqb identifier LINE_IDENTIFIER_INSERTION then
    {| del_cntr := del_cntr st; add_cntr := add_cntr st + 1;
       b_insertions := b_insertions st ++ [payload];
       b_deletions := b_deletions st; b_context := b_context st |}
  else if Ascii.eqb identifier LINE_IDENTIFIER_DELETION then
    {| del_cntr := del_cntr st + 1; add_cntr := add_cntr st;
       b_insertions := b_insertions st;
       b_deletions := b_deletions st ++ [payload]; b_context := b_context st |}
  else if Ascii.eqb identifier LINE_IDENTIFIER_CONTEXT then
    {| del_cntr := del_cntr st + 1; add_cntr := add_cntr st + 1;
       b_insertions := b_insertions st;
       b_deletions := b_deletions st; b_context := b_context st ++ [payload] |}
  else if negb (Ascii.eqb identifier LINE_IDENTIFIER_NEWLINE) then
    {| del_cntr := del_cntr st + 1; add_cntr := add_cntr st + 1;
       b_insertions := b_insertions st;
       b_deletions := b_deletions st; b_context := b_context st |}
  else st.

(** The loop guard, negated: both counters have reached their targets. *)
Definition satisfied (l_lines r_lines : nat) (st : body_state) : bool :=
  (del_cntr st =? l_lines)%nat && (add_cntr st =? r_lines)%nat.

(** [while not (del_cntr == l_lines and add_cntr == r_lines): ...], returning
    the final state and the lines left. *)
Fixpoint body_loop (l_lines r_lines : nat) (st : body_state)
    (diff : list string) : outcome (body_state * list string) :=
  if satisfied l_lines r_lines st then Ok (st, diff)
  else match diff with
       | [] => Raise IndexError
       | line :: diff' => body_loop l_lines r_lines (account st line) diff'
       end.

(** [list(filter(None, xs))]: the empty strings go. *)
Definition filter_None (xs : list string) : list string :=
  List.filter (fun x => negb (Str.is_empty x)) xs.

(** [Hunk(insertions, deletions, context)] after the three filters. *)
Definition hunk_of_body (st : body_state) : Hunk :=
  {| insertions := filter_None (b_insertions st);
     deletions := filter_None (b_deletions st);
     context := filter_None (b_context st) |}.

(** The count of one side: 1 unless the optional group matched, and then
    [int] of the group. *)
Definition count_of (g : option string) : outcome nat :=
  match g with
  | Some d => Str.int d
  | None => Ok 1
  end.

(** Lines 169 to 175: create the two dictionary entries when they are
    missing, then merge [h] into the hunk stored under the heading. *)
Definition record_hunk (patches : patches_map) (idx : diff_index)
    (hunk_heading : string) (h : Hunk) : patches_map :=
  let patches1 :=
    match patches !! idx with
    | None => <[idx := ∅]> patches
    | Some _ => patches
    end in
  let inner := default ∅ (patches1 !! idx) in
  let inner1 :=
    match inner !! hunk_heading with
    | None => <[hunk_heading := Hunk_empty]> inner
    | Some _ => inner
    end in
  let stored := default Hunk_empty (inner1 !! hunk_heading) in
  <[idx := <[hunk_heading := merge stored h]> inner1]> patches1.

(** ** The hunk loop: [while len(diff) and HUNK_REGEX.match(diff[0])] *)

Fixpoint hunk_loop_fuel (fuel : nat) (patches : patches_map) (idx : diff_index)
    (diff : list string) : outcome (patches_map * list string) :=
  match diff with
  | [] => Ok (patches, diff)
  | header :: diff1 =>
      match Re.HUNK header with
      | None => Ok (patches, diff)
      | Some hunk =>
          match fuel with
          | O => OutOfFuel
          | S fuel' =>
              l_lines <- count_of (Re.group2 hunk) ;;
              r_lines <- count_of (Re.group4 hunk) ;;
              let hunk_heading := Re.group5 hunk in
              r <- body_loop l_lines r_lines body_init diff1 ;;
              let '(st, diff2) := r in
              hunk_loop_fuel fuel'
                (record_hunk patches idx hunk_heading (hunk_of_body st))
                idx diff2
          end
      end
  end.

Definition hunk_loop (patches : patches_map) (idx : diff_index)
    (diff : list string) : outcome (patches_map * list string) :=
  hunk_loop_fuel (length diff) patches idx diff.

(** ** The file-segment loop: the outer [while len(diff)] *)

(** The inner [while]: [minus] has just been popped; stop at a line that
    matches the minus header or when the input is used up. *)
Fixpoint seek_minus (minus : string) (diff : list string) : string * list string :=
  match Re.FILE_SEPARATOR_MINUS minus with
  | Some _ => (minus, diff)
  | None =>
      match diff with
      | [] => (minus, [])
      | minus' :: diff' => seek_minus minus' diff'
      end
  end.

(** [m.group(1)] where [m] is the result of a match. *)
Definition group_1 (m : option string) : outcome string :=
  match m with
  | Some g => Ok g
  | None => Raise AttributeError
  end.

Fixpoint file_loop_fuel (fuel : nat) (patches : patches_map)
    (diff : list string) : outcome patches_map :=
  match diff with
  | [] => Ok patches
  | first :: diff0 =>
      match fuel with
      | O => OutOfFuel
      | S fuel' =>
          let '(minus, diff1) := seek_minus first diff0 in
          match diff1 with
          | [] => Ok patches
          | plus_line :: diff2 =>
              minus <- group_1 (Re.FILE_SEPARATOR_MINUS minus) ;;
              plus <- group_1 (Re.FILE_SEPARATOR_PLUS plus_line) ;;
              r <- hunk_loop patches (minus, plus) diff2 ;;
              let '(patches', diff3) := r in
              file_loop_fuel fuel' patches' diff3
          end
      end
  end.

Definition file_loop (patches : patches_map) (diff : list string)
    : outcome patches_map :=
  file_loop_fuel (length diff) patches diff.

(** ** [parse_diff_nosplit] and [parse_diff] *)

(** [sum(map(len, filter(DIFF_SELECTOR_REGEX.match, diff)))] *)
Definition diff_lines (diff : list string) : nat :=
  list_sum (List.map String.length (List.filter Re.DIFF_SELECTOR diff)).

(** [diff and EXCLUDE_CC_REGEX.match(diff[0])] *)
Definition excluded (diff : list string) : bool :=
  match diff with
  | [] => false
  | first :: _ => Re.EXCLUDE_CC first
  end.

Definition parse_diff_nosplit (diff : list string) : outcome Diff :=
  if excluded diff then Ok (Diff_init ∅ 0)
  else
    patches <- file_loop ∅ diff ;;
    Ok (Diff_init patches (diff_lines diff)).

Definition parse_diff (diff : string) : outcome Diff :=
  parse_diff_nosplit (Str.split_newline diff).

(** ** Notions used in the statements *)

(** The state after the lines [ls] have been popped and accounted for. *)
Definition account_all (st : body_state) (ls : list string) : body_state :=
  foldl account st ls.

(** Both counters advance and the three sequences stay as they are. *)
Definition bump_both (st : body_state) : body_state :=
  {| del_cntr := del_cntr st + 1; add_cntr := add_cntr st + 1;
     b_insertions := b_insertions st; b_deletions := b_deletions st;
     b_context := b_context st |}.

(** No line of [ls] matches the minus header. *)
Definition no_minus (ls : list string) : Prop :=
  Forall (fun l => Re.FILE_SEPARATOR_MINUS l = None) ls.

(** The line begins with the character [c]. *)
Definition first_is (c : ascii) (line : string) : bool :=
  match line with
  | String a _ => Ascii.eqb a c
  | EmptyString => false
  end.

(** A line of a well-formed hunk body with a payload that is not blank: an
    insertion, deletion or context marker followed by at least one
    character. *)
Definition payload_line (line : string) : bool :=
  match line with
  | String c (String _ _) =>
      Ascii.eqb c "+"%char || Ascii.eqb c "-"%char || Ascii.eqb c " "%char
  | _ => false
  end.

(** The marker [\ No newline at end of file]. *)
Definition marker_line (line : string) : bool := first_is "\" line.

(** A line of a well-formed hunk body: a payload line or the marker. *)
Definition hunk_line (line : string) : bool :=
  payload_line line || marker_line line.

(** A body that, unless it is empty, ends with a payload line; the marker
    lines after the last payload line are left to what follows the hunk. *)
Definition ends_with_payload (body : list string) : Prop :=
  body = [] \/ payload_line (List.last body "") = true.

(** The lines of each side, as a reader of the diff counts them. *)
Definition old_side (body : list string) : nat :=
  length (List.filter (fun l => first_is "-" l || first_is " " l) body).

Definition new_side (body : list string) : nat :=
  length (List.filter (fun l => first_is "+" l || first_is " " l) body).

(** The sizes the finished Hunk will have: insertions plus context, and
    deletions plus context, after the empty payloads are filtered out. *)
Definition ins_ctx (st : body_state) : nat :=
  length (filter_None (b_insertions st)) + length (filter_None (b_context st)).

Definition del_ctx (st : body_state) : nat :=
  length (filter_None (b_deletions st)) + length (filter_None (b_context st)).

(** The example diff of the spec. *)
Definition end_to_end_example : string :=
  "--- a/foo.c
+++ b/foo.c
@@ -1,2 +1,3 @@
 line1
+added
 line2
".

(** The two counts of a hunk header are never both met by the lines
    [diff] that follow it, whatever the number of lines taken. *)
Definition never_satisfied (l_lines r_lines : nat) (diff : list string) : Prop :=
  forall k, k <= length diff ->
    satisfied l_lines r_lines (account_all body_init (firstn k diff)) = false.

(** The number a count group of a hunk header declares, 1 when the group
    is absent, and whether [int] converts the group. *)
Definition declared (g : option string) : nat :=
  match g with
  | Some d => Str.decimal d
  | None => 1
  end.

Definition convertible (g : option string) : bool :=
  match g with
  | Some d => (String.length d <=? Str.int_max_str_digits)%nat
  | None => true
  end.

(** The exception a hunk that runs out of lines ends with: [IndexError]
    from the body loop, unless [int] refused a count before the loop. *)
Definition truncation_error (hunk : Re.hunk_groups) : exn :=
  if convertible (Re.group2 hunk) && convertible (Re.group4 hunk)
  then IndexError else ValueError.

(** A string of [n] digits [1]. *)
Definition ones (n : nat) : string := String.concat "" (repeat "1" n).

(** *** The states of the two loops

    The parser is two nested loops over one list of lines.  A [position]
    is a state at the head of one of them: [AtFile] at the head of the
    file-segment loop (line 101), with the patches stored so far and the
    lines left, [AtHunk] at the head of the hunk loop (line 114), with the
    key of the file segment as well. *)
Inductive position :=
| AtFile (patches : patches_map) (diff : list string)
| AtHunk (patches : patches_map) (idx : diff_index) (diff : list string).

(** The hunk loop ends: no line is left, or the first is no hunk header. *)
Definition hunk_loop_ends (diff : list string) : Prop :=
  match diff with
  | [] => True
  | l :: _ => Re.HUNK l = None
  end.

(** One move of the parser from a loop head to the next one: into a file
    segment through its two headers, through one hunk, or out of the hunk
    loop back to the file-segment loop. *)
Inductive step : position -> position -> Prop :=
| step_segment patches pre minus plus_line rest old_path new_path :
    no_minus pre ->
    Re.FILE_SEPARATOR_MINUS minus = Some old_path ->
    Re.FILE_SEPARATOR_PLUS plus_line = Some new_path ->
    step (AtFile patches (pre ++ minus :: plus_line :: rest))
         (AtHunk patches (old_path, new_path) rest)
| step_hunk patches idx header hunk l_lines r_lines diff1 st diff2 :
    Re.HUNK header = Some hunk ->
    count_of (Re.group2 hunk) = Ok l_lines ->
    count_of (Re.group4 hunk) = Ok r_lines ->
    body_loop l_lines r_lines body_init diff1 = Ok (st, diff2) ->
    step (AtHunk patches idx (header :: diff1))
         (AtHunk (record_hunk patches idx (Re.group5 hunk) (hunk_of_body st))
                 idx diff2)
| step_next patches idx diff :
    hunk_loop_ends diff ->
    step (AtHunk patches idx diff) (AtFile patches diff).

(** The parser, started on the lines [diff], comes to the position. *)
Definition reaches (diff : list string) (pos : position) : Prop :=
  rtc step (AtFile ∅ diff) pos.

(** The rest of the structural pass from a position. *)
Definition run (pos : position) : outcome patches_map :=
  match pos with
  | AtFile patches diff => file_loop patches diff
  | AtHunk patches idx diff =>
      r <- hunk_loop patches idx diff ;;
      let '(patches', diff') := r in
      file_loop patches' diff'
  end.

(** The positions at which the parser raises, with the exception: a minus
    header whose next line is no plus header, a hunk header with a count
    that [int] refuses, a hunk header whose counts the lines left never
    meet. *)
Inductive fails : position -> exn -> Prop :=
| fails_plus_header patches pre minus next rest old_path :
    no_minus pre ->
    Re.FILE_SEPARATOR_MINUS minus = Some old_path ->
    Re.FILE_SEPARATOR_PLUS next = None ->
    fails (AtFile patches (pre ++ minus :: next :: rest)) AttributeError
| fails_count patches idx header hunk body :
    Re.HUNK header = Some hunk ->
    truncation_error hunk = ValueError ->
    fails (AtHunk patches idx (header :: body)) ValueError
| fails_body patches idx header hunk body :
    Re.HUNK header = Some hunk ->
    truncation_error hunk = IndexError ->
    never_satisfied (declared (Re.group2 hunk)) (declared (Re.group4 hunk))
      body ->
    fails (AtHunk patches idx (header :: body)) IndexError.

(** A measure that every move lowers. *)
Definition position_size (pos : position) : nat :=
  match pos with
  | AtFile _ diff => 2 * length diff
  | AtHunk _ _ diff => 2 * length diff + 1
  end.

(** The size metric in the words of the spec: the lengths of the lines
    whose first character is [-], [+] or [@], added up. *)
Fixpoint size_metric (raw_lines : list string) : nat :=
  match raw_lines with
  | [] => 0
  | l :: ls =>
      if first_is "-" l || first_is "+" l || first_is "@" l
      then String.length l + size_metric ls
      else size_metric ls
  end.

(** A pattern matched the line. *)
Definition matched (m : option string) : bool :=
  match m with
  | Some _ => true
  | None => false
  end.

(** Two lines of [ls], one right after the other, match the minus header
    and the plus header: a file-header pair. *)
Fixpoint has_header_pair (ls : list string) : bool :=
  match ls with
  | [] => false
  | l :: rest =>
      match rest with
      | [] => false
      | l' :: _ =>
          matched (Re.FILE_SEPARATOR_MINUS l)
          && matched (Re.FILE_SEPARATOR_PLUS l')
          || has_header_pair rest
      end
  end.

(** A line of [ls] other than the last matches the minus header. *)
Fixpoint minus_before_last (ls : list string) : bool :=
  match ls with
  | [] => false
  | l :: rest =>
      match rest with
      | [] => false
      | _ :: _ => matched (Re.FILE_SEPARATOR_MINUS l) || minus_before_last rest
      end
  end.

(** The path without its conventional prefix, [a/] or [b/], when it has
    one. *)
Definition strip_ab (path : string) : option string :=
  match Str.strip_prefix "a/" path with
  | Some p => Some p
  | None => Str.strip_prefix "b/" path
  end.

(** What one path of a key puts into [affected]: nothing when the text
    [/dev/null] occurs in it, else the path without its first two
    characters. *)
Definition contributes (path x : string) : Prop :=
  Str.contains dev_null path = false /\ x = Str.drop2 path.

(** The hunks in the order the parser builds them: the same two loops as
    [hunk_loop_fuel] and [file_loop_fuel], which list each new [Hunk] with
    its file-segment key and heading instead of storing it. *)
Abbreviation parsed_hunk := (diff_index * string * Hunk)%type.

Fixpoint hunk_list_fuel (fuel : nat) (idx : diff_index) (diff : list string)
    : outcome (list parsed_hunk * list string) :=
  match diff with
  | [] => Ok ([], diff)
  | header :: diff1 =>
      match Re.HUNK header with
      | None => Ok ([], diff)
      | Some hunk =>
          match fuel with
          | O => OutOfFuel
          | S fuel' =>
              l_lines <- count_of (Re.group2 hunk) ;;
              r_lines <- count_of (Re.group4 hunk) ;;
              r <- body_loop l_lines r_lines body_init diff1 ;;
              let '(st, diff2) := r in
              r' <- hunk_list_fuel fuel' idx diff2 ;;
              let '(hs, diff3) := r' in
              Ok ((idx, Re.group5 hunk, hunk_of_body st) :: hs, diff3)
          end
      end
  end.

Definition hunk_list (idx : diff_index) (diff : list string) :=
  hunk_list_fuel (length diff) idx diff.

Fixpoint file_list_fuel (fuel : nat) (diff : list string)
    : outcome (list parsed_hunk) :=
  match diff with
  | [] => Ok []
  | first :: diff0 =>
      match fuel with
      | O => OutOfFuel
      | S fuel' =>
          let '(minus, diff1) := seek_minus first diff0 in
          match diff1 with
          | [] => Ok []
          | plus_line :: diff2 =>
              minus <- group_1 (Re.FILE_SEPARATOR_MINUS minus) ;;
              plus <- group_1 (Re.FILE_SEPARATOR_PLUS plus_line) ;;
              r <- hunk_list (minus, plus) diff2 ;;
              let '(hs, diff3) := r in
              hs' <- file_list_fuel fuel' diff3 ;;
              Ok (hs ++ hs')
          end
      end
  end.

Definition parsed_hunks (diff : list string) : outcome (list parsed_hunk) :=
  if excluded diff then Ok [] else file_list_fuel (length diff) diff.

(** Storing a list of hunks one after the other. *)
Definition record_all (patches : patches_map) (hs : list parsed_hunk)
    : patches_map :=
  foldl (fun p '(idx, heading, h) => record_hunk p idx heading h) patches hs.

(** [patches[idx][heading]], when both keys are present. *)
Definition lookup_hunk (patches : patches_map) (idx : diff_index)
    (heading : string) : option Hunk :=
  match patches !! idx with
  | Some hunks => hunks !! heading
  | None => None
  end.

(** The hunks parsed under one key and one heading, in the order the parser
    met them. *)
Definition in_slot (idx : diff_index) (heading : string) (ph : parsed_hunk)
    : bool :=
  bool_decide (fst ph = (idx, heading)).

Definition hunks_in_slot (idx : diff_index) (heading : string)
    (hs : list parsed_hunk) : list Hunk :=
  List.map snd (List.filter (in_slot idx heading) hs).

(** The three sequences of several hunks, each concatenated in order. *)
Definition concat_hunks (hs : list Hunk) : Hunk :=
  {| insertions := List.concat (List.map insertions hs);
     deletions := List.concat (List.map deletions hs);
     context := List.concat (List.map context hs) |}.

(** One file segment whose two hunks have the same header, hence the same
    (empty) heading. *)
Definition split_hunk_example : string :=
  "--- a/x
+++ b/x
@@ -1,2 +1,2 @@
 one
-two
+deux
@@ -1,2 +1,2 @@
 three
-four
+quatre
".

(** ** Notions used in the further properties of the parser *)

(** The payloads of the lines of [body] that the parser reads under the
    identifier [c], in the order of the lines. *)
Definition payloads_of (c : ascii) (body : list string) : list string :=
  List.map (fun l => snd (identify l))
    (List.filter (fun l => Ascii.eqb (fst (identify l)) c) body).

(** No empty string among [xs]. *)
Definition no_blank (xs : list string) : Prop :=
  Forall (fun x => x <> EmptyString) xs.

(** The three sequences of a Hunk hold no empty string. *)
Definition clean_hunk (h : Hunk) : Prop :=
  no_blank (insertions h) /\ no_blank (deletions h) /\ no_blank (context h).

(** Every character of [s] satisfies [f]. *)
Fixpoint all_chars (f : ascii -> bool) (s : string) : bool :=
  match s with
  | EmptyString => true
  | String c s' => f c && all_chars f s'
  end.

(** [s] is empty or begins with a character that fails [f]: a greedy
    repetition of [f] stops in front of it. *)
Definition stops (f : ascii -> bool) (s : string) : bool :=
  match s with
  | EmptyString => true
  | String c _ => negb (f c)
  end.

(** The result of a parse with [f] applied to the value it returns. *)
Definition outcome_map {A B : Type} (f : A -> B) (m : outcome A) : outcome B :=
  match m with
  | Ok a => Ok (f a)
  | Raise e => Raise e
  | OutOfFuel => OutOfFuel
  end.

(** A parsed hunk that comes from the lines [diff]: its key is read off a
    minus header and the plus header right after it, its heading off a hunk
    header, and its sequences hold no empty string. *)
Definition from_input (diff : list string) (ph : parsed_hunk) : Prop :=
  (exists pre minus plus_line post,
     diff = pre ++ minus :: plus_line :: post /\
     Re.FILE_SEPARATOR_MINUS minus = Some (fst (fst (fst ph))) /\
     Re.FILE_SEPARATOR_PLUS plus_line = Some (snd (fst (fst ph)))) /\
  (exists header hunk,
     In header diff /\ Re.HUNK header = Some hunk /\
     snd (fst ph) = Re.group5 hunk) /\
  clean_hunk (snd ph).

(** Every key of [patches] has at least one heading. *)
Definition no_empty_entry (patches : patches_map) : Prop :=
  forall idx hunks, patches !! idx = Some hunks ->
    exists heading, is_Some (hunks !! heading).

(** A non-empty string of decimal digits. *)
Definition digit_string (d : string) : Prop :=
  all_chars Str.is_digit d = true /\ d <> EmptyString.

(** The optional count of a hunk header as it is written: a comma and the
    digits, or nothing. *)
Definition render_count (count : option string) : string :=
  match count with
  | Some d => "," +:+ d
  | None => EmptyString
  end.

(** The line matches one of the three header patterns. *)
Definition header_line (l : string) : Prop :=
  is_Some (Re.FILE_SEPARATOR_MINUS l) \/ is_Some (Re.FILE_SEPARATOR_PLUS l) \/
  is_Some (Re.HUNK l).

(** A hunk header as it is written, with [tail] after the closing [@@]. *)
Definition render_hunk_header (l_start : string) (l_count : option string)
    (r_start : string) (r_count : option string) (tail : string) : string :=
  "@@ -" +:+ l_start +:+ render_count l_count +:+
  " +" +:+ r_start +:+ render_count r_count +:+ " @@" +:+ tail.

(** * [bin/pasta_evaluate_patches.py]

    The functions of the evaluation script that compute on strings, lists,
    sets and dictionaries.  A file open for writing is the text written to
    it so far; what the log receives is left out. *)

(** ** [write_cell] and [write_dict_list] *)

Definition tab : ascii := "009"%char.
Definition apostrophe : ascii := "'"%char.
Definition double_quote : ascii := "034"%char.
Definition backquote : ascii := "`"%char.

(** [s.replace(old, new)] when [old] and [new] are one character long. *)
Fixpoint replace_char (old new : ascii) (s : string) : string :=
  match s with
  | EmptyString => EmptyString
  | String c s' =>
      String (if Ascii.eqb c old then new else c) (replace_char old new s')
  end.

(** The chain of five [replace] of [write_cell], applied to [str(string)]. *)
Definition cell_text (text : string) : string :=
  replace_char "=" "-"
    (replace_char tab " "
       (replace_char Str.newline "|"
          (replace_char double_quote backquote
             (replace_char apostrophe backquote text)))).

(** [write_cell(file, string)], where [text] is [str(string)]: the cell and
    a tab are written to the file. *)
Definition write_cell (file : string) (text : string) : string :=
  file +:+ cell_text text +:+ String tab EmptyString.

(** [file.write('\n')] *)
Definition write_newline (file : string) : string :=
  file +:+ String Str.newline EmptyString.

Section WriteDictList.

(** The values of the dictionaries and their [str]. *)
Variable V : Type.
Variable str : V -> string.

(** A dictionary with string keys is the list of its items in insertion
    order; [for k in data.keys(): write_cell(f, data[k])] writes the value
    of each item in that order. *)
Definition write_values (file : string) (data : list (string * V)) : string :=
  foldl (fun f item => write_cell f (str (snd item))) file data.

Definition write_keys (file : string) (data : list (string * V)) : string :=
  foldl (fun f item => write_cell f (fst item)) file data.

(** [write_dict_list(_list, name)]: the text of the file [name] when the
    function returns; [_list[0]] raises [IndexError] on the empty list. *)
Definition write_dict_list (_list : list (list (string * V))) : outcome string :=
  match _list with
  | [] => Raise IndexError
  | first :: _ =>
      let f := write_newline (write_keys EmptyString first) in
      Ok (foldl (fun f data => write_newline (write_values f data)) f _list)
  end.

End WriteDictList.

(** The number of occurrences of [c] in [s]. *)
Fixpoint count_char (c : ascii) (s : string) : nat :=
  match s with
  | EmptyString => 0
  | String a s' => (if Ascii.eqb a c then 1 else 0) + count_char c s'
  end.

(** What the five replacements do to one character. *)
Definition cell_char (c : ascii) : ascii :=
  let c1 := if Ascii.eqb c apostrophe then backquote else c in
  let c2 := if Ascii.eqb c1 double_quote then backquote else c1 in
  let c3 := if Ascii.eqb c2 Str.newline then "|"%char else c2 in
  let c4 := if Ascii.eqb c3 tab then " "%char else c3 in
  if Ascii.eqb c4 "=" then "-"%char else c4.

(** A character that [write_cell] lets through unchanged. *)
Definition plain_char (c : ascii) : bool :=
  negb (Ascii.eqb c apostrophe) && negb (Ascii.eqb c double_quote) &&
  negb (Ascii.eqb c Str.newline) && negb (Ascii.eqb c tab) &&
  negb (Ascii.eqb c "=").

(** ** [MAINLINE_REGEX] and the choice of a tag for a patch *)

(** [$]: the end of the string, or the line feed that ends it. *)
Definition at_end (s : string) : bool :=
  match s with
  | EmptyString => true
  | String c EmptyString => Ascii.eqb c Str.newline
  | _ => false
  end.

(** The optional release-candidate suffix [-rc] and digits, then [$]; when
    the suffix matches and [$] fails after it, the match is tried again
    without the suffix. *)
Definition mainline_tail (s : string) : bool :=
  match Str.strip_prefix "-rc" s with
  | Some s' =>
      match Re.digits1 s' with
      | Some (_, rest) => at_end rest || at_end s
      | None => at_end s
      end
  | None => at_end s
  end.

(** The first alternative of the version group: digits, a dot, digits. *)
Definition mainline_two_numbers (s : string) : bool :=
  match Re.digits1 s with
  | Some (_, s1) =>
      match Str.strip_prefix "." s1 with
      | Some s2 =>
          match Re.digits1 s2 with
          | Some (_, s3) => mainline_tail s3
          | None => false
          end
      | None => false
      end
  | None => false
  end.

(** The second alternative: [2.6.] and digits. *)
Definition mainline_2_6 (s : string) : bool :=
  match Str.strip_prefix "2.6." s with
  | Some s1 =>
      match Re.digits1 s1 with
      | Some (_, s2) => mainline_tail s2
      | None => false
      end
  | None => false
  end.

(** [MAINLINE_REGEX.match(x)]: the letter [v], one of the two alternatives,
    an optional release-candidate suffix, the end. *)
Definition MAINLINE_REGEX (x : string) : bool :=
  match Str.strip_prefix "v" x with
  | Some s => mainline_two_numbers s || mainline_2_6 s
  | None => false
  end.

(** The loop of [evaluate_patches] that gives a patch its tag: the tags are
    pairs of a name and a date, a date is a point on the time line;
    the loop breaks at the first tag dated after the patch. *)
Fixpoint assign_tag_from (tag : option string) (mainline_tags : list (string * Z))
    (author_date : Z) : option string :=
  match mainline_tags with
  | [] => tag
  | (cand_tag, cand_tag_date) :: rest =>
      if (cand_tag_date >? author_date)%Z then tag
      else assign_tag_from (Some cand_tag) rest author_date
  end.

(** [tag = None] before the loop. *)
Definition assign_tag (mainline_tags : list (string * Z)) (author_date : Z)
    : option string :=
  assign_tag_from None mainline_tags author_date.

(** The tags dated no later than [author_date]. *)
Definition tags_until (author_date : Z) (tags : list (string * Z))
    : list (string * Z) :=
  List.filter (fun t => (snd t <=? author_date)%Z) tags.

(** The tags come in the order of their dates. *)
Definition by_date (tags : list (string * Z)) : Prop :=
  forall i j t u, i < j -> tags !! i = Some t -> tags !! j = Some u ->
    (snd t <= snd u)%Z.

(** ** [count_lists] *)

(** The two statements of the inner loop: create the counter at 0 when the
    list is new, then add 1. *)
Definition count_one (patch_origin_count : gmap string nat) (mlist : string)
    : gmap string nat :=
  let counts :=
    match patch_origin_count !! mlist with
    | None => <[mlist := 0]> patch_origin_count
    | Some _ => patch_origin_count
    end in
  <[mlist := default 0 (counts !! mlist) + 1]> counts.

(** [count_lists(repo, patches, description)]: the dictionary it returns;
    [get_lists] stands for [repo.mbox.get_lists], and [patches] is given in
    the order the loop visits it. *)
Definition count_lists (get_lists : string -> list string)
    (patches : list string) : gmap string nat :=
  foldl (fun counts patch => foldl count_one counts (get_lists patch))
    ∅ patches.

(** How often [mlist] occurs in the lists of the patches. *)
Definition occurrences (get_lists : string -> list string) (mlist : string)
    (patches : list string) : nat :=
  list_sum (List.map
              (fun patch =>
                 length (List.filter (fun l => bool_decide (l = mlist))
                           (get_lists patch)))
              patches).

(** A dictionary of counters in which every counter is the number [n l]
    and is present exactly when that number is not 0. *)
Definition counts_are (counts : gmap string nat) (n : string -> nat) : Prop :=
  forall l, counts !! l = if (n l =? 0)%nat then None else Some (n l).

(** ** [is_part_of_patch_set] *)

(** [re.search]: the anchored matcher [m] is tried at every position. *)
Fixpoint search (m : string -> bool) (s : string) : bool :=
  m s || match s with
         | EmptyString => false
         | String _ s' => search m s'
         end.

(** The pattern of a numbered patch, anchored: digits, a slash, digits, a
    closing bracket. *)
Definition patch_number (s : string) : bool :=
  match Re.digits1 s with
  | Some (_, s1) =>
      match Str.strip_prefix "/" s1 with
      | Some s2 =>
          match Re.digits1 s2 with
          | Some (_, s3) =>
              match Str.strip_prefix "]" s3 with
              | Some _ => true
              | None => false
              end
          | None => false
          end
      | None => false
      end
  | None => false
  end.

(** [is_part_of_patch_set(patch)]: [_repo] maps a message id to the subject
    of its mail; a missing id is the [KeyError] that the function catches. *)
Definition is_part_of_patch_set (_repo : gmap string string) (patch : string)
    : bool :=
  match _repo !! patch with
  | Some mail_subject => search patch_number mail_subject
  | None => false
  end.

(** ** [get_ignored]: the populations

    The first loop of [get_ignored], which sorts the patches of the
    clusters into populations.  [clustering.iter_split()] is the list of
    its pairs of a downstream and an upstream set, each set in the order
    the loop visits it; [mail_characteristics] is a dictionary, and a patch
    without an entry is the [KeyError] of [mail_characteristics[d]], here
    the result [None]. *)

Record characteristics := mkCharacteristics {
  is_from_bot : bool;
  is_stable_review : bool;
  patches_linux : bool;
  is_first_patch_in_thread : bool
}.

Record populations := mkPopulations {
  population_all_patches : gset string;
  population_not_accepted : gset string;
  population_accepted : gset string;
  not_upstreamed_patches : gset string;
  upstreamed_patches : gset string;
  skipped_bot : nat;
  skipped_stable : nat;
  skipped_not_linux : nat;
  skipped_not_first_patch : nat
}.

(** The sets and counters before the loop. *)
Definition populations_init : populations :=
  mkPopulations ∅ ∅ ∅ ∅ ∅ 0 0 0 0.

(** [len(upstream)] as a condition. *)
Definition has_upstream (upstream : list string) : bool :=
  match upstream with
  | [] => false
  | _ :: _ => true
  end.

(** The four tests that set [skip]. *)
Definition skip_of (c : characteristics) : bool :=
  let skip := false in
  let skip := if is_from_bot c then true else skip in
  let skip := if is_stable_review c then true else skip in
  let skip := if negb (patches_linux c) then true else skip in
  if negb (is_first_patch_in_thread c) then true else skip.

(** The body of [for d in downstream], on the populations and the set
    [relevant] of the cluster. *)
Definition visit_patch (mail_characteristics : gmap string characteristics)
    (upstream : list string) (st : populations * gset string) (d : string)
    : option (populations * gset string) :=
  let '(p, relevant) := st in
  match mail_characteristics !! d with
  | None => None
  | Some c =>
      Some
        ({| population_all_patches := population_all_patches p ∪ {[ d ]};
            population_not_accepted :=
              if has_upstream upstream then population_not_accepted p
              else population_not_accepted p ∪ {[ d ]};
            population_accepted :=
              if has_upstream upstream then population_accepted p ∪ {[ d ]}
              else population_accepted p;
            not_upstreamed_patches := not_upstreamed_patches p;
            upstreamed_patches := upstreamed_patches p;
            skipped_bot := skipped_bot p + if is_from_bot c then 1 else 0;
            skipped_stable :=
              skipped_stable p + if is_stable_review c then 1 else 0;
            skipped_not_linux :=
              skipped_not_linux p + if patches_linux c then 0 else 1;
            skipped_not_first_patch :=
              skipped_not_first_patch p +
              if is_first_patch_in_thread c then 0 else 1 |},
         if skip_of c then relevant else relevant ∪ {[ d ]})
  end.

(** [for d in downstream: ...] *)
Fixpoint visit_downstream (mail_characteristics : gmap string characteristics)
    (upstream : list string) (st : populations * gset string)
    (downstream : list string) : option (populations * gset string) :=
  match downstream with
  | [] => Some st
  | d :: rest =>
      match visit_patch mail_characteristics upstream st d with
      | None => None
      | Some st' => visit_downstream mail_characteristics upstream st' rest
      end
  end.

(** What follows the inner loop: nothing when [relevant] is empty, else
    the union into one of the two sets. *)
Definition file_relevant (upstream : list string) (p : populations)
    (relevant : gset string) : populations :=
  if decide (size relevant = 0) then p
  else
    {| population_all_patches := population_all_patches p;
       population_not_accepted := population_not_accepted p;
       population_accepted := population_accepted p;
       not_upstreamed_patches :=
         if has_upstream upstream then not_upstreamed_patches p
         else not_upstreamed_patches p ∪ relevant;
       upstreamed_patches :=
         if has_upstream upstream then upstreamed_patches p ∪ relevant
         else upstreamed_patches p;
       skipped_bot := skipped_bot p;
       skipped_stable := skipped_stable p;
       skipped_not_linux := skipped_not_linux p;
       skipped_not_first_patch := skipped_not_first_patch p |}.

(** [for downstream, upstream in clustering.iter_split(): ...] *)
Fixpoint visit_clusters (mail_characteristics : gmap string characteristics)
    (p : populations) (clusters : list (list string * list string))
    : option populations :=
  match clusters with
  | [] => Some p
  | (downstream, upstream) :: rest =>
      match visit_downstream mail_characteristics upstream (p, ∅) downstream with
      | None => None
      | Some (p', relevant) =>
          visit_clusters mail_characteristics
            (file_relevant upstream p' relevant) rest
      end
  end.

(** The populations when the first loop of [get_ignored] is over. *)
Definition get_ignored_populations
    (mail_characteristics : gmap string characteristics)
    (clusters : list (list string * list string)) : option populations :=
  visit_clusters mail_characteristics populations_init clusters.

(** A patch that none of the four tests skips. *)
Definition relevant_patch (mail_characteristics : gmap string characteristics)
    (d : string) : Prop :=
  exists c, mail_characteristics !! d = Some c /\
    is_from_bot c = false /\ is_stable_review c = false /\
    patches_linux c = true /\ is_first_patch_in_thread c = true.

(** The populations keep to one another as the loop intends. *)
Definition populations_consistent (p : populations) : Prop :=
  population_all_patches p = population_accepted p ∪ population_not_accepted p /\
  upstreamed_patches p ⊆ population_accepted p /\
  not_upstreamed_patches p ⊆ population_not_accepted p.

(** The patches the loop visits, cluster after cluster. *)
Definition visited (clusters : list (list string * list string)) : list string :=
  List.concat (List.map fst clusters).

(** How many of the patches [ds] have the characteristic [f]. *)
Definition count_visited (mail_characteristics : gmap string characteristics)
    (f : characteristics -> bool) (ds : list string) : nat :=
  length (List.filter
            (fun d => match mail_characteristics !! d with
                      | Some c => f c
                      | None => false
                      end) ds).

(** What a visit of the patches [down] of a cluster with the upstream set
    [up] adds to the populations [p] and to the set [rel], giving [p'] and
    [rel']. *)
Definition grown (mail_characteristics : gmap string characteristics)
    (up : list string) (p : populations) (rel : gset string)
    (p' : populations) (rel' : gset string) (down : list string) : Prop :=
  (forall x, x ∈ population_all_patches p' <->
             x ∈ population_all_patches p \/ In x down) /\
  (forall x, x ∈ population_accepted p' <->
             x ∈ population_accepted p \/ (has_upstream up = true /\ In x down)) /\
  (forall x, x ∈ population_not_accepted p' <->
             x ∈ population_not_accepted p \/
             (has_upstream up = false /\ In x down)) /\
  upstreamed_patches p' = upstreamed_patches p /\
  not_upstreamed_patches p' = not_upstreamed_patches p /\
  (forall x, x ∈ rel' <->
             x ∈ rel \/ (In x down /\ relevant_patch mail_characteristics x)) /\
  skipped_bot p' =
    skipped_bot p + count_visited mail_characteristics is_from_bot down /\
  skipped_stable p' =
    skipped_stable p + count_visited mail_characteristics is_stable_review down /\
  skipped_not_linux p' =
    skipped_not_linux p +
    count_visited mail_characteristics (fun c => negb (patches_linux c)) down /\
  skipped_not_first_patch p' =
    skipped_not_first_patch p +
    count_visited mail_characteristics
      (fun c => negb (is_first_patch_in_thread c)) down.

(** The clusters with an upstream set, and those without. *)
Definition in_cluster (accepted : bool)
    (clusters : list (list string * list string)) (x : string) : Prop :=
  exists down up, In (down, up) clusters /\ has_upstream up = accepted /\
                  In x down.

(** What the visit of the clusters [cs] adds to the populations. *)
Definition grown_all (mail_characteristics : gmap string characteristics)
    (p p' : populations) (cs : list (list string * list string)) : Prop :=
  (forall x, x ∈ population_all_patches p' <->
             x ∈ population_all_patches p \/ In x (visited cs)) /\
  (forall x, x ∈ population_accepted p' <->
             x ∈ population_accepted p \/ in_cluster true cs x) /\
  (forall x, x ∈ population_not_accepted p' <->
             x ∈ population_not_accepted p \/ in_cluster false cs x) /\
  (forall x, x ∈ upstreamed_patches p' <->
             x ∈ upstreamed_patches p \/
             (in_cluster true cs x /\ relevant_patch mail_characteristics x)) /\
  (forall x, x ∈ not_upstreamed_patches p' <->
             x ∈ not_upstreamed_patches p \/
             (in_cluster false cs x /\ relevant_patch mail_characteristics x)) /\
  skipped_bot p' =
    skipped_bot p + count_visited mail_characteristics is_from_bot (visited cs) /\
  skipped_stable p' =
    skipped_stable p +
    count_visited mail_characteristics is_stable_review (visited cs) /\
  skipped_not_linux p' =
    skipped_not_linux p +
    count_visited mail_characteristics (fun c => negb (patches_linux c))
      (visited cs) /\
  skipped_not_first_patch p' =
    skipped_not_first_patch p +
    count_visited mail_characteristics
      (fun c => negb (is_first_patch_in_thread c)) (visited cs).

(** Three patches in two clusters, the first with an upstream commit; the
    second patch comes from a bot. *)
Definition example_characteristics : gmap string characteristics :=
  {[ "p1" := mkCharacteristics false false true true;
     "p2" := mkCharacteristics true false true true;
     "p3" := mkCharacteristics false false true true ]}.

Definition example_clusters : list (list string * list string) :=
  [ (["p1"; "p2"], ["c1"]); (["p3"], []) ].

Definition example_populations : populations :=
  {| population_all_patches := {[ "p1"; "p2"; "p3" ]};
     population_not_accepted := {[ "p3" ]};
     population_accepted := {[ "p1"; "p2" ]};
     not_upstreamed_patches := {[ "p3" ]};
     upstreamed_patches := {[ "p1" ]};
     skipped_bot := 1;
     skipped_stable := 0;
     skipped_not_linux := 0;
     skipped_not_first_patch := 0 |}.

(** * Properties *)

(** ** The patterns and the split, on examples *)

Example split_keeps_cr :
  Str.split_newline ("a" +:+ String "013"%char ("b" +:+ String Str.newline "c"))
  = ["a" +:+ String "013"%char "b"; "c"].
Proof. reflexivity. Qed.

Example split_empty : Str.split_newline "" = [""].
Proof. reflexivity. Qed.

Example minus_header_example :
  Re.FILE_SEPARATOR_MINUS ("--- a/foo.c" +:+ String "009"%char "2016-01-01")
  = Some "a/foo.c".
Proof. reflexivity. Qed.

Example hunk_header_example :
  Re.HUNK "@@ -1,2 +1 @@ int main(void)"
  = Some {| Re.group1 := "1"; Re.group2 := Some "2"; Re.group3 := "1";
            Re.group4 := None; Re.group5 := "int main(void)" |}.
Proof. reflexivity. Qed.

Example hunk_header_no_count : Re.HUNK "@@ -1, +1 @@" = None.
Proof. reflexivity. Qed.

Example exclude_cc_example : Re.EXCLUDE_CC "diff --cc foo.c" = true.
Proof. reflexivity. Qed.

Example exclude_cc_needs_path : Re.EXCLUDE_CC "diff --cc " = false.
Proof. reflexivity. Qed.

(** ** The loops consume input and end *)

(** A successful body loop popped a prefix [used] of its input: it stopped
    at the first moment the two counters met their targets. *)
Lemma body_loop_Ok l r st diff st' rest :
  body_loop l r st diff = Ok (st', rest) ->
  exists used,
    diff = used ++ rest /\ st' = account_all st used /\
    satisfied l r st' = true /\
    (forall k, k < length used ->
       satisfied l r (account_all st (firstn k used)) = false).
Proof.
  revert st. induction diff as [|line diff IH]; intros st; simpl.
  - destruct (satisfied l r st) eqn:Hs; [|discriminate].
    intros [= <- <-]. exists []. repeat split; auto. simpl. lia.
  - destruct (satisfied l r st) eqn:Hs.
    + intros [= <- <-]. exists []. repeat split; auto. simpl. lia.
    + intros H. destruct (IH _ H) as (used & -> & -> & Hsat & Hmin).
      exists (line :: used). repeat split; auto.
      intros [|k] Hk; simpl; [exact Hs|]. apply Hmin. simpl in Hk. lia.
Qed.

Lemma body_loop_length l r st diff st' rest :
  body_loop l r st diff = Ok (st', rest) -> length rest <= length diff.
Proof.
  intros H. destruct (body_loop_Ok _ _ _ _ _ _ H) as (used & -> & _).
  rewrite length_app. lia.
Qed.

Lemma body_loop_no_fuel l r st diff : body_loop l r st diff <> OutOfFuel.
Proof.
  revert st. induction diff as [|line diff IH]; intros st; simpl;
    destruct (satisfied l r st); try discriminate. apply IH.
Qed.

(** The two counts of a hunk header, one after the other. *)
Ltac destruct_counts hunk :=
  destruct (count_of (Re.group2 hunk)) as [?l_lines| |]; simpl;
    try reflexivity; try discriminate;
  destruct (count_of (Re.group4 hunk)) as [?r_lines| |]; simpl;
    try reflexivity; try discriminate.

(** [int] returns or raises. *)
Lemma int_no_fuel s : Str.int s <> OutOfFuel.
Proof. unfold Str.int. destruct (_ <=? _)%nat; discriminate. Qed.

Lemma count_of_no_fuel g : count_of g <> OutOfFuel.
Proof. destruct g as [d|]; simpl; [apply int_no_fuel|discriminate]. Qed.

(** Any fuel that covers the remaining lines gives the same result. *)
Lemma hunk_loop_fuel_irrelevant fuel1 : forall fuel2 patches idx diff,
  length diff <= fuel1 -> length diff <= fuel2 ->
  hunk_loop_fuel fuel1 patches idx diff = hunk_loop_fuel fuel2 patches idx diff.
Proof.
  induction fuel1 as [|fuel1 IH]; intros fuel2 patches idx diff H1 H2;
    destruct fuel2 as [|fuel2]; destruct diff as [|header diff1];
    simpl in *; try reflexivity; try lia.
  destruct (Re.HUNK header) as [hunk|]; [|reflexivity].
  destruct (count_of (Re.group2 hunk)) as [l_lines| |]; simpl; try reflexivity.
  destruct (count_of (Re.group4 hunk)) as [r_lines| |]; simpl; try reflexivity.
  destruct (body_loop _ _ body_init diff1) as [[st diff2]| |] eqn:Hb;
    simpl; try reflexivity.
  apply body_loop_length in Hb. apply IH; lia.
Qed.

(** The hunk loop, one round at a time. *)
Lemma hunk_loop_nil patches idx : hunk_loop patches idx [] = Ok (patches, []).
Proof. reflexivity. Qed.

Lemma hunk_loop_cons patches idx header diff1 :
  hunk_loop patches idx (header :: diff1) =
  match Re.HUNK header with
  | None => Ok (patches, header :: diff1)
  | Some hunk =>
      l_lines <- count_of (Re.group2 hunk) ;;
      r_lines <- count_of (Re.group4 hunk) ;;
      r <- body_loop l_lines r_lines body_init diff1 ;;
      let '(st, diff2) := r in
      hunk_loop (record_hunk patches idx (Re.group5 hunk) (hunk_of_body st))
        idx diff2
  end.
Proof.
  unfold hunk_loop. simpl. destruct (Re.HUNK header) as [hunk|]; [|reflexivity].
  destruct (count_of (Re.group2 hunk)) as [l_lines| |]; simpl; try reflexivity.
  destruct (count_of (Re.group4 hunk)) as [r_lines| |]; simpl; try reflexivity.
  destruct (body_loop _ _ body_init diff1) as [[st diff2]| |] eqn:Hb;
    simpl; try reflexivity.
  apply body_loop_length in Hb. apply hunk_loop_fuel_irrelevant; lia.
Qed.

Lemma hunk_loop_length : forall diff patches idx patches' rest,
  hunk_loop patches idx diff = Ok (patches', rest) -> length rest <= length diff.
Proof.
  intros diff. remember (length diff) as n eqn:Hn. revert diff Hn.
  induction n as [n IH] using lt_wf_ind. intros diff Hn patches idx patches' rest.
  destruct diff as [|header diff1].
  - rewrite hunk_loop_nil. intros [= <- <-]. simpl. lia.
  - rewrite hunk_loop_cons. destruct (Re.HUNK header) as [hunk|].
    + destruct (count_of (Re.group2 hunk)) as [l_lines| |]; simpl; try discriminate.
      destruct (count_of (Re.group4 hunk)) as [r_lines| |]; simpl; try discriminate.
      destruct (body_loop _ _ body_init diff1) as [[st diff2]| |] eqn:Hb;
        simpl; try discriminate.
      apply body_loop_length in Hb. intros H. subst n.
      apply (IH (length diff2) ltac:(simpl; lia) diff2 eq_refl) in H.
      simpl. lia.
    + intros [= <- <-]. lia.
Qed.

Lemma hunk_loop_no_fuel : forall diff patches idx,
  hunk_loop patches idx diff <> OutOfFuel.
Proof.
  intros diff. remember (length diff) as n eqn:Hn. revert diff Hn.
  induction n as [n IH] using lt_wf_ind. intros diff Hn patches idx.
  destruct diff as [|header diff1]; [discriminate|].
  rewrite hunk_loop_cons. destruct (Re.HUNK header) as [hunk|]; [|discriminate].
  destruct (count_of (Re.group2 hunk)) as [l_lines| |] eqn:Hl; simpl;
    try discriminate; [|exfalso; exact (count_of_no_fuel _ Hl)].
  destruct (count_of (Re.group4 hunk)) as [r_lines| |] eqn:Hr; simpl;
    try discriminate; [|exfalso; exact (count_of_no_fuel _ Hr)].
  destruct (body_loop _ _ body_init diff1) as [[st diff2]| |] eqn:Hb;
    simpl; try discriminate.
  - apply body_loop_length in Hb. subst n.
    apply (IH (length diff2) ltac:(simpl; lia) diff2 eq_refl).
  - exfalso. exact (body_loop_no_fuel _ _ _ _ Hb).
Qed.

Lemma seek_minus_length diff : forall minus,
  length (snd (seek_minus minus diff)) <= length diff.
Proof.
  induction diff as [|l diff IH]; intros minus; simpl;
    destruct (Re.FILE_SEPARATOR_MINUS minus); simpl; try lia.
  specialize (IH l). lia.
Qed.

Lemma file_loop_fuel_irrelevant fuel1 : forall fuel2 patches diff,
  length diff <= fuel1 -> length diff <= fuel2 ->
  file_loop_fuel fuel1 patches diff = file_loop_fuel fuel2 patches diff.
Proof.
  induction fuel1 as [|fuel1 IH]; intros fuel2 patches diff H1 H2;
    destruct fuel2 as [|fuel2]; destruct diff as [|first diff0];
    simpl in *; try reflexivity; try lia.
  pose proof (seek_minus_length diff0 first) as Hs.
  destruct (seek_minus first diff0) as [minus diff1]. simpl in Hs.
  destruct diff1 as [|plus_line diff2]; [reflexivity|].
  destruct (group_1 (Re.FILE_SEPARATOR_MINUS minus)) as [m| |]; simpl; try reflexivity.
  destruct (group_1 (Re.FILE_SEPARATOR_PLUS plus_line)) as [p| |]; simpl; try reflexivity.
  destruct (hunk_loop patches (m, p) diff2) as [[patches' diff3]| |] eqn:Hh;
    simpl; try reflexivity.
  apply hunk_loop_length in Hh. simpl in Hs. apply IH; lia.
Qed.

(** The file-segment loop, one round at a time. *)
Lemma file_loop_nil patches : file_loop patches [] = Ok patches.
Proof. reflexivity. Qed.

Lemma file_loop_cons patches first diff0 :
  file_loop patches (first :: diff0) =
  let '(minus, diff1) := seek_minus first diff0 in
  match diff1 with
  | [] => Ok patches
  | plus_line :: diff2 =>
      minus <- group_1 (Re.FILE_SEPARATOR_MINUS minus) ;;
      plus <- group_1 (Re.FILE_SEPARATOR_PLUS plus_line) ;;
      r <- hunk_loop patches (minus, plus) diff2 ;;
      let '(patches', diff3) := r in
      file_loop patches' diff3
  end.
Proof.
  unfold file_loop at 1. simpl.
  pose proof (seek_minus_length diff0 first) as Hs.
  destruct (seek_minus first diff0) as [minus diff1]. simpl in Hs.
  destruct diff1 as [|plus_line diff2]; [reflexivity|].
  destruct (group_1 (Re.FILE_SEPARATOR_MINUS minus)) as [m| |]; simpl; try reflexivity.
  destruct (group_1 (Re.FILE_SEPARATOR_PLUS plus_line)) as [p| |]; simpl; try reflexivity.
  destruct (hunk_loop patches (m, p) diff2) as [[patches' diff3]| |] eqn:Hh;
    simpl; try reflexivity.
  apply hunk_loop_length in Hh. simpl in Hs.
  apply file_loop_fuel_irrelevant; lia.
Qed.

Lemma file_loop_no_fuel : forall diff patches, file_loop patches diff <> OutOfFuel.
Proof.
  intros diff. remember (length diff) as n eqn:Hn. revert diff Hn.
  induction n as [n IH] using lt_wf_ind. intros diff Hn patches.
  destruct diff as [|first diff0]; [discriminate|].
  rewrite file_loop_cons.
  pose proof (seek_minus_length diff0 first) as Hs.
  destruct (seek_minus first diff0) as [minus diff1]. simpl in Hs.
  destruct diff1 as [|plus_line diff2]; [discriminate|].
  destruct (group_1 (Re.FILE_SEPARATOR_MINUS minus)) as [m| |] eqn:Hm; simpl;
    try discriminate.
  2:{ destruct (Re.FILE_SEPARATOR_MINUS minus); discriminate. }
  destruct (group_1 (Re.FILE_SEPARATOR_PLUS plus_line)) as [p| |] eqn:Hp; simpl;
    try discriminate.
  2:{ destruct (Re.FILE_SEPARATOR_PLUS plus_line); discriminate. }
  destruct (hunk_loop patches (m, p) diff2) as [[patches' diff3]| |] eqn:Hh;
    simpl; try discriminate.
  - apply hunk_loop_length in Hh. simpl in Hs. subst n.
    apply (IH (length diff3) ltac:(simpl; lia) diff3 eq_refl).
  - exfalso. exact (hunk_loop_no_fuel _ _ _ Hh).
Qed.

(** The parser always ends: it returns a [Diff] or raises. *)
Theorem parse_diff_nosplit_total diff : parse_diff_nosplit diff <> OutOfFuel.
Proof.
  unfold parse_diff_nosplit. destruct (excluded diff); [discriminate|].
  destruct (file_loop ∅ diff) eqn:H; simpl; try discriminate.
  exfalso. exact (file_loop_no_fuel _ _ H).
Qed.

(** ** One line of a hunk body *)

(** While the targets are not met, the loop pops the next line. *)
Lemma body_loop_pop l r st line diff :
  satisfied l r st = false ->
  body_loop l r st (line :: diff) = body_loop l r (account st line) diff.
Proof. intros H. simpl. rewrite H. reflexivity. Qed.

(** The loop stops, and pops nothing more, once both counters are met. *)
Lemma body_loop_met l r st diff :
  satisfied l r st = true -> body_loop l r st diff = Ok (st, diff).
Proof. intros H. destruct diff; simpl; rewrite H; reflexivity. Qed.

(** It pops from the empty list when they are not. *)
Lemma body_loop_empty l r st :
  satisfied l r st = false -> body_loop l r st [] = Raise IndexError.
Proof. intros H. simpl. rewrite H. reflexivity. Qed.

(** The line the loop pops last: the one that brings both counters to
    their targets; the lines after it stay. *)
Lemma body_loop_last l r st line rest :
  satisfied l r st = false ->
  satisfied l r (account st line) = true ->
  body_loop l r st (line :: rest) = Ok (account st line, rest).
Proof.
  intros H H'. rewrite (body_loop_pop _ _ _ _ _ H). apply (body_loop_met _ _ _ _ H').
Qed.

Lemma account_backslash st payload :
  account st (String LINE_IDENTIFIER_NEWLINE payload) = st.
Proof. reflexivity. Qed.

Lemma account_other st c payload :
  c <> LINE_IDENTIFIER_INSERTION -> c <> LINE_IDENTIFIER_DELETION ->
  c <> LINE_IDENTIFIER_CONTEXT -> c <> LINE_IDENTIFIER_NEWLINE ->
  account st (String c payload) = bump_both st.
Proof.
  intros Hi Hd Hc Hn. unfold account. simpl.
  apply Ascii.eqb_neq in Hi, Hd, Hc, Hn. rewrite Hi, Hd, Hc, Hn. reflexivity.
Qed.

(** C4, as the spec states it, fails: the marker line leaves both counters
    where they were. *)
Lemma C4_backslash_not_counted :
  let st := account body_init "\ No newline at end of file" in
  ~ (del_cntr st = del_cntr body_init + 1 /\ add_cntr st = add_cntr body_init + 1).
Proof. simpl. intros [H _]. discriminate H. Qed.

(** C4 (amended): a hunk-body line whose first character is the backslash
    of the no-newline marker is popped by the body loop and changes nothing:
    neither counter moves and none of the three sequences receives a
    payload.  Popped: the loop goes on with the lines after the marker, so
    that when the next line completes the hunk the loop returns with that
    line accounted for and exactly the lines after it left, and when the
    marker is the last line of the input the loop pops from the emptied
    list. *)
Theorem C4_backslash_consumed_uncounted st payload :
  account st (String "\"%char payload) = st /\
  forall l_lines r_lines,
    satisfied l_lines r_lines st = false ->
    (forall diff,
       body_loop l_lines r_lines st (String "\"%char payload :: diff) =
       body_loop l_lines r_lines st diff) /\
    (forall next rest,
       satisfied l_lines r_lines (account st next) = true ->
       body_loop l_lines r_lines st (String "\"%char payload :: next :: rest) =
       Ok (account st next, rest)) /\
    body_loop l_lines r_lines st [String "\"%char payload] = Raise IndexError.
Proof.
  split; [apply account_backslash|].
  intros l r H.
  assert (Hpop : forall diff,
            body_loop l r st (String "\"%char payload :: diff) =
            body_loop l r st diff).
  { intros diff. rewrite (body_loop_pop _ _ _ _ _ H).
    rewrite account_backslash. reflexivity. }
  split; [exact Hpop|]. split.
  - intros next rest H'. rewrite Hpop. apply (body_loop_last _ _ _ _ _ H H').
  - rewrite Hpop. apply (body_loop_empty _ _ _ H).
Qed.

Lemma C4_backslash_consumed_uncounted_witness :
  satisfied 1 1 (account body_init "-a") = false /\
  body_loop 1 1 (account body_init "-a")
    ["\ No newline at end of file"; "+b"; "--- a/y"] =
  Ok (account (account body_init "-a") "+b", ["--- a/y"]) /\
  body_loop 1 1 (account body_init "-a") ["\ No newline at end of file"] =
  Raise IndexError.
Proof.
  split; [reflexivity|].
  destruct (proj2 (C4_backslash_consumed_uncounted (account body_init "-a")
                     " No newline at end of file") 1 1 eq_refl)
    as (_ & Hnext & Hlast).
  split; [apply Hnext; reflexivity|exact Hlast].
Defined.

(** A marker between the deletion and the insertion of a hunk that declares
    one line on each side: the parse succeeds because the marker is not
    counted. *)
Example no_newline_marker_parse :
  parse_diff "--- a/x
+++ b/x
@@ -1 +1 @@
-a
\ No newline at end of file
+b
" = Ok (Diff_init {[ ("a/x", "b/x") := {[ "" := mkHunk ["b"] ["a"] [] ]} ]} 29).
Proof. vm_compute. reflexivity. Qed.

(** C10: a non-empty hunk-body line whose first character is none of [+],
    [-], space and backslash is popped by the body loop, advances both
    counters by one, and adds its payload to none of the three sequences.
    Popped: the loop goes on with the lines after it and the advanced
    counters, so that when the line completes the hunk the loop returns
    with exactly the lines after it left, and when it is the last line of
    the input and does not complete the hunk the loop pops from the
    emptied list. *)
Theorem C10_other_line_counts_both st c payload :
  c <> "+"%char -> c <> "-"%char -> c <> " "%char -> c <> "\"%char ->
  let st' := account st (String c payload) in
  del_cntr st' = del_cntr st + 1 /\ add_cntr st' = add_cntr st + 1 /\
  b_insertions st' = b_insertions st /\ b_deletions st' = b_deletions st /\
  b_context st' = b_context st /\
  forall l_lines r_lines,
    satisfied l_lines r_lines st = false ->
    (forall diff,
       body_loop l_lines r_lines st (String c payload :: diff) =
       body_loop l_lines r_lines st' diff) /\
    (satisfied l_lines r_lines st' = true ->
     forall rest,
       body_loop l_lines r_lines st (String c payload :: rest) =
       Ok (st', rest)) /\
    (satisfied l_lines r_lines st' = false ->
     body_loop l_lines r_lines st [String c payload] = Raise IndexError).
Proof.
  intros Hi Hd Hc Hn st'. subst st'.
  pose proof (account_other st c payload Hi Hd Hc Hn) as Hacc.
  rewrite Hacc. do 5 (split; [reflexivity|]).
  intros l r H. rewrite <- Hacc. split; [|split].
  - intros diff. apply (body_loop_pop _ _ _ _ _ H).
  - intros H' rest. apply (body_loop_last _ _ _ _ _ H H').
  - intros H'. rewrite (body_loop_pop _ _ _ _ _ H).
    apply (body_loop_empty _ _ _ H').
Qed.

Lemma C10_other_line_counts_both_witness :
  let st' := account body_init "index 1234..5678" in
  del_cntr st' = 1 /\ add_cntr st' = 1 /\
  b_insertions st' = [] /\ b_deletions st' = [] /\ b_context st' = [] /\
  body_loop 1 1 body_init ["index 1234..5678"; "+a"; "-b"] =
  Ok (st', ["+a"; "-b"]) /\
  body_loop 2 2 body_init ["index 1234..5678"] = Raise IndexError.
Proof.
  destruct (C10_other_line_counts_both body_init "i"%char "ndex 1234..5678"
              ltac:(discriminate) ltac:(discriminate) ltac:(discriminate)
              ltac:(discriminate))
    as (H1 & H2 & H3 & H4 & H5 & Hloop).
  split; [exact H1|]. split; [exact H2|]. split; [exact H3|].
  split; [exact H4|]. split; [exact H5|]. split.
  - apply (proj1 (proj2 (Hloop 1 1 eq_refl))). reflexivity.
  - apply (proj2 (proj2 (Hloop 2 2 eq_refl))). reflexivity.
Defined.

(** ** Finding a file segment *)

Lemma seek_minus_found minus diff g :
  Re.FILE_SEPARATOR_MINUS minus = Some g -> seek_minus minus diff = (minus, diff).
Proof. intros H. destruct diff; simpl; rewrite H; reflexivity. Qed.

Lemma seek_minus_skip first pre minus rest g :
  no_minus (first :: pre) ->
  Re.FILE_SEPARATOR_MINUS minus = Some g ->
  seek_minus first (pre ++ minus :: rest) = (minus, rest).
Proof.
  revert first. induction pre as [|l pre IH]; intros first Hno Hm;
    inversion Hno as [|? ? Hf Hpre]; subst; simpl; rewrite Hf.
  - apply (seek_minus_found _ _ _ Hm).
  - apply IH; assumption.
Qed.

Lemma seek_minus_none first diff :
  no_minus (first :: diff) -> snd (seek_minus first diff) = [].
Proof.
  revert first. induction diff as [|l diff IH]; intros first Hno;
    inversion Hno as [|? ? Hf Hrest]; subst; simpl; rewrite Hf.
  - reflexivity.
  - apply IH; assumption.
Qed.

(** Input without a minus header is discarded and the loop ends. *)
Lemma file_loop_no_minus patches diff :
  no_minus diff -> file_loop patches diff = Ok patches.
Proof.
  intros Hno. destruct diff as [|first diff0]; [reflexivity|].
  rewrite file_loop_cons. pose proof (seek_minus_none _ _ Hno) as Hs.
  destruct (seek_minus first diff0) as [minus diff1]. simpl in Hs. subst diff1.
  reflexivity.
Qed.

(** The lines before the first minus header are discarded; the segment
    starts at the header. *)
Lemma file_loop_segment patches pre minus rest g :
  no_minus pre ->
  Re.FILE_SEPARATOR_MINUS minus = Some g ->
  file_loop patches (pre ++ minus :: rest) =
  match rest with
  | [] => Ok patches
  | plus_line :: diff2 =>
      plus <- group_1 (Re.FILE_SEPARATOR_PLUS plus_line) ;;
      r <- hunk_loop patches (g, plus) diff2 ;;
      let '(patches', diff3) := r in
      file_loop patches' diff3
  end.
Proof.
  intros Hno Hm. destruct pre as [|first pre]; simpl; rewrite file_loop_cons.
  - rewrite (seek_minus_found _ _ _ Hm). rewrite Hm. reflexivity.
  - rewrite (seek_minus_skip _ _ _ _ _ Hno Hm). rewrite Hm. reflexivity.
Qed.

(** ** The counts of a hunk *)

Lemma filter_None_snoc xs x :
  Str.is_empty x = false -> filter_None (xs ++ [x]) = filter_None xs ++ [x].
Proof.
  intros H. unfold filter_None. rewrite List.filter_app. simpl. rewrite H.
  reflexivity.
Qed.

(** What one line of a hunk body adds to the counters and to the
    sequences; the marker adds nothing. *)
Lemma account_hunk_line st line :
  hunk_line line = true ->
  let st' := account st line in
  del_cntr st' = del_cntr st + old_side [line] /\
  add_cntr st' = add_cntr st + new_side [line] /\
  del_ctx st' = del_ctx st + old_side [line] /\
  ins_ctx st' = ins_ctx st + new_side [line].
Proof.
  unfold hunk_line, marker_line.
  destruct line as [|c payload]; simpl; try discriminate.
  destruct (Ascii.eqb_spec c "\"%char) as [->|Hm].
  { intros _. rewrite account_backslash.
    unfold old_side, new_side. simpl. lia. }
  rewrite orb_false_r. destruct payload as [|c' payload]; try discriminate.
  intros H. unfold account, old_side, new_side, del_ctx, ins_ctx. simpl.
  destruct (Ascii.eqb_spec c "+"%char) as [->|Hp]; simpl.
  { rewrite filter_None_snoc by reflexivity. rewrite length_app. simpl. lia. }
  destruct (Ascii.eqb_spec c "-"%char) as [->|Hd]; simpl.
  { rewrite filter_None_snoc by reflexivity. rewrite length_app. simpl. lia. }
  destruct (Ascii.eqb_spec c " "%char) as [->|Hc]; simpl.
  { rewrite filter_None_snoc by reflexivity. rewrite length_app. simpl. lia. }
  discriminate H.
Qed.

Lemma old_side_cons line body :
  old_side (line :: body) = old_side [line] + old_side body.
Proof.
  unfold old_side. simpl.
  destruct (first_is "-" line || first_is " " line); reflexivity.
Qed.

Lemma new_side_cons line body :
  new_side (line :: body) = new_side [line] + new_side body.
Proof.
  unfold new_side. simpl.
  destruct (first_is "+" line || first_is " " line); reflexivity.
Qed.

Lemma payload_line_counts line :
  payload_line line = true -> 0 < old_side [line] + new_side [line].
Proof.
  destruct line as [|c [|c' payload]]; simpl; try discriminate.
  unfold old_side, new_side. simpl.
  destruct (Ascii.eqb c "+"); destruct (Ascii.eqb c "-");
    destruct (Ascii.eqb c " "); simpl; try discriminate; lia.
Qed.

(** A body that ends with a payload line has a line to count. *)
Lemma ends_with_payload_counts line body :
  ends_with_payload (line :: body) ->
  0 < old_side (line :: body) + new_side (line :: body).
Proof.
  intros [H|H]; [discriminate|]. revert line H.
  induction body as [|l body IH]; intros line H.
  - apply (payload_line_counts _ H).
  - change (List.last (line :: l :: body) "") with (List.last (l :: body) "") in H.
    specialize (IH l H).
    rewrite (old_side_cons line), (new_side_cons line). lia.
Qed.

Lemma ends_with_payload_tail line body :
  ends_with_payload (line :: body) -> ends_with_payload body.
Proof.
  intros [H|H]; [discriminate|]. destruct body as [|l body]; [left|right].
  - reflexivity.
  - exact H.
Qed.

(** A well-formed body moves the counters and the filtered sequences by the
    counts of its two sides. *)
Lemma account_all_hunk_lines body : forall st,
  Forall (fun l => hunk_line l = true) body ->
  let st' := account_all st body in
  del_cntr st' = del_cntr st + old_side body /\
  add_cntr st' = add_cntr st + new_side body /\
  del_ctx st' = del_ctx st + old_side body /\
  ins_ctx st' = ins_ctx st + new_side body.
Proof.
  induction body as [|line body IH]; intros st Hall; simpl.
  - unfold old_side, new_side. simpl. lia.
  - inversion Hall as [|? ? Hl Hb]; subst.
    destruct (account_hunk_line st line Hl) as (H1 & H2 & H3 & H4).
    destruct (IH (account st line) Hb) as (I1 & I2 & I3 & I4).
    fold (account_all (account st line) body).
    rewrite (old_side_cons line body), (new_side_cons line body). lia.
Qed.

(** The body loop stops exactly at the end of a body whose two sides have
    the declared counts. *)
Lemma body_loop_exact body : forall st rest l_lines r_lines,
  Forall (fun l => hunk_line l = true) body ->
  ends_with_payload body ->
  del_cntr st + old_side body = l_lines ->
  add_cntr st + new_side body = r_lines ->
  body_loop l_lines r_lines st (body ++ rest) = Ok (account_all st body, rest).
Proof.
  induction body as [|line body IH]; intros st rest l r Hall Hend Hold Hnew.
  - unfold old_side, new_side in *. simpl in *.
    assert (Hs : satisfied l r st = true).
    { unfold satisfied. apply andb_true_intro.
      split; apply Nat.eqb_eq; lia. }
    destruct rest; simpl; rewrite Hs; reflexivity.
  - inversion Hall as [|? ? Hl Hb]; subst.
    pose proof (ends_with_payload_counts _ _ Hend) as Hpos.
    assert (Hs : satisfied (del_cntr st + old_side (line :: body))
                   (add_cntr st + new_side (line :: body)) st = false).
    { unfold satisfied. apply andb_false_iff.
      destruct (Nat.eq_dec (old_side (line :: body)) 0) as [H0|H0];
        [right|left]; apply Nat.eqb_neq; lia. }
    simpl app. rewrite (body_loop_pop _ _ _ _ _ Hs).
    destruct (account_hunk_line st line Hl) as (H1 & H2 & _).
    rewrite (old_side_cons line body), (new_side_cons line body).
    apply IH; auto; [apply (ends_with_payload_tail _ _ Hend)|lia|lia].
Qed.

Lemma merge_empty_l h : merge Hunk_empty h = h.
Proof. destruct h; reflexivity. Qed.

Lemma record_hunk_fresh idx heading h :
  record_hunk ∅ idx heading h = {[ idx := {[ heading := h ]} ]}.
Proof.
  unfold record_hunk. rewrite lookup_empty, lookup_insert_eq. simpl.
  rewrite lookup_empty, lookup_insert_eq. simpl.
  rewrite merge_empty_l, !insert_insert_eq, !insert_empty. reflexivity.
Qed.

(** The hunk loop stops at a line that is not a hunk header. *)
Lemma hunk_loop_stop patches idx diff :
  match diff with [] => True | l :: _ => Re.HUNK l = None end ->
  hunk_loop patches idx diff = Ok (patches, diff).
Proof.
  destruct diff as [|l diff]; [reflexivity|].
  intros H. rewrite hunk_loop_cons, H. reflexivity.
Qed.

(** C1: a well-formed diff with one file segment and one hunk, whose body
    lines are insertion, deletion and context lines with a payload that is
    not blank (and possibly no-newline markers), parses to a single Hunk in
    which insertions plus context lines number the new-side count of the
    hunk header and deletions plus context lines number its old-side count
    (each count being 1 when the header omits it). *)
Theorem C1_single_hunk_counts
    text pre mh ph hh body trailer old_path new_path hunk :
  Str.split_newline text = pre ++ mh :: ph :: hh :: body ++ trailer ->
  excluded (Str.split_newline text) = false ->
  no_minus pre ->
  Re.FILE_SEPARATOR_MINUS mh = Some old_path ->
  Re.FILE_SEPARATOR_PLUS ph = Some new_path ->
  Re.HUNK hh = Some hunk ->
  Forall (fun l => hunk_line l = true) body ->
  ends_with_payload body ->
  count_of (Re.group2 hunk) = Ok (old_side body) ->
  count_of (Re.group4 hunk) = Ok (new_side body) ->
  match trailer with [] => True | l :: _ => Re.HUNK l = None end ->
  no_minus trailer ->
  exists h d,
    parse_diff text = Ok d /\
    patches d = {[ (old_path, new_path) := {[ Re.group5 hunk := h ]} ]} /\
    count_of (Re.group4 hunk) =
      Ok (length (insertions h) + length (context h)) /\
    count_of (Re.group2 hunk) =
      Ok (length (deletions h) + length (context h)).
Proof.
  intros Hsplit Hcc Hpre Hm Hp Hh Hbody Hend Hold Hnew Hstop Htrail.
  exists (hunk_of_body (account_all body_init body)).
  eexists. unfold parse_diff, parse_diff_nosplit. rewrite Hcc, Hsplit.
  rewrite (file_loop_segment _ _ _ _ _ Hpre Hm), Hp. simpl bind.
  rewrite hunk_loop_cons, Hh, Hold, Hnew. simpl bind.
  rewrite (body_loop_exact body body_init trailer _ _ Hbody Hend)
    by reflexivity.
  simpl bind. rewrite (hunk_loop_stop _ _ _ Hstop). simpl bind.
  rewrite (file_loop_no_minus _ _ Htrail). simpl bind.
  split; [reflexivity|]. simpl patches. rewrite record_hunk_fresh.
  split; [reflexivity|].
  destruct (account_all_hunk_lines body body_init Hbody) as (_ & _ & Hd & Hi).
  unfold del_ctx, ins_ctx in *. simpl in *. split; congruence.
Qed.

Lemma C1_single_hunk_counts_witness :
  exists h d,
    parse_diff end_to_end_example = Ok d /\
    patches d = {[ ("a/foo.c", "b/foo.c") := {[ "" := h ]} ]} /\
    Ok 3 = Ok (length (insertions h) + length (context h)) /\
    Ok 2 = Ok (length (deletions h) + length (context h)).
Proof.
  apply (C1_single_hunk_counts end_to_end_example
           [] "--- a/foo.c" "+++ b/foo.c" "@@ -1,2 +1,3 @@"
           [" line1"; "+added"; " line2"] [""] "a/foo.c" "b/foo.c"
           {| Re.group1 := "1"; Re.group2 := Some "2"; Re.group3 := "1";
              Re.group4 := Some "3"; Re.group5 := "" |});
    try reflexivity.
  - constructor.
  - repeat constructor.
  - right. reflexivity.
  - repeat constructor.
Defined.

(** The example of the spec, in full. *)
Example end_to_end_parse :
  parse_diff end_to_end_example =
  Ok (Diff_init
        {[ ("a/foo.c", "b/foo.c") :=
             {[ "" := mkHunk ["added"] [] ["line1"; "line2"] ]} ]} 43).
Proof. vm_compute. reflexivity. Qed.

Example end_to_end_affected :
  affected (Diff_init
        {[ ("a/foo.c", "b/foo.c") :=
             {[ "" := mkHunk ["added"] [] ["line1"; "line2"] ]} ]} 43)
  = {[ "foo.c" ]}.
Proof. vm_compute. reflexivity. Qed.

(** ** Malformed input *)

(** Every move keeps the outcome of the structural pass. *)
Lemma step_run a b : step a b -> run a = run b.
Proof.
  intros [patches pre minus plus_line rest old_path new_path Hpre Hm Hp
         |patches idx header hunk l_lines r_lines diff1 st diff2 Hh Hl Hr Hb
         |patches idx diff Hend]; simpl.
  - rewrite (file_loop_segment _ _ _ _ _ Hpre Hm), Hp. reflexivity.
  - rewrite hunk_loop_cons, Hh, Hl, Hr. simpl bind. rewrite Hb. reflexivity.
  - destruct diff as [|l diff]; [reflexivity|].
    simpl in Hend. rewrite hunk_loop_cons, Hend. reflexivity.
Qed.

Lemma reaches_run diff pos : reaches diff pos -> file_loop ∅ diff = run pos.
Proof.
  unfold reaches. intros H.
  change (file_loop ∅ diff) with (run (AtFile ∅ diff)).
  induction H as [|a b c Hab _ IH]; [reflexivity|].
  rewrite (step_run _ _ Hab). exact IH.
Qed.

(** An exception of the structural pass leaves both entry points. *)
Lemma parse_raises diff pos e :
  reaches diff pos -> excluded diff = false -> run pos = Raise e ->
  parse_diff_nosplit diff = Raise e /\
  forall text, Str.split_newline text = diff -> parse_diff text = Raise e.
Proof.
  intros Hreach Hcc Hrun.
  assert (Hn : parse_diff_nosplit diff = Raise e).
  { unfold parse_diff_nosplit.
    rewrite Hcc, (reaches_run _ _ Hreach), Hrun. reflexivity. }
  split; [exact Hn|]. intros text <-. exact Hn.
Qed.

(** C2, as the spec states it, fails: the failure is not an exception
    class of the parser for malformed diffs (Patch.py defines none and has
    no [raise]) but the [AttributeError] of the interpreter, from
    [.group(1)] on the [None] of the failed match. *)
Lemma C2_failure_is_attribute_error :
  Re.FILE_SEPARATOR_MINUS "--- a/foo.c" = Some "a/foo.c" /\
  Re.FILE_SEPARATOR_PLUS "@@ -1 +1 @@" = None /\
  parse_diff "--- a/foo.c
@@ -1 +1 @@
-a
+b" = Raise AttributeError.
Proof. repeat split. Qed.

(** C2 (amended): when the scan for a file segment stops at a line that
    matches the minus header and the line right after it does not match the
    plus header, the parse fails with the uncaught [AttributeError] of
    [.group(1)] on the failed match: the exception leaves the file-segment
    loop whatever was stored before, and, at whatever file segment of the
    input the scan stands, it leaves [parse_diff_nosplit] and [parse_diff];
    no Diff is returned, the patches of the earlier segments included. *)
Theorem C2_plus_header_missing patches pre minus next rest g :
  no_minus pre ->
  Re.FILE_SEPARATOR_MINUS minus = Some g ->
  Re.FILE_SEPARATOR_PLUS next = None ->
  file_loop patches (pre ++ minus :: next :: rest) = Raise AttributeError /\
  forall diff,
    reaches diff (AtFile patches (pre ++ minus :: next :: rest)) ->
    excluded diff = false ->
    parse_diff_nosplit diff = Raise AttributeError /\
    forall text, Str.split_newline text = diff ->
      parse_diff text = Raise AttributeError /\
      forall d, parse_diff text <> Ok d.
Proof.
  intros Hpre Hm Hp.
  assert (Hloop : file_loop patches (pre ++ minus :: next :: rest)
                  = Raise AttributeError).
  { rewrite (file_loop_segment _ _ _ _ _ Hpre Hm), Hp. reflexivity. }
  split; [exact Hloop|]. intros diff Hreach Hcc.
  destruct (parse_raises diff _ _ Hreach Hcc Hloop) as [Hn Ht].
  split; [exact Hn|]. intros text Hsplit. rewrite (Ht text Hsplit).
  split; [reflexivity|discriminate].
Qed.

(** A sound file segment with one hunk, then a minus header without its
    plus header. *)
Lemma C2_plus_header_missing_witness :
  parse_diff "garbage
--- a/foo.c
+++ b/foo.c
@@ -1 +1 @@
-a
+b
--- a/bar.c
@@ -1 +1 @@
-c
+d" = Raise AttributeError.
Proof.
  pose (tail := ["--- a/bar.c"; "@@ -1 +1 @@"; "-c"; "+d"]).
  pose (diff := "garbage" :: "--- a/foo.c" :: "+++ b/foo.c" :: "@@ -1 +1 @@"
                  :: "-a" :: "+b" :: tail).
  pose (patches := record_hunk ∅ ("a/foo.c", "b/foo.c") ""
                     (hunk_of_body (account_all body_init ["-a"; "+b"]))).
  assert (H1 : step (AtFile ∅ diff)
                 (AtHunk ∅ ("a/foo.c", "b/foo.c")
                    ("@@ -1 +1 @@" :: "-a" :: "+b" :: tail))).
  { apply (step_segment ∅ ["garbage"] "--- a/foo.c" "+++ b/foo.c");
      [repeat constructor|reflexivity|reflexivity]. }
  assert (H2 : step (AtHunk ∅ ("a/foo.c", "b/foo.c")
                       ("@@ -1 +1 @@" :: "-a" :: "+b" :: tail))
                 (AtHunk patches ("a/foo.c", "b/foo.c") tail)).
  { apply (step_hunk ∅ ("a/foo.c", "b/foo.c") "@@ -1 +1 @@"
             {| Re.group1 := "1"; Re.group2 := None; Re.group3 := "1";
                Re.group4 := None; Re.group5 := "" |} 1 1
             ("-a" :: "+b" :: tail) (account_all body_init ["-a"; "+b"]) tail);
      reflexivity. }
  assert (H3 : step (AtHunk patches ("a/foo.c", "b/foo.c") tail)
                 (AtFile patches tail)).
  { apply step_next. reflexivity. }
  assert (Hreach : reaches diff (AtFile patches ([] ++ "--- a/bar.c"
                      :: "@@ -1 +1 @@" :: ["-c"; "+d"]))).
  { exact (rtc_l _ _ _ _ H1 (rtc_l _ _ _ _ H2 (rtc_once _ _ H3))). }
  exact (proj1 (proj2 (proj2 (C2_plus_header_missing patches [] "--- a/bar.c"
                          "@@ -1 +1 @@" ["-c"; "+d"] "a/bar.c"
                          ltac:(constructor) eq_refl eq_refl)
                        diff Hreach eq_refl)
                 (Str.join_newline diff) eq_refl)).
Defined.

(** The body loop runs out of input when no prefix of the remaining lines
    brings both counters to their targets. *)
Lemma body_loop_exhausted l_lines r_lines diff : forall st,
  (forall k, k <= length diff ->
     satisfied l_lines r_lines (account_all st (firstn k diff)) = false) ->
  body_loop l_lines r_lines st diff = Raise IndexError.
Proof.
  induction diff as [|line diff IH]; intros st H.
  - pose proof (H 0 (Nat.le_refl _)) as H0. simpl in H0.
    simpl. rewrite H0. reflexivity.
  - pose proof (H 0 ltac:(simpl; lia)) as H0. simpl in H0.
    rewrite (body_loop_pop _ _ _ _ _ H0). apply IH.
    intros k Hk. apply (H (S k)). simpl. lia.
Qed.

(** A count is its declared number, unless [int] refuses the group. *)
Lemma count_of_declared g :
  count_of g = if convertible g then Ok (declared g) else Raise ValueError.
Proof. destruct g as [d|]; reflexivity. Qed.

(** C3, as the spec states it, fails: the failure of a hunk that runs out
    of lines is not an exception class of the parser for malformed input
    (Patch.py defines none) but the [IndexError] of the interpreter, from
    [pop(0)] on the emptied list; and when a count of the header has more
    digits than [int] converts, it is the [ValueError] of [int], before
    any line of the body is read. *)
Lemma C3_failure_is_index_error :
  parse_diff "--- a/foo.c
+++ b/foo.c
@@ -1,3 +1,3 @@
 line1
-old" = Raise IndexError /\
  parse_diff ("--- a/foo.c
+++ b/foo.c
@@ -1," +:+ ones 4301 +:+ " +1 @@
 line1
-old") = Raise ValueError.
Proof. split; vm_compute; reflexivity. Qed.

(** C3 (amended): when the hunk loop stands at a hunk header whose two
    declared counts are never both met by any prefix of the lines that
    remain, the parse fails with the uncaught [IndexError] of [pop(0)] on
    the emptied input, or, when [int] refuses a count of more than 4300
    digits, with its [ValueError]: the exception leaves the hunk loop
    whatever was stored before, and, at whatever hunk of the input the
    loop stands, it leaves [parse_diff_nosplit] and [parse_diff]; no Diff
    is returned and the loop does not go on. *)
Theorem C3_truncated_hunk patches idx header hunk body :
  Re.HUNK header = Some hunk ->
  never_satisfied (declared (Re.group2 hunk)) (declared (Re.group4 hunk)) body ->
  hunk_loop patches idx (header :: body) = Raise (truncation_error hunk) /\
  forall diff,
    reaches diff (AtHunk patches idx (header :: body)) ->
    excluded diff = false ->
    parse_diff_nosplit diff = Raise (truncation_error hunk) /\
    forall text, Str.split_newline text = diff ->
      parse_diff text = Raise (truncation_error hunk) /\
      forall d, parse_diff text <> Ok d.
Proof.
  intros Hh Hnever.
  assert (Hhunk : hunk_loop patches idx (header :: body)
                  = Raise (truncation_error hunk)).
  { rewrite hunk_loop_cons, Hh, !count_of_declared. unfold truncation_error.
    destruct (convertible (Re.group2 hunk)); [|reflexivity].
    destruct (convertible (Re.group4 hunk)); [|reflexivity].
    simpl. rewrite (body_loop_exhausted _ _ _ _ Hnever). reflexivity. }
  split; [exact Hhunk|]. intros diff Hreach Hcc.
  assert (Hrun : run (AtHunk patches idx (header :: body))
                 = Raise (truncation_error hunk)).
  { simpl. rewrite Hhunk. reflexivity. }
  destruct (parse_raises diff _ _ Hreach Hcc Hrun) as [Hn Ht].
  split; [exact Hn|]. intros text Hsplit. rewrite (Ht text Hsplit).
  split; [reflexivity|discriminate].
Qed.

(** A complete hunk, then a hunk that declares three lines a side and has
    two. *)
Lemma C3_truncated_hunk_witness :
  parse_diff "--- a/foo.c
+++ b/foo.c
@@ -1 +1 @@
-a
+b
@@ -7,3 +7,3 @@
 line1
-old" = Raise IndexError.
Proof.
  pose (idx := ("a/foo.c", "b/foo.c")).
  pose (tail := ["@@ -7,3 +7,3 @@"; " line1"; "-old"]).
  pose (diff := "--- a/foo.c" :: "+++ b/foo.c" :: "@@ -1 +1 @@"
                  :: "-a" :: "+b" :: tail).
  pose (hunk := {| Re.group1 := "7"; Re.group2 := Some "3";
                   Re.group3 := "7"; Re.group4 := Some "3";
                   Re.group5 := "" |}).
  pose (patches := record_hunk ∅ idx ""
                     (hunk_of_body (account_all body_init ["-a"; "+b"]))).
  assert (H1 : step (AtFile ∅ diff)
                 (AtHunk ∅ idx ("@@ -1 +1 @@" :: "-a" :: "+b" :: tail))).
  { apply (step_segment ∅ [] "--- a/foo.c" "+++ b/foo.c");
      [constructor|reflexivity|reflexivity]. }
  assert (H2 : step (AtHunk ∅ idx ("@@ -1 +1 @@" :: "-a" :: "+b" :: tail))
                 (AtHunk patches idx tail)).
  { apply (step_hunk ∅ idx "@@ -1 +1 @@"
             {| Re.group1 := "1"; Re.group2 := None; Re.group3 := "1";
                Re.group4 := None; Re.group5 := "" |} 1 1
             ("-a" :: "+b" :: tail) (account_all body_init ["-a"; "+b"]) tail);
      reflexivity. }
  assert (Hreach : reaches diff
            (AtHunk patches idx ("@@ -7,3 +7,3 @@" :: [" line1"; "-old"]))).
  { exact (rtc_l _ _ _ _ H1 (rtc_once _ _ H2)). }
  assert (Hnever : never_satisfied (declared (Re.group2 hunk))
                     (declared (Re.group4 hunk)) [" line1"; "-old"]).
  { intros [|[|[|k]]] Hk; simpl in Hk; try lia; reflexivity. }
  exact (proj1 (proj2 (proj2 (C3_truncated_hunk patches idx "@@ -7,3 +7,3 @@"
                          hunk [" line1"; "-old"] eq_refl Hnever)
                        diff Hreach eq_refl)
                 (Str.join_newline diff) eq_refl)).
Defined.

Example truncated_hunk_text :
  parse_diff "--- a/foo.c
+++ b/foo.c
@@ -1,3 +1,3 @@
 line1
-old" = Raise IndexError.
Proof. vm_compute. reflexivity. Qed.

(** ** The size metric and the empty results *)

(** Splitting removes the line feeds and nothing else: joining the lines
    with line feeds gives the text back, so a carriage return stays inside
    its line. *)
Lemma split_newline_not_nil s : Str.split_newline s <> [].
Proof.
  destruct s as [|c s]; simpl; [discriminate|].
  destruct (Ascii.eqb c Str.newline); [discriminate|].
  destruct (Str.split_newline s); discriminate.
Qed.

Lemma join_split_newline s : Str.join_newline (Str.split_newline s) = s.
Proof.
  induction s as [|c s IH]; [reflexivity|]. simpl.
  pose proof (split_newline_not_nil s) as Hne.
  destruct (Ascii.eqb_spec c Str.newline) as [->|Hc].
  - destruct (Str.split_newline s) as [|l ls]; [congruence|].
    change (Str.join_newline ("" :: l :: ls))
      with ("" +:+ String Str.newline (Str.join_newline (l :: ls))).
    rewrite IH. reflexivity.
  - destruct (Str.split_newline s) as [|l [|l' ls]]; [congruence| |].
    + simpl in *. congruence.
    + change (Str.join_newline (String c l :: l' :: ls))
        with (String c l +:+ String Str.newline (Str.join_newline (l' :: ls))).
      change (Str.join_newline (l :: l' :: ls))
        with (l +:+ String Str.newline (Str.join_newline (l' :: ls))) in IH.
      rewrite <- IH. reflexivity.
Qed.

Lemma diff_lines_size_metric ls : diff_lines ls = size_metric ls.
Proof.
  unfold diff_lines. induction ls as [|l ls IH]; [reflexivity|]. simpl.
  replace (Re.DIFF_SELECTOR l)
    with (first_is "-" l || first_is "+" l || first_is "@" l)
    by (destruct l; reflexivity).
  destruct (first_is "-" l || first_is "+" l || first_is "@" l); simpl;
    rewrite IH; reflexivity.
Qed.

(** The lines hold no line feed, there is one line more than the text
    has line feeds, and every other character of the text, the carriage
    return among them, is in the lines as often as in the text. *)
Lemma split_newline_no_newline s :
  Forall (fun l => count_char Str.newline l = 0) (Str.split_newline s).
Proof.
  induction s as [|c s IH]; [repeat constructor|]. simpl.
  pose proof (split_newline_not_nil s) as Hne.
  destruct (Ascii.eqb c Str.newline) eqn:Hc.
  - constructor; [reflexivity|exact IH].
  - destruct (Str.split_newline s) as [|l ls]; [congruence|].
    inversion IH as [|? ? Hl Hls]; subst.
    constructor; [|exact Hls]. simpl. rewrite Hc. exact Hl.
Qed.

Lemma split_newline_length s :
  length (Str.split_newline s) = S (count_char Str.newline s).
Proof.
  induction s as [|c s IH]; [reflexivity|]. simpl.
  pose proof (split_newline_not_nil s) as Hne.
  destruct (Ascii.eqb c Str.newline); simpl.
  - rewrite IH. reflexivity.
  - destruct (Str.split_newline s) as [|l ls]; [congruence|]. exact IH.
Qed.

Lemma split_newline_keeps c s :
  c <> Str.newline ->
  list_sum (List.map (count_char c) (Str.split_newline s)) = count_char c s.
Proof.
  intros Hc. induction s as [|a s IH]; [reflexivity|].
  cbn [Str.split_newline count_char].
  pose proof (split_newline_not_nil s) as Hne.
  destruct (Ascii.eqb_spec a Str.newline) as [->|Ha].
  - change (list_sum (List.map (count_char c) ("" :: Str.split_newline s)))
      with (list_sum (List.map (count_char c) (Str.split_newline s))).
    rewrite IH.
    destruct (Ascii.eqb_spec Str.newline c); [congruence|]. reflexivity.
  - destruct (Str.split_newline s) as [|l ls]; [congruence|].
    change (list_sum (List.map (count_char c) (String a l :: ls)))
      with ((if Ascii.eqb a c then 1 else 0) + count_char c l
            + list_sum (List.map (count_char c) ls)).
    change (list_sum (List.map (count_char c) (l :: ls)))
      with (count_char c l + list_sum (List.map (count_char c) ls)) in IH.
    lia.
Qed.

(** C5: when the text does not begin with a combined-diff header, the size
    metric of any Diff that [parse_diff] returns is the sum of the lengths
    of the raw lines that begin with [-], [+] or [@], the raw lines being
    the text cut at line feeds only: joined with line feeds they give the
    text back, none holds a line feed, they are one more than the line
    feeds of the text, and every other character, the carriage return
    among them, stays in its line.  The value does not depend on the
    structural pass, and a text in which that pass finds no file segment
    still gets it. *)
Theorem C5_size_metric text :
  excluded (Str.split_newline text) = false ->
  Str.join_newline (Str.split_newline text) = text /\
  Forall (fun l => count_char Str.newline l = 0) (Str.split_newline text) /\
  length (Str.split_newline text) = S (count_char Str.newline text) /\
  (forall c, c <> Str.newline ->
     list_sum (List.map (count_char c) (Str.split_newline text))
     = count_char c text) /\
  (forall d, parse_diff text = Ok d ->
     lines d = size_metric (Str.split_newline text)) /\
  (no_minus (Str.split_newline text) ->
   parse_diff text = Ok (Diff_init ∅ (size_metric (Str.split_newline text)))).
Proof.
  intros Hcc. split; [apply join_split_newline|].
  split; [apply split_newline_no_newline|].
  split; [apply split_newline_length|].
  split; [intros c Hc; apply (split_newline_keeps _ _ Hc)|].
  unfold parse_diff, parse_diff_nosplit. rewrite Hcc. split.
  - intros d. destruct (file_loop ∅ (Str.split_newline text)) as [p| |];
      simpl; try discriminate.
    intros [= <-]. apply diff_lines_size_metric.
  - intros Hno. rewrite (file_loop_no_minus _ _ Hno). simpl.
    rewrite diff_lines_size_metric. reflexivity.
Qed.

(** Four lines, the first ending in a carriage return, which counts as one
    of its three characters. *)
Lemma C5_size_metric_witness :
  let text := "+x" +:+ String "013"%char (String Str.newline "@@y
 z
-w") in
  Str.split_newline text = ["+x" +:+ String "013"%char ""; "@@y"; " z"; "-w"] /\
  length (Str.split_newline text) = S (count_char Str.newline text) /\
  list_sum (List.map (count_char "013"%char) (Str.split_newline text)) = 1 /\
  parse_diff text = Ok (Diff_init ∅ 8).
Proof.
  intros text.
  destruct (C5_size_metric text eq_refl) as (_ & _ & Hlen & Hkeep & _ & Hparse).
  split; [reflexivity|]. split; [exact Hlen|].
  split; [exact (Hkeep "013"%char ltac:(discriminate))|].
  apply Hparse. repeat constructor.
Defined.

(** C6: when the first line matches the combined-diff header, [parse_diff]
    returns, without raising, the Diff with no patches and size metric 0,
    whatever follows the first line. *)
Theorem C6_combined_diff_excluded text first rest :
  Str.split_newline text = first :: rest ->
  Re.EXCLUDE_CC first = true ->
  exists d, parse_diff text = Ok d /\ patches d = ∅ /\ lines d = 0 /\
            affected d = ∅.
Proof.
  intros Hsplit Hcc. exists (Diff_init ∅ 0).
  unfold parse_diff, parse_diff_nosplit. rewrite Hsplit. simpl. rewrite Hcc.
  repeat split.
Qed.

Lemma C6_combined_diff_excluded_witness :
  exists d, parse_diff "diff --cc foo.c
--- a/foo.c
+broken
@@ -1,9 +1,9 @@" = Ok d /\ patches d = ∅ /\ lines d = 0 /\ affected d = ∅.
Proof.
  apply (C6_combined_diff_excluded _ "diff --cc foo.c"
           ["--- a/foo.c"; "+broken"; "@@ -1,9 +1,9 @@"]); reflexivity.
Defined.

(** C9, as the spec states it, fails twice on texts without a file-header
    pair: a text with a [+] line gets the size metric of that line, not
    zero; and a text in which a line matches the minus header and the next
    line is not a plus header makes the parse raise. *)
Lemma C9_not_the_empty_diff :
  (has_header_pair (Str.split_newline "+x") = false /\
   parse_diff "+x" = Ok (Diff_init ∅ 2)) /\
  (has_header_pair (Str.split_newline "--- Original Message ---
hello") = false /\
   parse_diff "--- Original Message ---
hello" = Raise AttributeError).
Proof. repeat split. Qed.

Lemma seek_minus_last first diff :
  no_minus (removelast (first :: diff)) -> snd (seek_minus first diff) = [].
Proof.
  revert first. induction diff as [|l diff IH]; intros first Hno.
  - simpl. destruct (Re.FILE_SEPARATOR_MINUS first); reflexivity.
  - change (removelast (first :: l :: diff))
      with (first :: removelast (l :: diff)) in Hno.
    inversion Hno as [|? ? Hf Hrest]; subst.
    change (seek_minus first (l :: diff)) with
      (match Re.FILE_SEPARATOR_MINUS first with
       | Some _ => (first, l :: diff)
       | None => seek_minus l diff
       end).
    rewrite Hf. apply IH. exact Hrest.
Qed.

Lemma file_loop_no_segment patches diff :
  no_minus (removelast diff) -> file_loop patches diff = Ok patches.
Proof.
  intros Hno. destruct diff as [|first diff0]; [reflexivity|].
  rewrite file_loop_cons. pose proof (seek_minus_last _ _ Hno) as Hs.
  destruct (seek_minus first diff0) as [minus diff1]. simpl in Hs. subst diff1.
  reflexivity.
Qed.

Lemma minus_before_last_false ls :
  minus_before_last ls = false -> no_minus (removelast ls).
Proof.
  induction ls as [|l [|l' rest] IH]; intros H; try constructor.
  - change (minus_before_last (l :: l' :: rest))
      with (matched (Re.FILE_SEPARATOR_MINUS l)
            || minus_before_last (l' :: rest)) in H.
    apply orb_false_elim in H as [H _].
    destruct (Re.FILE_SEPARATOR_MINUS l); [discriminate|reflexivity].
  - apply IH.
    change (minus_before_last (l :: l' :: rest))
      with (matched (Re.FILE_SEPARATOR_MINUS l)
            || minus_before_last (l' :: rest)) in H.
    apply orb_false_elim in H as [_ H]. exact H.
Qed.

(** Without a file-header pair, the first minus header that has a line
    after it has one that is no plus header. *)
Lemma minus_before_last_split ls :
  has_header_pair ls = false -> minus_before_last ls = true ->
  exists pre minus next rest g,
    ls = pre ++ minus :: next :: rest /\ no_minus pre /\
    Re.FILE_SEPARATOR_MINUS minus = Some g /\
    Re.FILE_SEPARATOR_PLUS next = None.
Proof.
  induction ls as [|l [|l' rest] IH]; intros Hpair Hminus; try discriminate.
  change (has_header_pair (l :: l' :: rest))
    with (matched (Re.FILE_SEPARATOR_MINUS l)
          && matched (Re.FILE_SEPARATOR_PLUS l')
          || has_header_pair (l' :: rest)) in Hpair.
  change (minus_before_last (l :: l' :: rest))
    with (matched (Re.FILE_SEPARATOR_MINUS l)
          || minus_before_last (l' :: rest)) in Hminus.
  apply orb_false_elim in Hpair as [Hhere Hpair].
  destruct (Re.FILE_SEPARATOR_MINUS l) as [g|] eqn:Hl.
  - exists [], l, l', rest, g.
    split; [reflexivity|]. split; [constructor|]. split; [exact Hl|].
    destruct (Re.FILE_SEPARATOR_PLUS l'); [discriminate|reflexivity].
  - destruct (IH Hpair Hminus)
      as (pre & minus & next & rest' & g & E & Hno & Hm & Hp).
    exists (l :: pre), minus, next, rest', g. rewrite E.
    split; [reflexivity|]. split; [constructor; assumption|].
    split; assumption.
Qed.

(** C9 (amended): for the empty text, and for every text in which no two
    adjacent lines are a minus header and a plus header, [parse_diff]
    returns a Diff with no patches and does not raise, except when a line
    other than the last matches the minus header and the first line is no
    combined-diff header: the line after that minus header is then no plus
    header and the parse raises [AttributeError].  The size metric of the
    Diff is 0 after a combined-diff header and otherwise the sum over the
    [-], [+] and [@] lines, which is 0 for the empty text. *)
Theorem C9_no_file_segment text :
  has_header_pair (Str.split_newline text) = false ->
  parse_diff "" = Ok (Diff_init ∅ 0) /\
  parse_diff text =
    (if excluded (Str.split_newline text) then Ok (Diff_init ∅ 0)
     else if minus_before_last (Str.split_newline text)
          then Raise AttributeError
          else Ok (Diff_init ∅ (size_metric (Str.split_newline text)))) /\
  forall d, parse_diff text = Ok d -> patches d = ∅ /\ affected d = ∅.
Proof.
  intros Hpair. split; [reflexivity|].
  assert (Heq : parse_diff text =
    (if excluded (Str.split_newline text) then Ok (Diff_init ∅ 0)
     else if minus_before_last (Str.split_newline text)
          then Raise AttributeError
          else Ok (Diff_init ∅ (size_metric (Str.split_newline text))))).
  { unfold parse_diff, parse_diff_nosplit.
    destruct (excluded (Str.split_newline text)); [reflexivity|].
    destruct (minus_before_last (Str.split_newline text)) eqn:Hminus.
    - destruct (minus_before_last_split _ Hpair Hminus)
        as (pre & minus & next & rest & g & -> & Hno & Hm & Hp).
      rewrite (file_loop_segment _ _ _ _ _ Hno Hm), Hp. reflexivity.
    - rewrite (file_loop_no_segment _ _ (minus_before_last_false _ Hminus)).
      simpl. rewrite diff_lines_size_metric. reflexivity. }
  split; [exact Heq|]. intros d. rewrite Heq.
  destruct (excluded (Str.split_newline text));
    [|destruct (minus_before_last (Str.split_newline text))];
    try discriminate; intros [= <-]; split; reflexivity.
Qed.

(** A stray hunk header and a minus header on the last line: no file
    segment, and the metric is that of the two lines. *)
Lemma C9_no_file_segment_witness :
  parse_diff "" = Ok (Diff_init ∅ 0) /\
  parse_diff "@@ stray
--- a/foo.c" = Ok (Diff_init ∅ 19) /\
  forall d, parse_diff "@@ stray
--- a/foo.c" = Ok d -> patches d = ∅ /\ affected d = ∅.
Proof.
  exact (C9_no_file_segment "@@ stray
--- a/foo.c" eq_refl).
Defined.

(** ** The affected paths *)

Lemma elem_of_add_affected acc key x :
  x ∈ add_affected acc key <->
  x ∈ acc \/ contributes (fst key) x \/ contributes (snd key) x.
Proof.
  destruct key as [i j]. unfold add_affected, contributes. simpl.
  destruct (Str.contains dev_null i), (Str.contains dev_null j);
    rewrite ?elem_of_union, ?elem_of_singleton; intuition congruence.
Qed.

Lemma elem_of_affected_fold keys : forall acc x,
  x ∈ foldl add_affected acc keys <->
  x ∈ acc \/ exists key, key ∈ keys /\
                (contributes (fst key) x \/ contributes (snd key) x).
Proof.
  induction keys as [|key keys IH]; intros acc x; simpl.
  - split; [auto|]. intros [H|(k & Hk & _)]; [exact H|].
    inversion Hk.
  - rewrite IH, elem_of_add_affected. split.
    + intros [[H|H]|(k & Hk & H)]; auto.
      * right. exists key. split; [left|exact H].
      * right. exists k. split; [right; exact Hk|exact H].
    + intros [H|(k & Hk & H)]; auto.
      apply elem_of_cons in Hk as [->|Hk]; auto.
      right. exists k. auto.
Qed.

Lemma elem_of_affected patches lines x :
  x ∈ affected (Diff_init patches lines) <->
  exists i j, is_Some (patches !! (i, j)) /\
              (contributes i x \/ contributes j x).
Proof.
  unfold Diff_init, affected_of_keys. simpl.
  rewrite elem_of_affected_fold. split.
  - intros [H|([i j] & Hk & H)]; [set_solver|].
    exists i, j. split; [|exact H].
    apply list_elem_of_fmap in Hk as ([k v] & Hkv & Hin). simpl in Hkv. subst k.
    apply elem_of_map_to_list in Hin. rewrite Hin. eauto.
  - intros (i & j & [v Hv] & H). right. exists (i, j). split; [|exact H].
    apply list_elem_of_fmap. exists ((i, j), v). split; [reflexivity|].
    apply elem_of_map_to_list. exact Hv.
Qed.

(** C8, as the spec states it, fails: the paths of this diff are not the
    null device, yet they put nothing into [affected]. *)
Lemma C8_dev_null_substring :
  exists d,
    parse_diff "--- a/x/dev/null
+++ b/x/dev/null
@@ -1 +1 @@
-a
+b" = Ok d /\
    is_Some (patches d !! ("a/x/dev/null", "b/x/dev/null")) /\
    "a/x/dev/null" <> "/dev/null" /\ "b/x/dev/null" <> "/dev/null" /\
    "x/dev/null" ∉ affected d.
Proof.
  exists (Diff_init {[ ("a/x/dev/null", "b/x/dev/null") :=
                         {[ "" := mkHunk ["b"] ["a"] [] ]} ]} 47).
  split; [vm_compute; reflexivity|].
  split; [simpl; rewrite lookup_singleton_eq; eauto|].
  split; [discriminate|]. split; [discriminate|].
  rewrite elem_of_affected. intros (i & j & [v Hv] & H).
  apply lookup_singleton_Some in Hv as [[= <- <-] _].
  destruct H as [[H _]|[H _]]; vm_compute in H; discriminate.
Qed.

(** A stripped prefix was there. *)
Lemma strip_prefix_Some p : forall s r,
  Str.strip_prefix p s = Some r -> s = p +:+ r.
Proof.
  induction p as [|a p IH]; intros s r; simpl.
  - intros [= ->]. reflexivity.
  - destruct s as [|b s]; [discriminate|].
    destruct (Ascii.eqb_spec a b) as [->|]; [|discriminate].
    intros H. rewrite (IH _ _ H). reflexivity.
Qed.

(** Stripping the prefix is what the slice does to a path that has one. *)
Lemma strip_ab_drop2 path p : strip_ab path = Some p -> Str.drop2 path = p.
Proof.
  unfold strip_ab. intros H.
  destruct (Str.strip_prefix "a/" path) as [q|] eqn:Ha.
  - injection H as <-. apply strip_prefix_Some in Ha. subst path. reflexivity.
  - apply strip_prefix_Some in H. subst path. reflexivity.
Qed.

(** C8 (amended): for every key pair of the patches mapping, [affected]
    contains each of the two paths with its conventional [a/] or [b/]
    prefix stripped, except that a path in which the text [/dev/null]
    occurs, the null device itself among them, contributes nothing: every
    path of [affected] comes from a path of a key in which that text does
    not occur, and is that path with its prefix stripped when it has one.
    In particular the key [/dev/null], [b/new.c] alone gives exactly
    [new.c]. *)
Theorem C8_affected_paths (patches : gmap (string * string) (gmap string Hunk))
    (lines : nat) :
  (forall i j path,
     is_Some (patches !! (i, j)) ->
     (strip_ab i = Some path /\ Str.contains "/dev/null" i = false) \/
     (strip_ab j = Some path /\ Str.contains "/dev/null" j = false) ->
     path ∈ affected (Diff_init patches lines)) /\
  (forall x,
     x ∈ affected (Diff_init patches lines) ->
     exists i j side,
       is_Some (patches !! (i, j)) /\ (side = i \/ side = j) /\
       Str.contains "/dev/null" side = false /\
       forall path, strip_ab side = Some path -> x = path) /\
  (forall hunks : gmap string Hunk,
     affected (Diff_init {[ ("/dev/null", "b/new.c") := hunks ]} lines)
     = {[ "new.c" ]}).
Proof.
  split; [|split].
  - intros i j path Hin Hpath. apply elem_of_affected.
    exists i, j. split; [exact Hin|]. unfold contributes.
    destruct Hpath as [[Hs Hnull] | [Hs Hnull]]; [left|right];
      (split; [exact Hnull|symmetry; apply (strip_ab_drop2 _ _ Hs)]).
  - intros x Hx. apply elem_of_affected in Hx as (i & j & Hin & H).
    exists i, j.
    destruct H as [[Hnull ->]|[Hnull ->]]; [exists i|exists j];
      (split; [exact Hin|]); (split; [auto|]); (split; [exact Hnull|]);
      intros path Hs; apply (strip_ab_drop2 _ _ Hs).
  - intros hunks. apply set_eq. intros x. rewrite elem_of_affected.
    rewrite elem_of_singleton. split.
    + intros (i & j & [v Hv] & H).
      apply lookup_singleton_Some in Hv as [[= <- <-] _].
      destruct H as [[H Hx]|[H Hx]]; [vm_compute in H; discriminate|].
      exact Hx.
    + intros ->. exists "/dev/null", "b/new.c". split.
      * rewrite lookup_singleton_eq. eauto.
      * right. split; reflexivity.
Qed.

Lemma C8_affected_paths_witness :
  "foo.c" ∈ affected (Diff_init {[ ("a/foo.c", "b/foo.c") := ∅ ]} 0).
Proof.
  apply (proj1 (C8_affected_paths {[ ("a/foo.c", "b/foo.c") := ∅ ]} 0)
           "a/foo.c" "b/foo.c" "foo.c").
  - rewrite lookup_singleton_eq. eauto.
  - left. split; reflexivity.
Defined.

(** ** Hunks that share a heading *)

Lemma record_all_app patches hs hs' :
  record_all patches (hs ++ hs') = record_all (record_all patches hs) hs'.
Proof. apply foldl_app. Qed.

(** The parser stores exactly the hunks of the list, in that order. *)
Lemma hunk_loop_fuel_list fuel : forall patches idx diff,
  hunk_loop_fuel fuel patches idx diff =
  (r <- hunk_list_fuel fuel idx diff ;;
   let '(hs, rest) := r in Ok (record_all patches hs, rest)).
Proof.
  induction fuel as [|fuel IH]; intros patches idx [|header diff1]; simpl;
    try reflexivity.
  - destruct (Re.HUNK header); reflexivity.
  - destruct (Re.HUNK header) as [hunk|]; [|reflexivity].
    destruct_counts hunk.
    destruct (body_loop _ _ body_init diff1) as [[st diff2]| |]; simpl;
      try reflexivity.
    rewrite IH.
    destruct (hunk_list_fuel fuel idx diff2) as [[hs diff3]| |]; reflexivity.
Qed.

Lemma file_loop_fuel_list fuel : forall patches diff,
  file_loop_fuel fuel patches diff =
  (hs <- file_list_fuel fuel diff ;; Ok (record_all patches hs)).
Proof.
  induction fuel as [|fuel IH]; intros patches [|first diff0]; simpl;
    try reflexivity.
  destruct (seek_minus first diff0) as [minus [|plus_line diff2]];
    [reflexivity|].
  destruct (group_1 (Re.FILE_SEPARATOR_MINUS minus)) as [m| |]; simpl;
    try reflexivity.
  destruct (group_1 (Re.FILE_SEPARATOR_PLUS plus_line)) as [p| |]; simpl;
    try reflexivity.
  unfold hunk_loop, hunk_list. rewrite hunk_loop_fuel_list.
  destruct (hunk_list_fuel (length diff2) (m, p) diff2) as [[hs diff3]| |];
    simpl; try reflexivity.
  rewrite IH.
  destruct (file_list_fuel fuel diff3) as [hs'| |]; simpl; try reflexivity.
  rewrite record_all_app. reflexivity.
Qed.

Lemma lookup_hunk_record_eq patches idx heading h :
  lookup_hunk (record_hunk patches idx heading h) idx heading =
  Some (merge (default Hunk_empty (lookup_hunk patches idx heading)) h).
Proof.
  unfold lookup_hunk, record_hunk. rewrite lookup_insert_eq, lookup_insert_eq.
  destruct (patches !! idx) as [hunks|] eqn:Hidx.
  - rewrite Hidx. simpl.
    destruct (hunks !! heading) as [h0|] eqn:Hh.
    + rewrite Hh. reflexivity.
    + rewrite lookup_insert_eq. reflexivity.
  - rewrite lookup_insert_eq. simpl. rewrite lookup_empty, lookup_insert_eq.
    reflexivity.
Qed.

Lemma lookup_hunk_record_ne patches idx heading h idx' heading' :
  (idx, heading) <> (idx', heading') ->
  lookup_hunk (record_hunk patches idx heading h) idx' heading' =
  lookup_hunk patches idx' heading'.
Proof.
  intros Hne. unfold lookup_hunk, record_hunk.
  destruct (decide (idx = idx')) as [<-|Hidx].
  - assert (Hh : heading <> heading') by congruence.
    rewrite lookup_insert_eq, (lookup_insert_ne _ _ _ _ Hh).
    destruct (patches !! idx) as [hunks|] eqn:Hp.
    + rewrite Hp. simpl.
      destruct (hunks !! heading); [reflexivity|].
      apply lookup_insert_ne. exact Hh.
    + rewrite lookup_insert_eq. simpl. rewrite lookup_empty.
      rewrite (lookup_insert_ne _ _ _ _ Hh). apply lookup_empty.
  - rewrite (lookup_insert_ne _ _ _ _ Hidx).
    destruct (patches !! idx); [reflexivity|].
    rewrite (lookup_insert_ne _ _ _ _ Hidx). reflexivity.
Qed.

Lemma merge_assoc a b c : merge (merge a b) c = merge a (merge b c).
Proof. unfold merge. simpl. rewrite <- !app_assoc. reflexivity. Qed.

Lemma concat_hunks_cons h hs : concat_hunks (h :: hs) = merge h (concat_hunks hs).
Proof. reflexivity. Qed.

Lemma lookup_hunk_record_all idx heading : forall hs patches,
  lookup_hunk (record_all patches hs) idx heading =
  match hunks_in_slot idx heading hs with
  | [] => lookup_hunk patches idx heading
  | same =>
      Some (merge (default Hunk_empty (lookup_hunk patches idx heading))
              (concat_hunks same))
  end.
Proof.
  induction hs as [|[[i hd] h] hs IH]; intros patches; [reflexivity|].
  change (record_all patches ((i, hd, h) :: hs))
    with (record_all (record_hunk patches i hd h) hs).
  rewrite IH. unfold hunks_in_slot. simpl. unfold in_slot at 2. simpl.
  destruct (bool_decide_reflect ((i, hd) = (idx, heading))) as [[= -> ->]|Hne].
  - rewrite lookup_hunk_record_eq. simpl.
    fold (hunks_in_slot idx heading hs).
    destruct (hunks_in_slot idx heading hs) as [|h1 same].
    + unfold concat_hunks, merge. simpl. rewrite !app_nil_r. reflexivity.
    + rewrite (concat_hunks_cons h (h1 :: same)), merge_assoc. reflexivity.
  - rewrite (lookup_hunk_record_ne _ _ _ _ _ _ Hne). reflexivity.
Qed.

(** The parse is the list of hunks stored one after the other: storing
    cannot fail, so a repeated heading is never a reason to raise. *)
Lemma parse_diff_nosplit_stores diff :
  parse_diff_nosplit diff =
  (hs <- parsed_hunks diff ;;
   Ok (Diff_init (record_all ∅ hs)
         (if excluded diff then 0 else diff_lines diff))).
Proof.
  unfold parse_diff_nosplit, parsed_hunks, file_loop.
  destruct (excluded diff); [reflexivity|].
  rewrite file_loop_fuel_list.
  destruct (file_list_fuel (length diff) diff); reflexivity.
Qed.

Lemma lookup_hunk_stored idx heading hs :
  lookup_hunk (record_all ∅ hs) idx heading =
  match hunks_in_slot idx heading hs with
  | [] => None
  | same => Some (concat_hunks same)
  end.
Proof.
  rewrite lookup_hunk_record_all.
  destruct (hunks_in_slot idx heading hs) as [|h same]; [reflexivity|].
  unfold lookup_hunk. rewrite lookup_empty. simpl.
  rewrite merge_empty_l. reflexivity.
Qed.

(** C7: the parse stores the hunks it builds one after the other, and
    storing never fails; so whenever it returns a Diff, each key and heading
    under which the parser met hunks, were it two or more, is mapped to one
    Hunk, and its insertions, deletions and context are the concatenations
    of those of the hunks met under that key and heading, in the order they
    were met; a key and heading under which it met none has no entry. *)
Theorem C7_same_heading_merged text :
  parse_diff text =
    (hs <- parsed_hunks (Str.split_newline text) ;;
     Ok (Diff_init (record_all ∅ hs)
           (if excluded (Str.split_newline text) then 0
            else diff_lines (Str.split_newline text)))) /\
  forall d,
    parse_diff text = Ok d ->
    exists hs,
      parsed_hunks (Str.split_newline text) = Ok hs /\
      forall idx heading,
        lookup_hunk (patches d) idx heading =
        match hunks_in_slot idx heading hs with
        | [] => None
        | same => Some (concat_hunks same)
        end.
Proof.
  unfold parse_diff. split; [apply parse_diff_nosplit_stores|].
  intros d. rewrite parse_diff_nosplit_stores.
  destruct (parsed_hunks (Str.split_newline text)) as [hs| |];
    simpl; try discriminate.
  intros [= <-]. exists hs. split; [reflexivity|]. intros idx heading.
  simpl. apply lookup_hunk_stored.
Qed.

Lemma C7_same_heading_merged_witness :
  exists hs,
    parsed_hunks (Str.split_newline split_hunk_example) = Ok hs /\
    forall idx heading,
      lookup_hunk
        {[ ("a/x", "b/x") :=
             {[ "" := mkHunk ["deux"; "quatre"] ["two"; "four"]
                        ["one"; "three"] ]} ]} idx heading =
      match hunks_in_slot idx heading hs with
      | [] => None
      | same => Some (concat_hunks same)
      end.
Proof.
  assert (H : parse_diff split_hunk_example =
              Ok (Diff_init
                    {[ ("a/x", "b/x") :=
                         {[ "" := mkHunk ["deux"; "quatre"] ["two"; "four"]
                                    ["one"; "three"] ]} ]} 65))
    by (vm_compute; reflexivity).
  exact (proj2 (C7_same_heading_merged _) _ H).
Defined.

(** The two hunks of the example, as the parser lists them. *)
Example split_hunk_list :
  parsed_hunks (Str.split_newline split_hunk_example) =
  Ok [ (("a/x", "b/x"), "", mkHunk ["deux"] ["two"] ["one"]);
       (("a/x", "b/x"), "", mkHunk ["quatre"] ["four"] ["three"]) ].
Proof. vm_compute. reflexivity. Qed.

(** * Further properties of the parser *)

(** ** What a hunk body leaves in the Hunk *)

Lemma filter_None_app xs ys :
  filter_None (xs ++ ys) = filter_None xs ++ filter_None ys.
Proof. apply List.filter_app. Qed.

Lemma payloads_of_cons c line body :
  payloads_of c (line :: body) =
  (if Ascii.eqb (fst (identify line)) c then [snd (identify line)] else [])
  ++ payloads_of c body.
Proof.
  unfold payloads_of. simpl.
  destruct (Ascii.eqb (fst (identify line)) c); reflexivity.
Qed.

(** The three raw sequences after one line. *)
Lemma account_sequences st line :
  b_insertions (account st line) = b_insertions st ++ payloads_of "+" [line] /\
  b_deletions (account st line) = b_deletions st ++ payloads_of "-" [line] /\
  b_context (account st line) = b_context st ++ payloads_of " " [line].
Proof.
  unfold account, payloads_of. simpl.
  destruct (identify line) as [c payload] eqn:Hid. simpl.
  unfold LINE_IDENTIFIER_INSERTION, LINE_IDENTIFIER_DELETION,
    LINE_IDENTIFIER_CONTEXT, LINE_IDENTIFIER_NEWLINE.
  destruct (Ascii.eqb_spec c "+"%char) as [->|Hp]; simpl;
    [rewrite Hid, !app_nil_r; auto|].
  destruct (Ascii.eqb_spec c "-"%char) as [->|Hd]; simpl;
    [rewrite Hid, !app_nil_r; auto|].
  destruct (Ascii.eqb_spec c " "%char) as [->|Hc]; simpl;
    [rewrite Hid, !app_nil_r; auto|].
  destruct (negb (Ascii.eqb c "\"%char)); simpl; rewrite !app_nil_r; auto.
Qed.

Lemma account_all_sequences body : forall st,
  b_insertions (account_all st body) = b_insertions st ++ payloads_of "+" body /\
  b_deletions (account_all st body) = b_deletions st ++ payloads_of "-" body /\
  b_context (account_all st body) = b_context st ++ payloads_of " " body.
Proof.
  induction body as [|line body IH]; intros st.
  - unfold payloads_of. simpl. rewrite !app_nil_r. auto.
  - change (account_all st (line :: body))
      with (account_all (account st line) body).
    destruct (IH (account st line)) as (I1 & I2 & I3).
    destruct (account_sequences st line) as (A1 & A2 & A3).
    rewrite I1, I2, I3, A1, A2, A3.
    rewrite (payloads_of_cons "+" line body), (payloads_of_cons "-" line body),
      (payloads_of_cons " " line body).
    unfold payloads_of. simpl.
    destruct (Ascii.eqb (fst (identify line)) "+");
      destruct (Ascii.eqb (fst (identify line)) "-");
      destruct (Ascii.eqb (fst (identify line)) " ");
      simpl; rewrite <- ?app_assoc; auto.
Qed.

(** X1: when the body loop ends normally it has popped a prefix of the
    lines, and the Hunk built from it holds, in each of its three sequences,
    the payloads of the popped lines of that class in input order with the
    empty payloads removed (an empty line being a context line with an
    empty payload). *)
Theorem body_loop_hunk_contents l_lines r_lines diff st rest :
  body_loop l_lines r_lines body_init diff = Ok (st, rest) ->
  exists used,
    diff = used ++ rest /\
    hunk_of_body st =
      {| insertions := filter_None (payloads_of "+" used);
         deletions := filter_None (payloads_of "-" used);
         context := filter_None (payloads_of " " used) |}.
Proof.
  intros H. destruct (body_loop_Ok _ _ _ _ _ _ H) as (used & Hd & -> & _).
  exists used. split; [exact Hd|].
  destruct (account_all_sequences used body_init) as (I1 & I2 & I3).
  unfold hunk_of_body. rewrite I1, I2, I3. reflexivity.
Qed.

Lemma body_loop_hunk_contents_witness :
  exists used,
    [" one"; ""; "-two"; "+deux"; "+"; "tail"] = used ++ ["tail"] /\
    hunk_of_body (account_all body_init [" one"; ""; "-two"; "+deux"; "+"]) =
      {| insertions := filter_None (payloads_of "+" used);
         deletions := filter_None (payloads_of "-" used);
         context := filter_None (payloads_of " " used) |}.
Proof.
  apply (body_loop_hunk_contents 3 4 [" one"; ""; "-two"; "+deux"; "+"; "tail"]
           (account_all body_init [" one"; ""; "-two"; "+deux"; "+"]) ["tail"]).
  reflexivity.
Defined.

(** X2: an empty line inside a hunk body is read as a context line: the
    loop pops it, both counters advance by one, and the Hunk that will be
    built is the same as without it.  Popped: the loop goes on with the
    lines after it and the advanced counters, so that when the empty line
    completes the hunk the loop returns with exactly the lines after it
    left, and when it is the last line of the input and does not complete
    the hunk the loop pops from the emptied list. *)
Theorem empty_line_is_blank_context st :
  del_cntr (account st "") = del_cntr st + 1 /\
  add_cntr (account st "") = add_cntr st + 1 /\
  hunk_of_body (account st "") = hunk_of_body st /\
  forall l_lines r_lines,
    satisfied l_lines r_lines st = false ->
    (forall diff,
       body_loop l_lines r_lines st ("" :: diff) =
       body_loop l_lines r_lines (account st "") diff) /\
    (satisfied l_lines r_lines (account st "") = true ->
     forall rest,
       body_loop l_lines r_lines st ("" :: rest) = Ok (account st "", rest)) /\
    (satisfied l_lines r_lines (account st "") = false ->
     body_loop l_lines r_lines st [""] = Raise IndexError).
Proof.
  split; [reflexivity|]. split; [reflexivity|]. split.
  - unfold hunk_of_body. simpl. rewrite filter_None_app. simpl.
    rewrite app_nil_r. reflexivity.
  - intros l r H. split; [|split].
    + intros diff. apply (body_loop_pop _ _ _ _ _ H).
    + intros H' rest. apply (body_loop_last _ _ _ _ _ H H').
    + intros H'. rewrite (body_loop_pop _ _ _ _ _ H).
      apply (body_loop_empty _ _ _ H').
Qed.

Lemma empty_line_is_blank_context_witness :
  body_loop 1 1 body_init [""; " x"] = Ok (account body_init "", [" x"]) /\
  body_loop 2 2 body_init [""] = Raise IndexError.
Proof.
  pose proof (proj2 (proj2 (proj2 (empty_line_is_blank_context body_init))))
    as Hloop.
  split.
  - apply (proj1 (proj2 (Hloop 1 1 eq_refl))). reflexivity.
  - apply (proj2 (proj2 (Hloop 2 2 eq_refl))). reflexivity.
Defined.

(** The counters never go down. *)
Lemma account_counters_grow st line :
  del_cntr st <= del_cntr (account st line) /\
  add_cntr st <= add_cntr (account st line).
Proof.
  unfold account. destruct (identify line) as [c payload].
  destruct (Ascii.eqb c LINE_IDENTIFIER_INSERTION); simpl; [lia|].
  destruct (Ascii.eqb c LINE_IDENTIFIER_DELETION); simpl; [lia|].
  destruct (Ascii.eqb c LINE_IDENTIFIER_CONTEXT); simpl; [lia|].
  destruct (negb (Ascii.eqb c LINE_IDENTIFIER_NEWLINE)); simpl; lia.
Qed.

(** X3: the declared counts are not checked against the lines: once a
    counter has passed its target the loop can no longer stop, it pops every
    remaining line and fails with the [IndexError] of [pop(0)]. *)
Theorem body_loop_overshoot l_lines r_lines diff : forall st,
  l_lines < del_cntr st \/ r_lines < add_cntr st ->
  body_loop l_lines r_lines st diff = Raise IndexError.
Proof.
  induction diff as [|line diff IH]; intros st Hover;
    assert (Hs : satisfied l_lines r_lines st = false)
      by (unfold satisfied; apply andb_false_iff;
          destruct Hover; [left|right]; apply Nat.eqb_neq; lia).
  - simpl. rewrite Hs. reflexivity.
  - rewrite (body_loop_pop _ _ _ _ _ Hs). apply IH.
    destruct (account_counters_grow st line). lia.
Qed.

Lemma body_loop_overshoot_witness :
  body_loop 0 1 (account body_init " context") ["+a"; "+b"; "-c"] = Raise IndexError.
Proof.
  apply (body_loop_overshoot 0 1 ["+a"; "+b"; "-c"] (account body_init " context")).
  left. simpl. lia.
Defined.



(** ** Where the stored hunks come from *)

Lemma filter_None_no_blank xs : no_blank (filter_None xs).
Proof.
  unfold no_blank, filter_None. induction xs as [|x xs IH]; simpl.
  - constructor.
  - destruct x; simpl; [exact IH|]. constructor; [discriminate|exact IH].
Qed.

Lemma hunk_of_body_clean st : clean_hunk (hunk_of_body st).
Proof. repeat split; apply filter_None_no_blank. Qed.

Lemma no_blank_app xs ys : no_blank xs -> no_blank ys -> no_blank (xs ++ ys).
Proof. unfold no_blank. intros. apply Forall_app. auto. Qed.

Lemma concat_hunks_clean hs :
  Forall clean_hunk hs -> clean_hunk (concat_hunks hs).
Proof.
  induction 1 as [|h hs (Hi & Hd & Hc) _ (Ii & Id & Ic)].
  - repeat split; constructor.
  - repeat split; simpl; apply no_blank_app; assumption.
Qed.

Lemma seek_minus_split diff0 : forall first minus diff1,
  seek_minus first diff0 = (minus, diff1) ->
  exists pre, first :: diff0 = pre ++ minus :: diff1 /\ no_minus pre.
Proof.
  induction diff0 as [|l diff0 IH]; intros first minus diff1; simpl.
  - destruct (Re.FILE_SEPARATOR_MINUS first); intros [= <- <-];
      exists []; split; auto; constructor.
  - destruct (Re.FILE_SEPARATOR_MINUS first) eqn:Hf.
    + intros [= <- <-]. exists []. split; auto. constructor.
    + intros H. destruct (IH _ _ _ H) as (pre & Hpre & Hno).
      exists (first :: pre). split; [simpl; congruence|].
      constructor; assumption.
Qed.

(** What the hunk loop lists: hunks stored under the key of the segment,
    each with the heading of a header of the input and with clean
    sequences; the lines left are a suffix of the input. *)
Lemma hunk_list_fuel_from fuel : forall idx diff hs rest,
  hunk_list_fuel fuel idx diff = Ok (hs, rest) ->
  (exists used, diff = used ++ rest) /\
  Forall (fun ph =>
            fst (fst ph) = idx /\
            (exists header hunk,
               In header diff /\ Re.HUNK header = Some hunk /\
               snd (fst ph) = Re.group5 hunk) /\
            clean_hunk (snd ph)) hs.
Proof.
  induction fuel as [|fuel IH]; intros idx [|header diff1] hs rest; simpl.
  - intros [= <- <-]. split; [exists []; reflexivity|constructor].
  - destruct (Re.HUNK header); [discriminate|].
    intros [= <- <-]. split; [exists []; reflexivity|constructor].
  - intros [= <- <-]. split; [exists []; reflexivity|constructor].
  - destruct (Re.HUNK header) as [hunk|] eqn:Hh.
    2:{ intros [= <- <-]. split; [exists []; reflexivity|constructor]. }
    destruct_counts hunk.
    destruct (body_loop _ _ body_init diff1) as [[st diff2]| |] eqn:Hb;
      simpl; try discriminate.
    destruct (hunk_list_fuel fuel idx diff2) as [[hs' diff3]| |] eqn:Hl;
      simpl; try discriminate.
    intros [= <- <-].
    destruct (body_loop_Ok _ _ _ _ _ _ Hb) as (used1 & -> & _).
    destruct (IH _ _ _ _ Hl) as ((used2 & ->) & Hall).
    split.
    + exists (header :: used1 ++ used2). simpl. rewrite <- app_assoc.
      reflexivity.
    + constructor.
      * simpl. split; [reflexivity|]. split; [|apply hunk_of_body_clean].
        exists header, hunk. simpl. auto.
      * eapply List.Forall_impl; [|exact Hall].
        intros ph (Hk & (hd & hk & Hin & Hm & Hg) & Hc).
        split; [exact Hk|]. split; [|exact Hc].
        exists hd, hk. split; [|auto]. right. apply in_or_app. right.
        exact Hin.
Qed.

Lemma from_input_suffix used diff ph :
  from_input diff ph -> from_input (used ++ diff) ph.
Proof.
  intros ((pre & m & p & post & -> & Hm & Hp) & (hd & hk & Hin & Hh & Hg) & Hc).
  split; [|split; [|exact Hc]].
  - exists (used ++ pre), m, p, post. rewrite <- app_assoc. auto.
  - exists hd, hk. split; [apply in_or_app; right; exact Hin|auto].
Qed.

(** Every hunk the parser lists comes from the input. *)
Lemma file_list_fuel_from fuel : forall diff hs,
  file_list_fuel fuel diff = Ok hs -> Forall (from_input diff) hs.
Proof.
  induction fuel as [|fuel IH]; intros [|first diff0] hs; simpl;
    try (intros [= <-]; constructor); try discriminate.
  destruct (seek_minus first diff0) as [minus diff1] eqn:Hs.
  destruct (seek_minus_split _ _ _ _ Hs) as (pre & Hpre & _).
  destruct diff1 as [|plus_line diff2]; [intros [= <-]; constructor|].
  destruct (Re.FILE_SEPARATOR_MINUS minus) as [m|] eqn:Hm; simpl;
    try discriminate.
  destruct (Re.FILE_SEPARATOR_PLUS plus_line) as [p|] eqn:Hp; simpl;
    try discriminate.
  destruct (hunk_list (m, p) diff2) as [[hs1 diff3]| |] eqn:Hl; simpl;
    try discriminate.
  destruct (file_list_fuel fuel diff3) as [hs2| |] eqn:Hf; simpl;
    try discriminate.
  intros [= <-]. rewrite Hpre.
  destruct (hunk_list_fuel_from _ _ _ _ _ Hl) as ((used & ->) & Hall).
  apply Forall_app. split.
  - eapply List.Forall_impl; [|exact Hall].
    intros [[k heading] h] (Hk & (hd & hk & Hin & Hh & Hg) & Hc).
    simpl in *. subst k. split; [|split; [|exact Hc]].
    + exists pre, minus, plus_line, (used ++ diff3). simpl. auto.
    + exists hd, hk. split; [|auto]. apply in_or_app. right. right. right.
      exact Hin.
  - eapply List.Forall_impl; [|exact (IH _ _ Hf)].
    intros ph Hph.
    apply (from_input_suffix (pre ++ minus :: plus_line :: used) diff3 ph) in Hph.
    rewrite <- app_assoc in Hph. simpl in Hph. exact Hph.
Qed.

Lemma parsed_hunks_from diff hs :
  parsed_hunks diff = Ok hs -> Forall (from_input diff) hs.
Proof.
  unfold parsed_hunks. destruct (excluded diff).
  - intros [= <-]. constructor.
  - apply file_list_fuel_from.
Qed.

Lemma hunks_in_slot_In idx heading hs h :
  In h (hunks_in_slot idx heading hs) <-> In (idx, heading, h) hs.
Proof.
  unfold hunks_in_slot. rewrite in_map_iff. split.
  - intros ([[k hd] h'] & <- & Hin). apply filter_In in Hin as [Hin Hs].
    unfold in_slot in Hs. apply bool_decide_eq_true in Hs. simpl in Hs.
    injection Hs as -> ->. exact Hin.
  - intros Hin. exists (idx, heading, h). split; [reflexivity|].
    apply filter_In. split; [exact Hin|].
    unfold in_slot. apply bool_decide_eq_true. reflexivity.
Qed.

(** What a successful parse stores under a key and a heading. *)
Lemma parse_diff_lookup text d :
  parse_diff text = Ok d ->
  exists hs,
    parsed_hunks (Str.split_newline text) = Ok hs /\
    forall idx heading,
      lookup_hunk (patches d) idx heading =
      match hunks_in_slot idx heading hs with
      | [] => None
      | same => Some (concat_hunks same)
      end.
Proof.
  unfold parse_diff. rewrite parse_diff_nosplit_stores.
  destruct (parsed_hunks (Str.split_newline text)) as [hs| |];
    simpl; try discriminate.
  intros [= <-]. exists hs. split; [reflexivity|]. intros idx heading.
  simpl. apply lookup_hunk_stored.
Qed.

(** X5: no Hunk of a parsed Diff holds an empty string: the blank payloads
    are filtered out of every hunk and merging keeps it so. *)
Theorem parsed_hunks_hold_no_blank text d idx heading h :
  parse_diff text = Ok d ->
  lookup_hunk (patches d) idx heading = Some h ->
  ~ In "" (insertions h) /\ ~ In "" (deletions h) /\ ~ In "" (context h).
Proof.
  intros Hp Hl. destruct (parse_diff_lookup _ _ Hp) as (hs & Hhs & Hlook).
  rewrite Hlook in Hl.
  assert (Hclean : clean_hunk h).
  { destruct (hunks_in_slot idx heading hs) as [|h1 same] eqn:Hslot;
      [discriminate|]. injection Hl as <-. apply concat_hunks_clean.
    apply List.Forall_forall. intros h' Hin. rewrite <- Hslot in Hin.
    apply hunks_in_slot_In in Hin.
    pose proof (parsed_hunks_from _ _ Hhs) as Hall.
    rewrite List.Forall_forall in Hall. apply (Hall _ Hin). }
  destruct Hclean as (Hi & Hd & Hc). unfold no_blank in *.
  rewrite List.Forall_forall in Hi, Hd, Hc.
  repeat split; intros Hin; [apply (Hi _ Hin)|apply (Hd _ Hin)|apply (Hc _ Hin)];
    reflexivity.
Qed.

Lemma parsed_hunks_hold_no_blank_witness :
  ~ In "" ([] : list string) /\ ~ In "" ["two"] /\ ~ In "" ["one"].
Proof.
  apply (parsed_hunks_hold_no_blank
           "--- a/x
+++ b/x
@@ -1,3 +1,3 @@
 one

-two
+"
           (Diff_init {[ ("a/x", "b/x") := {[ "" := mkHunk [] ["two"] ["one"] ]} ]} 34)
           ("a/x", "b/x") "" (mkHunk [] ["two"] ["one"])).
  - vm_compute. reflexivity.
  - vm_compute. reflexivity.
Defined.

(** ** The keys of the patches mapping *)

Lemma record_hunk_no_empty_entry patches idx heading h :
  no_empty_entry patches -> no_empty_entry (record_hunk patches idx heading h).
Proof.
  intros Hinv k hunks. unfold record_hunk.
  destruct (decide (idx = k)) as [<-|Hne].
  - rewrite lookup_insert_eq. intros [= <-]. exists heading.
    rewrite lookup_insert_eq. eauto.
  - rewrite (lookup_insert_ne _ _ _ _ Hne).
    destruct (patches !! idx); [apply Hinv|].
    rewrite (lookup_insert_ne _ _ _ _ Hne). apply Hinv.
Qed.

Lemma record_all_no_empty_entry hs : forall patches,
  no_empty_entry patches -> no_empty_entry (record_all patches hs).
Proof.
  induction hs as [|[[idx heading] h] hs IH]; intros patches Hinv;
    [exact Hinv|].
  apply (IH (record_hunk patches idx heading h)).
  apply record_hunk_no_empty_entry. exact Hinv.
Qed.

Lemma parse_diff_no_empty_entry text d :
  parse_diff text = Ok d -> no_empty_entry (patches d).
Proof.
  unfold parse_diff. rewrite parse_diff_nosplit_stores.
  destruct (parsed_hunks (Str.split_newline text)) as [hs| |];
    simpl; try discriminate.
  intros [= <-]. simpl. apply record_all_no_empty_entry.
  intros idx hunks. rewrite lookup_empty. discriminate.
Qed.

(** A key of a parsed Diff has a hunk that the parser listed under it. *)
Lemma parse_diff_key_hunk text d hs idx :
  parse_diff text = Ok d ->
  parsed_hunks (Str.split_newline text) = Ok hs ->
  is_Some (patches d !! idx) ->
  exists heading h, In (idx, heading, h) hs.
Proof.
  intros Hp Hhs [hunks Hk].
  destruct (parse_diff_lookup _ _ Hp) as (hs' & Hhs' & Hlook).
  assert (hs' = hs) by congruence. subst hs'.
  destruct (parse_diff_no_empty_entry _ _ Hp _ _ Hk) as (heading & h & Hh).
  assert (Hl : lookup_hunk (patches d) idx heading = Some h)
    by (unfold lookup_hunk; rewrite Hk; exact Hh).
  rewrite Hlook in Hl.
  destruct (hunks_in_slot idx heading hs) as [|h1 same] eqn:Hslot;
    [discriminate|].
  exists heading, h1. apply hunks_in_slot_In. rewrite Hslot. left.
  reflexivity.
Qed.

(** X6: the patches mapping of a parsed Diff has a key exactly when the
    parser built at least one hunk under it, and no key maps to an empty
    dictionary; a header pair that no hunk follows leaves no key. *)
Theorem keys_have_hunks text d :
  parse_diff text = Ok d ->
  exists hs,
    parsed_hunks (Str.split_newline text) = Ok hs /\
    forall idx,
      (is_Some (patches d !! idx) <-> exists heading h, In (idx, heading, h) hs) /\
      (forall hunks, patches d !! idx = Some hunks -> hunks <> ∅).
Proof.
  intros Hp. destruct (parse_diff_lookup _ _ Hp) as (hs & Hhs & Hlook).
  exists hs. split; [exact Hhs|]. intros idx. split; [split|].
  - apply (parse_diff_key_hunk _ _ _ _ Hp Hhs).
  - intros (heading & h & Hin). apply hunks_in_slot_In in Hin.
    specialize (Hlook idx heading).
    destruct (hunks_in_slot idx heading hs) as [|h1 same]; [destruct Hin|].
    unfold lookup_hunk in Hlook. destruct (patches d !! idx); [eauto|].
    discriminate.
  - intros hunks Hk ->.
    destruct (parse_diff_no_empty_entry _ _ Hp _ _ Hk) as (heading & h & Hh).
    rewrite lookup_empty in Hh. discriminate.
Qed.

Lemma keys_have_hunks_witness :
  exists hs,
    parsed_hunks (Str.split_newline "--- a/renamed
+++ b/renamed
--- a/x
+++ b/x
@@ -1 +1 @@
-a
+b") = Ok hs /\
    forall idx,
      (is_Some (({[ ("a/x", "b/x") := {[ "" := mkHunk ["b"] ["a"] [] ]} ]}
                  : gmap (string * string) (gmap string Hunk)) !! idx)
       <-> exists heading h, In (idx, heading, h) hs) /\
      (forall hunks,
         ({[ ("a/x", "b/x") := {[ "" := mkHunk ["b"] ["a"] [] ]} ]}
            : gmap (string * string) (gmap string Hunk)) !! idx = Some hunks ->
         hunks <> ∅).
Proof.
  assert (H : parse_diff "--- a/renamed
+++ b/renamed
--- a/x
+++ b/x
@@ -1 +1 @@
-a
+b" = Ok (Diff_init {[ ("a/x", "b/x") := {[ "" := mkHunk ["b"] ["a"] [] ]} ]} 55))
    by (vm_compute; reflexivity).
  exact (keys_have_hunks _ _ H).
Defined.

(** ** The file-header patterns *)

Lemma strip_prefix_app p s : Str.strip_prefix p (p +:+ s) = Some s.
Proof.
  induction p as [|a p IH]; [reflexivity|]. simpl.
  rewrite Ascii.eqb_refl. exact IH.
Qed.

Lemma span_app f a : forall b,
  all_chars f a = true -> stops f b = true -> Str.span f (a +:+ b) = (a, b).
Proof.
  induction a as [|c a IH]; intros b Ha Hb; simpl in *.
  - destruct b as [|c b]; [reflexivity|]. simpl in *.
    destruct (f c); [discriminate|reflexivity].
  - apply andb_true_iff in Ha as [Hc Ha]. rewrite Hc, (IH b Ha Hb).
    reflexivity.
Qed.

Lemma span_Some f s : forall a b,
  Str.span f s = (a, b) ->
  s = a +:+ b /\ all_chars f a = true /\ stops f b = true.
Proof.
  induction s as [|c s IH]; intros a b; simpl.
  - intros [= <- <-]. auto.
  - destruct (f c) eqn:Hc.
    + destruct (Str.span f s) as [a' b'] eqn:Hs. intros [= <- <-].
      destruct (IH _ _ eq_refl) as (-> & Ha & Hb). simpl. rewrite Hc. auto.
    + intros [= <- <-]. simpl. rewrite Hc. auto.
Qed.

Lemma FILE_SEPARATOR_spec header x path :
  Re.FILE_SEPARATOR header x = Some path <->
  exists tail,
    x = header +:+ path +:+ tail /\
    all_chars Re.not_space path = true /\
    stops Re.not_space tail = true /\
    Re.dot_star_dollar tail = true.
Proof.
  unfold Re.FILE_SEPARATOR. split.
  - destruct (Str.strip_prefix header x) as [rest|] eqn:Hs; [|discriminate].
    apply strip_prefix_Some in Hs. subst x.
    destruct (Str.span Re.not_space rest) as [filename tail] eqn:Hspan.
    destruct (span_Some _ _ _ _ Hspan) as (-> & Ha & Hb).
    destruct (Re.dot_star_dollar tail) eqn:Hd; [|discriminate].
    intros [= <-]. exists tail. auto.
  - intros (tail & -> & Ha & Hb & Hd).
    rewrite strip_prefix_app, (span_app _ _ _ Ha Hb), Hd. reflexivity.
Qed.

(** X7: the minus-header pattern matches a line and captures [path]
    exactly when the line is [--- ], then [path], then a tail, where [path]
    has no white space, the tail is empty or begins with a white-space
    character, and the tail holds no line feed except as its last
    character; the plus-header pattern does the same after [+++ ].  So a
    time stamp after a tab is ignored and a path is cut at its first white
    space. *)
Theorem file_header_patterns x path :
  (Re.FILE_SEPARATOR_MINUS x = Some path <->
   exists tail,
     x = "--- " +:+ path +:+ tail /\
     all_chars Re.not_space path = true /\
     stops Re.not_space tail = true /\ Re.dot_star_dollar tail = true) /\
  (Re.FILE_SEPARATOR_PLUS x = Some path <->
   exists tail,
     x = "+++ " +:+ path +:+ tail /\
     all_chars Re.not_space path = true /\
     stops Re.not_space tail = true /\ Re.dot_star_dollar tail = true).
Proof. split; apply FILE_SEPARATOR_spec. Qed.

(** X8: every key of a parsed Diff is read off the input: its old path is
    the capture of a line that matches the minus header, its new path the
    capture of the very next line, which matches the plus header, and
    neither path holds a white-space character. *)
Theorem keys_come_from_headers text d old_path new_path :
  parse_diff text = Ok d ->
  is_Some (patches d !! (old_path, new_path)) ->
  exists pre minus plus_line post,
    Str.split_newline text = pre ++ minus :: plus_line :: post /\
    Re.FILE_SEPARATOR_MINUS minus = Some old_path /\
    Re.FILE_SEPARATOR_PLUS plus_line = Some new_path /\
    all_chars Re.not_space old_path = true /\
    all_chars Re.not_space new_path = true.
Proof.
  intros Hp Hk. destruct (parse_diff_lookup _ _ Hp) as (hs & Hhs & _).
  destruct (parse_diff_key_hunk _ _ _ _ Hp Hhs Hk) as (heading & h & Hin).
  pose proof (parsed_hunks_from _ _ Hhs) as Hall.
  rewrite List.Forall_forall in Hall.
  destruct (Hall _ Hin) as ((pre & m & p & post & Hd & Hm & Hpl) & _).
  simpl in Hm, Hpl. exists pre, m, p, post.
  split; [exact Hd|]. split; [exact Hm|]. split; [exact Hpl|].
  apply FILE_SEPARATOR_spec in Hm as (? & _ & Hm & _).
  apply FILE_SEPARATOR_spec in Hpl as (? & _ & Hpl & _). auto.
Qed.

Lemma keys_come_from_headers_witness :
  exists pre minus plus_line post,
    Str.split_newline "--- a/my file.c
+++ b/my file.c
@@ -1 +1 @@
-a
+b" = pre ++ minus :: plus_line :: post /\
    Re.FILE_SEPARATOR_MINUS minus = Some "a/my" /\
    Re.FILE_SEPARATOR_PLUS plus_line = Some "b/my" /\
    all_chars Re.not_space "a/my" = true /\
    all_chars Re.not_space "b/my" = true.
Proof.
  apply (keys_come_from_headers _
           (Diff_init {[ ("a/my", "b/my") := {[ "" := mkHunk ["b"] ["a"] [] ]} ]} 45)).
  - vm_compute. reflexivity.
  - simpl. rewrite lookup_singleton_eq. eauto.
Defined.

(** ** The hunk-header pattern *)

Lemma span_all f s : all_chars f s = true -> Str.span f s = (s, EmptyString).
Proof.
  induction s as [|c s IH]; simpl; [reflexivity|].
  intros H. apply andb_true_iff in H as [Hc Hs]. rewrite Hc, (IH Hs).
  reflexivity.
Qed.

Lemma digits1_app d rest :
  digit_string d -> stops Str.is_digit rest = true ->
  Re.digits1 (d +:+ rest) = Some (d, rest).
Proof.
  intros [Hd Hne] Hr. unfold Re.digits1. rewrite (span_app _ _ _ Hd Hr).
  destruct d; [congruence|reflexivity].
Qed.

Lemma opt_count_app count rest :
  (forall d, count = Some d -> digit_string d) ->
  Re.opt_count (render_count count +:+ " " +:+ rest) = (count, " " +:+ rest).
Proof.
  intros Hc. destruct count as [d|]; [|reflexivity].
  change (render_count (Some d) +:+ " " +:+ rest)
    with ("," +:+ d +:+ " " +:+ rest).
  unfold Re.opt_count. rewrite strip_prefix_app.
  rewrite (digits1_app d (" " +:+ rest) (Hc d eq_refl) eq_refl). reflexivity.
Qed.

Lemma stops_digit_count count rest :
  stops Str.is_digit (render_count count +:+ " " +:+ rest) = true.
Proof. destruct count; reflexivity. Qed.

(** X9: the hunk-header pattern matches every line written as [@@ -],
    digits, an optional comma and digits, [ +], digits, an optional comma
    and digits, [ @@], with or without a space and a heading after it; the
    groups are the four numbers as written and the heading, so an omitted
    count is read as 1 and a written one as its decimal value. *)
Theorem hunk_header_accepted l_start l_count r_start r_count heading :
  digit_string l_start -> digit_string r_start ->
  (forall d, l_count = Some d -> digit_string d) ->
  (forall d, r_count = Some d -> digit_string d) ->
  all_chars Re.not_newline heading = true ->
  Re.HUNK (render_hunk_header l_start l_count r_start r_count (" " +:+ heading)) =
    Some {| Re.group1 := l_start; Re.group2 := l_count;
            Re.group3 := r_start; Re.group4 := r_count;
            Re.group5 := heading |} /\
  Re.HUNK (render_hunk_header l_start l_count r_start r_count "") =
    Some {| Re.group1 := l_start; Re.group2 := l_count;
            Re.group3 := r_start; Re.group4 := r_count;
            Re.group5 := "" |} /\
  count_of l_count = match l_count with Some d => Str.int d | None => Ok 1 end /\
  count_of r_count = match r_count with Some d => Str.int d | None => Ok 1 end.
Proof.
  intros Ha Hc Hb Hd Hh.
  assert (Hgen : forall t g,
    Str.span Re.not_newline
      (match Str.strip_prefix " " t with Some s => s | None => t end) = (g, "") ->
    Re.HUNK (render_hunk_header l_start l_count r_start r_count t) =
    Some {| Re.group1 := l_start; Re.group2 := l_count;
            Re.group3 := r_start; Re.group4 := r_count; Re.group5 := g |}).
  { intros t g Ht. unfold Re.HUNK, render_hunk_header. rewrite strip_prefix_app.
    change (" +" +:+ r_start +:+ render_count r_count +:+ " @@" +:+ t)
      with (" " +:+ "+" +:+ r_start +:+ render_count r_count +:+ " @@" +:+ t).
    rewrite (digits1_app l_start _ Ha (stops_digit_count l_count _)).
    rewrite (opt_count_app l_count _ Hb).
    change (" " +:+ "+" +:+ r_start +:+ render_count r_count +:+ " @@" +:+ t)
      with (" +" +:+ r_start +:+ render_count r_count +:+ " @@" +:+ t).
    rewrite strip_prefix_app.
    change (" @@" +:+ t) with (" " +:+ "@@" +:+ t).
    rewrite (digits1_app r_start _ Hc (stops_digit_count r_count _)).
    rewrite (opt_count_app r_count _ Hd).
    change (" " +:+ "@@" +:+ t) with (" @@" +:+ t).
    rewrite strip_prefix_app, Ht. reflexivity. }
  split; [|split; [|split; reflexivity]].
  - apply Hgen. simpl. apply (span_all _ _ Hh).
  - apply Hgen. reflexivity.
Qed.

Lemma hunk_header_accepted_witness :
  Re.HUNK "@@ -12,7 +12 @@ static int f(void)" =
    Some {| Re.group1 := "12"; Re.group2 := Some "7";
            Re.group3 := "12"; Re.group4 := None;
            Re.group5 := "static int f(void)" |} /\
  Re.HUNK "@@ -12,7 +12 @@" =
    Some {| Re.group1 := "12"; Re.group2 := Some "7";
            Re.group3 := "12"; Re.group4 := None; Re.group5 := "" |} /\
  count_of (Some "7") = Ok 7 /\ count_of None = Ok 1.
Proof.
  apply (hunk_header_accepted "12" (Some "7") "12" None "static int f(void)").
  - split; [reflexivity|discriminate].
  - split; [reflexivity|discriminate].
  - intros d [= <-]. split; [reflexivity|discriminate].
  - intros d H. discriminate H.
  - reflexivity.
Defined.

(** ** Noise before the first file header *)

Lemma minus_header_not_excluded minus g :
  Re.FILE_SEPARATOR_MINUS minus = Some g -> Re.EXCLUDE_CC minus = false.
Proof.
  intros H. apply FILE_SEPARATOR_spec in H as (tail & -> & _). reflexivity.
Qed.

(** X10: lines in front of the first minus header, such as a mail or a
    commit message, do not change what is parsed: unless the first of them
    is a combined-diff header, the parse has the same outcome, the same
    patches and the same affected paths as the parse of the text that
    starts at the header. *)
Theorem leading_noise_ignored pre minus rest g :
  no_minus pre ->
  Re.FILE_SEPARATOR_MINUS minus = Some g ->
  excluded (pre ++ minus :: rest) = false ->
  outcome_map patches (parse_diff_nosplit (pre ++ minus :: rest)) =
  outcome_map patches (parse_diff_nosplit (minus :: rest)) /\
  outcome_map affected (parse_diff_nosplit (pre ++ minus :: rest)) =
  outcome_map affected (parse_diff_nosplit (minus :: rest)).
Proof.
  intros Hpre Hm Hcc. unfold parse_diff_nosplit. rewrite Hcc.
  simpl excluded. rewrite (minus_header_not_excluded _ _ Hm).
  pose proof (file_loop_segment ∅ [] minus rest g ltac:(constructor) Hm) as H0.
  simpl app in H0. rewrite H0.
  rewrite (file_loop_segment ∅ pre minus rest g Hpre Hm).
  destruct rest as [|plus_line diff2]; [split; reflexivity|].
  destruct (group_1 (Re.FILE_SEPARATOR_PLUS plus_line)) as [p| |]; simpl;
    try (split; reflexivity).
  destruct (hunk_loop ∅ (g, p) diff2) as [[patches' diff3]| |]; simpl;
    try (split; reflexivity).
  destruct (file_loop patches' diff3); simpl; split; reflexivity.
Qed.

Lemma leading_noise_ignored_witness :
  outcome_map patches
    (parse_diff_nosplit ["From: a@b"; "Subject: fix"; ""; "--- a/x"; "+++ b/x";
                         "@@ -1 +1 @@"; "-a"; "+b"]) =
  outcome_map patches
    (parse_diff_nosplit ["--- a/x"; "+++ b/x"; "@@ -1 +1 @@"; "-a"; "+b"]) /\
  outcome_map affected
    (parse_diff_nosplit ["From: a@b"; "Subject: fix"; ""; "--- a/x"; "+++ b/x";
                         "@@ -1 +1 @@"; "-a"; "+b"]) =
  outcome_map affected
    (parse_diff_nosplit ["--- a/x"; "+++ b/x"; "@@ -1 +1 @@"; "-a"; "+b"]).
Proof.
  apply (leading_noise_ignored ["From: a@b"; "Subject: fix"; ""] "--- a/x"
           ["+++ b/x"; "@@ -1 +1 @@"; "-a"; "+b"] "a/x").
  - repeat constructor.
  - reflexivity.
  - reflexivity.
Defined.

(** ** The size metric *)

Lemma split_newline_lengths s :
  list_sum (List.map String.length (Str.split_newline s))
  + length (Str.split_newline s) = S (String.length s).
Proof.
  induction s as [|c s IH]; [reflexivity|]. simpl.
  pose proof (split_newline_not_nil s) as Hne.
  destruct (Ascii.eqb c Str.newline); simpl.
  - lia.
  - destruct (Str.split_newline s) as [|l ls]; [congruence|]. simpl in *. lia.
Qed.

Lemma diff_lines_le ls : diff_lines ls <= list_sum (List.map String.length ls).
Proof.
  unfold diff_lines. induction ls as [|l ls IH]; simpl; [lia|].
  destruct (Re.DIFF_SELECTOR l); simpl; lia.
Qed.

(** X11: the size metric of a parsed Diff never exceeds the number of
    characters of the text. *)
Theorem size_metric_bounded text d :
  parse_diff text = Ok d -> lines d <= String.length text.
Proof.
  unfold parse_diff, parse_diff_nosplit.
  destruct (excluded (Str.split_newline text)).
  - intros [= <-]. simpl. lia.
  - destruct (file_loop ∅ (Str.split_newline text)) as [p| |]; simpl;
      try discriminate.
    intros [= <-]. simpl.
    pose proof (diff_lines_le (Str.split_newline text)).
    pose proof (split_newline_lengths text).
    pose proof (split_newline_not_nil text).
    destruct (Str.split_newline text); [congruence|]. simpl in *. lia.
Qed.

Lemma size_metric_bounded_witness : 43 <= String.length end_to_end_example.
Proof.
  apply (size_metric_bounded end_to_end_example
           (Diff_init
              {[ ("a/foo.c", "b/foo.c") :=
                   {[ "" := mkHunk ["added"] [] ["line1"; "line2"] ]} ]} 43)).
  vm_compute. reflexivity.
Defined.

Lemma strip_prefix_first a p x r :
  Str.strip_prefix (String a p) x = Some r -> first_is a x = true.
Proof.
  destruct x as [|b x]; simpl; [discriminate|].
  destruct (Ascii.eqb_spec a b) as [->|]; [|discriminate].
  intros _. apply Ascii.eqb_refl.
Qed.

Lemma header_line_selected l : header_line l -> Re.DIFF_SELECTOR l = true.
Proof.
  intros [[g H]|[[g H]|[g H]]].
  - unfold Re.FILE_SEPARATOR_MINUS, Re.FILE_SEPARATOR in H.
    destruct (Str.strip_prefix "--- " l) eqn:Hs; [|discriminate].
    apply strip_prefix_first in Hs. destruct l; [discriminate|].
    simpl in *. rewrite Hs. reflexivity.
  - unfold Re.FILE_SEPARATOR_PLUS, Re.FILE_SEPARATOR in H.
    destruct (Str.strip_prefix "+++ " l) eqn:Hs; [|discriminate].
    apply strip_prefix_first in Hs. destruct l; [discriminate|].
    simpl in *. rewrite Hs. rewrite orb_true_r. reflexivity.
  - unfold Re.HUNK in H.
    destruct (Str.strip_prefix "@@ -" l) eqn:Hs; [|discriminate].
    apply strip_prefix_first in Hs. destruct l; [discriminate|].
    simpl in *. rewrite Hs. rewrite !orb_true_r. reflexivity.
Qed.

(** X12: the size metric counts the headers, not only the changed lines:
    every line of the input that matches the minus header, the plus header
    or the hunk header adds its whole length to the sum. *)
Theorem header_lines_are_counted pre l post :
  header_line l ->
  diff_lines (pre ++ l :: post) =
  diff_lines pre + String.length l + diff_lines post.
Proof.
  intros Hl. unfold diff_lines.
  rewrite List.filter_app. simpl. rewrite (header_line_selected l Hl).
  rewrite List.map_app, list_sum_app. simpl. lia.
Qed.

Lemma header_lines_are_counted_witness :
  diff_lines (["noise"] ++ "@@ -1 +1 @@" :: ["-a"; " ctx"]) =
  diff_lines ["noise"] + String.length "@@ -1 +1 @@" + diff_lines ["-a"; " ctx"].
Proof.
  apply (header_lines_are_counted ["noise"] "@@ -1 +1 @@" ["-a"; " ctx"]).
  right. right. vm_compute. eauto.
Defined.

(** ** The number of affected paths *)

Lemma size_add_one (X : gset string) x : size (X ∪ {[ x ]}) <= size X + 1.
Proof.
  rewrite size_union_alt.
  assert (size (({[ x ]} : gset string) ∖ X) <= size ({[ x ]} : gset string))
    by (apply subseteq_size; intros y Hy;
        apply elem_of_difference in Hy as [Hy _]; exact Hy).
  rewrite size_singleton in *. lia.
Qed.

Lemma size_add_affected acc key :
  size (add_affected acc key) <= size acc + 2.
Proof.
  destruct key as [i j]. unfold add_affected.
  destruct (Str.contains dev_null i), (Str.contains dev_null j); try lia.
  - pose proof (size_add_one acc (Str.drop2 j)). lia.
  - pose proof (size_add_one acc (Str.drop2 i)). lia.
  - pose proof (size_add_one acc (Str.drop2 i)).
    pose proof (size_add_one (acc ∪ {[ Str.drop2 i ]}) (Str.drop2 j)). lia.
Qed.

Lemma size_affected_fold keys : forall acc,
  size (foldl add_affected acc keys) <= size acc + 2 * length keys.
Proof.
  induction keys as [|key keys IH]; intros acc; simpl; [lia|].
  specialize (IH (add_affected acc key)).
  pose proof (size_add_affected acc key). lia.
Qed.

(** X13: a Diff has at most two affected paths for each key of its patches
    mapping, and at least one as soon as some key has a path in which the
    text [/dev/null] does not occur. *)
Theorem affected_size (patches : gmap (string * string) (gmap string Hunk))
    (lines : nat) :
  size (affected (Diff_init patches lines)) <= 2 * size patches /\
  (forall i j,
     is_Some (patches !! (i, j)) ->
     Str.contains "/dev/null" i = false \/ Str.contains "/dev/null" j = false ->
     affected (Diff_init patches lines) <> ∅).
Proof.
  split.
  - unfold Diff_init, affected_of_keys. simpl.
    pose proof (size_affected_fold (fst <$> map_to_list patches) ∅) as H.
    rewrite size_empty, length_fmap, length_map_to_list in H. lia.
  - intros i j Hin Hnull Hempty.
    assert (Hx : exists x, x ∈ affected (Diff_init patches lines)).
    { destruct Hnull as [Hn|Hn]; [exists (Str.drop2 i)|exists (Str.drop2 j)];
        apply elem_of_affected; exists i, j; (split; [exact Hin|]);
        [left|right]; split; auto. }
    destruct Hx as [x Hx]. rewrite Hempty in Hx.
    exact (not_elem_of_empty x Hx).
Qed.



(** * Properties of [bin/pasta_evaluate_patches.py] *)

(** ** The cells and lines of the table *)

Lemma cell_text_cons c s :
  cell_text (String c s) = String (cell_char c) (cell_text s).
Proof. reflexivity. Qed.

Lemma cell_char_plain c : plain_char (cell_char c) = true.
Proof. destruct c as [[] [] [] [] [] [] [] []]; reflexivity. Qed.

Lemma cell_char_id c : plain_char c = true -> cell_char c = c.
Proof.
  destruct c as [[] [] [] [] [] [] [] []]; vm_compute; intros H;
    try discriminate H; reflexivity.
Qed.

Lemma plain_char_not c : plain_char c = true ->
  Ascii.eqb c tab = false /\ Ascii.eqb c Str.newline = false.
Proof.
  destruct c as [[] [] [] [] [] [] [] []]; vm_compute; intros H;
    try discriminate H; auto.
Qed.

Lemma count_char_app c a b :
  count_char c (a +:+ b) = count_char c a + count_char c b.
Proof. induction a as [|x a IH]; simpl; [reflexivity|]. rewrite IH. lia. Qed.

Lemma count_char_plain s :
  all_chars plain_char s = true ->
  count_char tab s = 0 /\ count_char Str.newline s = 0.
Proof.
  induction s as [|c s IH]; simpl; [auto|].
  intros H. apply andb_true_iff in H as [Hc Hs].
  destruct (plain_char_not c Hc) as [-> ->]. apply (IH Hs).
Qed.

Lemma cell_text_plain text : all_chars plain_char (cell_text text) = true.
Proof.
  induction text as [|c s IH]; [reflexivity|].
  rewrite cell_text_cons. simpl. rewrite cell_char_plain. exact IH.
Qed.

Lemma write_cell_counts file text :
  count_char tab (write_cell file text) = count_char tab file + 1 /\
  count_char Str.newline (write_cell file text) = count_char Str.newline file.
Proof.
  unfold write_cell. rewrite !count_char_app.
  destruct (count_char_plain _ (cell_text_plain text)) as [-> ->].
  simpl. lia.
Qed.

(** X14: the text that [write_cell] writes for a cell has the length of the
    value, holds no apostrophe, double quote, line feed, tab or equals
    sign, and is the value itself when the value holds none; so each call
    adds exactly one tab and no line feed to the file. *)
Theorem write_cell_keeps_table file text :
  String.length (cell_text text) = String.length text /\
  all_chars plain_char (cell_text text) = true /\
  (all_chars plain_char text = true -> cell_text text = text) /\
  count_char tab (write_cell file text) = count_char tab file + 1 /\
  count_char Str.newline (write_cell file text) = count_char Str.newline file.
Proof.
  split; [|split; [apply cell_text_plain|split]].
  - induction text as [|c s IH]; [reflexivity|].
    rewrite cell_text_cons. simpl. rewrite IH. reflexivity.
  - induction text as [|c s IH]; [reflexivity|]. simpl.
    intros H. apply andb_true_iff in H as [Hc Hs].
    rewrite cell_text_cons, (cell_char_id c Hc), (IH Hs). reflexivity.
  - apply write_cell_counts.
Qed.

Lemma write_cell_keeps_table_witness : cell_text "plain text" = "plain text".
Proof.
  apply (proj1 (proj2 (proj2 (write_cell_keeps_table "" "plain text")))).
  reflexivity.
Defined.

Lemma write_newline_counts file :
  count_char tab (write_newline file) = count_char tab file /\
  count_char Str.newline (write_newline file) =
  count_char Str.newline file + 1.
Proof. unfold write_newline. rewrite !count_char_app. simpl. lia. Qed.

Lemma write_cells_counts {A} (text_of : A -> string) items : forall file,
  let out := foldl (fun f item => write_cell f (text_of item)) file items in
  count_char tab out = count_char tab file + length items /\
  count_char Str.newline out = count_char Str.newline file.
Proof.
  induction items as [|item items IH]; intros file; simpl; [lia|].
  destruct (IH (write_cell file (text_of item))) as [Ht Hn].
  destruct (write_cell_counts file (text_of item)) as [Ht' Hn'].
  simpl in Ht, Hn. rewrite Ht, Hn, Ht', Hn'. lia.
Qed.

Lemma write_rows_counts {V} (str : V -> string) rows : forall file,
  let out := foldl (fun f data => write_newline (write_values V str f data))
               file rows in
  count_char tab out =
    count_char tab file + list_sum (List.map (@length _) rows) /\
  count_char Str.newline out = count_char Str.newline file + length rows.
Proof.
  induction rows as [|data rows IH]; intros file; simpl; [lia|].
  destruct (IH (write_newline (write_values V str file data))) as [Ht Hn].
  simpl in Ht, Hn. rewrite Ht, Hn.
  destruct (write_newline_counts (write_values V str file data)) as [-> ->].
  destruct (write_cells_counts (fun item => str (snd item)) data file)
    as [Ht' Hn'].
  unfold write_values. simpl in Ht', Hn'. rewrite Ht', Hn'. lia.
Qed.

(** X15: [write_dict_list] raises [IndexError] on the empty list; on any
    other list it writes one line for the keys of the first dictionary and
    one line for each dictionary, whatever the keys and values hold: the
    file has as many line feeds as that, and one tab for each key of the
    header and each value of each row. *)
Theorem write_dict_list_lines {V : Type} (str : V -> string) :
  write_dict_list V str [] = Raise IndexError /\
  forall first rest,
    exists out,
      write_dict_list V str (first :: rest) = Ok out /\
      count_char Str.newline out = 1 + length (first :: rest) /\
      count_char tab out =
        length first + list_sum (List.map (@length _) (first :: rest)).
Proof.
  split; [reflexivity|]. intros first rest. eexists. split; [reflexivity|].
  destruct (write_rows_counts str (first :: rest)
              (write_newline (write_keys V "" first))) as [Ht Hn].
  simpl in Ht, Hn. simpl. rewrite Ht, Hn.
  destruct (write_newline_counts (write_keys V "" first)) as [-> ->].
  destruct (write_cells_counts (fun item : string * V => fst item) first "")
    as [Ht' Hn'].
  unfold write_keys. simpl in Ht', Hn'. rewrite Ht', Hn'. simpl. lia.
Qed.

(** ** Mainline tags *)

Lemma digits1_all d : digit_string d -> Re.digits1 d = Some (d, EmptyString).
Proof.
  intros [Hd Hne]. unfold Re.digits1. rewrite (span_all _ _ Hd).
  destruct d; [congruence|reflexivity].
Qed.

Lemma digits1_Some s d rest :
  Re.digits1 s = Some (d, rest) ->
  s = d +:+ rest /\ digit_string d /\ stops Str.is_digit rest = true.
Proof.
  unfold Re.digits1. destruct (Str.span Str.is_digit s) as [a b] eqn:Hs.
  destruct (span_Some _ _ _ _ Hs) as (-> & Ha & Hb).
  destruct a as [|c a]; simpl; [discriminate|].
  intros [= <- <-]. repeat split; auto; discriminate.
Qed.

(** A digit string in front of a dot can only match a prefix made of one
    digit and a dot when it is that digit. *)
Lemma strip_digit_dot x p a rest s :
  digit_string a ->
  Str.strip_prefix (String x (String "." p)) (a +:+ "." +:+ rest) = Some s ->
  a = String x EmptyString /\ Str.strip_prefix p rest = Some s.
Proof.
  intros [Ha Hne]. destruct a as [|y a]; [congruence|].
  change (String y a +:+ "." +:+ rest) with (String y (a +:+ "." +:+ rest)).
  cbn [Str.strip_prefix all_chars] in *.
  destruct (Ascii.eqb_spec x y) as [->|]; [|discriminate].
  apply andb_true_iff in Ha as [_ Ha].
  destruct a as [|z a].
  - change ("" +:+ "." +:+ rest) with (String "." rest).
    cbn [Str.strip_prefix]. rewrite Ascii.eqb_refl. auto.
  - change (String z a +:+ "." +:+ rest) with (String z (a +:+ "." +:+ rest)).
    cbn [Str.strip_prefix].
    destruct (Ascii.eqb_spec "."%char z) as [<-|]; [|discriminate].
    cbn [all_chars] in Ha. apply andb_true_iff in Ha as [Ha _].
    discriminate Ha.
Qed.

(** X16: the mainline pattern accepts the tag of a release, [v], digits, a
    dot, digits, and the tag of one of its release candidates; it accepts
    the tag of a stable release, with a third number, only in the 2.6
    series. *)
Theorem mainline_tags_only major minor rc patch :
  digit_string major -> digit_string minor -> digit_string rc ->
  digit_string patch ->
  MAINLINE_REGEX ("v" +:+ major +:+ "." +:+ minor) = true /\
  MAINLINE_REGEX ("v" +:+ major +:+ "." +:+ minor +:+ "-rc" +:+ rc) = true /\
  (MAINLINE_REGEX ("v" +:+ major +:+ "." +:+ minor +:+ "." +:+ patch) = true
   <-> major = "2" /\ minor = "6").
Proof.
  intros Ha Hb Hn Hc. unfold MAINLINE_REGEX. rewrite !strip_prefix_app.
  split; [|split].
  - unfold mainline_two_numbers.
    rewrite (digits1_app major ("." +:+ minor) Ha eq_refl), strip_prefix_app.
    rewrite (digits1_all minor Hb). reflexivity.
  - unfold mainline_two_numbers.
    rewrite (digits1_app major ("." +:+ minor +:+ "-rc" +:+ rc) Ha eq_refl),
      strip_prefix_app.
    rewrite (digits1_app minor ("-rc" +:+ rc) Hb eq_refl).
    unfold mainline_tail. rewrite strip_prefix_app, (digits1_all rc Hn).
    reflexivity.
  - assert (H1 : mainline_two_numbers (major +:+ "." +:+ minor +:+ "." +:+ patch)
                 = false).
    { unfold mainline_two_numbers.
      rewrite (digits1_app major ("." +:+ minor +:+ "." +:+ patch) Ha eq_refl),
        strip_prefix_app.
      rewrite (digits1_app minor ("." +:+ patch) Hb eq_refl).
      destruct Hc as [_ Hne]. destruct patch; [congruence|reflexivity]. }
    rewrite H1. simpl orb. unfold mainline_2_6. split.
    + destruct (Str.strip_prefix "2.6." _) as [s1|] eqn:Hs; [|discriminate].
      intros _.
      destruct (strip_digit_dot _ _ _ _ _ Ha Hs) as [-> Hs'].
      destruct (strip_digit_dot _ _ _ _ _ Hb Hs') as [-> _]. auto.
    + intros [-> ->].
      change ("2" +:+ "." +:+ "6" +:+ "." +:+ patch) with ("2.6." +:+ patch).
      rewrite strip_prefix_app, (digits1_all patch Hc). reflexivity.
Qed.

Lemma mainline_tags_only_witness :
  MAINLINE_REGEX "v4.19" = true /\ MAINLINE_REGEX "v4.19-rc7" = true /\
  (MAINLINE_REGEX "v4.19.3" = true <-> "4" = "2" /\ "19" = "6").
Proof.
  apply (mainline_tags_only "4" "19" "7" "3");
    (split; [reflexivity|discriminate]).
Defined.

(** ** The tag of a patch *)

Lemma by_date_tail t tags : by_date (t :: tags) -> by_date tags.
Proof.
  intros H i j a b Hij Ha Hb. apply (H (S i) (S j) a b); [lia|exact Ha|exact Hb].
Qed.

Lemma by_date_head t tags u :
  by_date (t :: tags) -> In u tags -> (snd t <= snd u)%Z.
Proof.
  intros H Hin. apply list_elem_of_In in Hin.
  apply list_elem_of_lookup in Hin as [j Hj].
  apply (H 0 (S j) t u); [lia|reflexivity|exact Hj].
Qed.

Lemma filter_all_false {A} (f : A -> bool) l :
  (forall x, In x l -> f x = false) -> List.filter f l = [].
Proof.
  induction l as [|x l IH]; intros H; [reflexivity|]. simpl.
  rewrite (H x (or_introl eq_refl)). apply IH. intros y Hy. apply H. right.
  exact Hy.
Qed.

Lemma assign_tag_from_latest tags author_date : forall tag,
  by_date tags ->
  assign_tag_from tag tags author_date =
  match last (tags_until author_date tags) with
  | Some t => Some (fst t)
  | None => tag
  end.
Proof.
  induction tags as [|[cand date] tags IH]; intros tag Hs; [reflexivity|].
  simpl. destruct (Z.gtb_spec date author_date) as [Hgt|Hle].
  - assert (Hnone : tags_until author_date tags = []).
    { apply filter_all_false. intros u Hu.
      pose proof (by_date_head _ _ _ Hs Hu) as Hd. simpl in Hd.
      apply Z.leb_gt. lia. }
    unfold tags_until in *. simpl.
    destruct (Z.leb_spec date author_date); [lia|]. rewrite Hnone. reflexivity.
  - rewrite (IH (Some cand) (by_date_tail _ _ Hs)).
    unfold tags_until. simpl.
    destruct (Z.leb_spec date author_date); [|lia].
    destruct (List.filter _ tags) as [|u l]; [reflexivity|].
    change (last ((cand, date) :: u :: l)) with (last (u :: l)).
    destruct (last (u :: l)) eqn:Hl; [reflexivity|].
    apply last_None in Hl. discriminate.
Qed.

(** X17: when the mainline tags come in the order of their dates, the loop
    gives a patch the last tag dated no later than the patch, and no tag
    (the case in which the script stops) exactly when every tag is dated
    after the patch. *)
Theorem assign_tag_latest tags author_date :
  by_date tags ->
  assign_tag tags author_date = fst <$> last (tags_until author_date tags) /\
  (assign_tag tags author_date = None <->
   forall t, In t tags -> (author_date < snd t)%Z).
Proof.
  intros Hs. unfold assign_tag.
  rewrite (assign_tag_from_latest tags author_date None Hs).
  split; [destruct (last _); reflexivity|].
  destruct (last (tags_until author_date tags)) as [t|] eqn:Hl.
  - split; [discriminate|]. intros Hall. exfalso.
    assert (Hin : In t (tags_until author_date tags)).
    { apply list_elem_of_In. apply last_Some_elem_of. exact Hl. }
    apply filter_In in Hin as [Hin Hle]. apply Z.leb_le in Hle.
    specialize (Hall t Hin). lia.
  - split; [|reflexivity]. intros _ t Hin.
    apply last_None in Hl.
    destruct (Z.leb_spec (snd t) author_date) as [Hle|Hlt]; [|exact Hlt].
    assert (Hf : In t (tags_until author_date tags)).
    { apply filter_In. split; [exact Hin|]. apply Z.leb_le. exact Hle. }
    rewrite Hl in Hf. destruct Hf.
Qed.

Lemma assign_tag_latest_witness :
  assign_tag [("v4.18", 10%Z); ("v4.19-rc1", 20%Z); ("v4.19", 30%Z)] 25 =
  Some "v4.19-rc1".
Proof.
  assert (Hs : by_date [("v4.18", 10%Z); ("v4.19-rc1", 20%Z); ("v4.19", 30%Z)]).
  { intros [|[|[|i]]] [|[|[|j]]] t u Hij Ht Hu; simpl in *;
      try lia; try discriminate;
      injection Ht as <-; injection Hu as <-; simpl; lia. }
  exact (proj1 (assign_tag_latest _ 25%Z Hs)).
Defined.

(** ** Counting the lists of the patches *)

Lemma count_one_lookup counts mlist l :
  count_one counts mlist !! l =
  if decide (mlist = l) then Some (default 0 (counts !! mlist) + 1)
  else counts !! l.
Proof.
  unfold count_one. destruct (decide (mlist = l)) as [<-|Hne].
  - rewrite lookup_insert_eq.
    destruct (counts !! mlist) as [n|] eqn:Hc.
    + rewrite Hc. reflexivity.
    + rewrite lookup_insert_eq. reflexivity.
  - rewrite (lookup_insert_ne _ _ _ _ Hne).
    destruct (counts !! mlist); [reflexivity|].
    apply lookup_insert_ne. exact Hne.
Qed.

Lemma count_one_counts_are counts n mlist :
  counts_are counts n ->
  counts_are (count_one counts mlist)
    (fun l => n l + if bool_decide (mlist = l) then 1 else 0).
Proof.
  intros H l. rewrite count_one_lookup.
  destruct (decide (mlist = l)) as [<-|Hne].
  - rewrite bool_decide_eq_true_2 by reflexivity. rewrite (H mlist).
    destruct (Nat.eqb_spec (n mlist) 0) as [->|Hn]; simpl.
    + reflexivity.
    + destruct (Nat.eqb_spec (n mlist + 1) 0); [lia|reflexivity].
  - rewrite bool_decide_eq_false_2 by exact Hne. rewrite Nat.add_0_r.
    apply H.
Qed.

Lemma counts_are_ext counts n n' :
  (forall l, n l = n' l) -> counts_are counts n -> counts_are counts n'.
Proof. intros He H l. rewrite <- He. apply H. Qed.

Lemma count_lists_of_patch lists : forall counts n,
  counts_are counts n ->
  counts_are (foldl count_one counts lists)
    (fun l => n l + length (List.filter (fun x => bool_decide (x = l)) lists)).
Proof.
  induction lists as [|mlist lists IH]; intros counts n H.
  - eapply counts_are_ext; [|exact H]. intros l. simpl. lia.
  - simpl foldl.
    eapply counts_are_ext; [|exact (IH _ _ (count_one_counts_are _ _ mlist H))].
    intros l. simpl. destruct (bool_decide (mlist = l)); simpl; lia.
Qed.

Lemma count_lists_fold get_lists patches : forall counts n,
  counts_are counts n ->
  counts_are
    (foldl (fun c patch => foldl count_one c (get_lists patch)) counts patches)
    (fun l => n l + occurrences get_lists l patches).
Proof.
  induction patches as [|patch patches IH]; intros counts n H.
  - eapply counts_are_ext; [|exact H]. intros l. unfold occurrences. simpl. lia.
  - simpl foldl.
    eapply counts_are_ext;
      [|exact (IH _ _ (count_lists_of_patch (get_lists patch) _ _ H))].
    intros l. unfold occurrences. simpl. lia.
Qed.

Lemma occurrences_Permutation get_lists l patches patches' :
  Permutation patches patches' ->
  occurrences get_lists l patches = occurrences get_lists l patches'.
Proof.
  intros Hp. unfold occurrences.
  induction Hp as [|x p p' _ IH|x y p|p p' p'' _ IH1 _ IH2]; simpl; lia.
Qed.

(** X18: [count_lists] returns, for each mailing list, the number of times
    the list occurs in the lists of the patches, and has no entry for a
    list that never occurs; so the order in which the set of patches is
    visited does not change the result. *)
Theorem count_lists_counts (get_lists : string -> list string)
    (patches : list string) :
  (forall mlist,
     count_lists get_lists patches !! mlist =
     if (occurrences get_lists mlist patches =? 0)%nat then None
     else Some (occurrences get_lists mlist patches)) /\
  (forall patches',
     Permutation patches patches' ->
     count_lists get_lists patches' = count_lists get_lists patches).
Proof.
  assert (H : forall ps, counts_are (count_lists get_lists ps)
                           (fun l => occurrences get_lists l ps)).
  { intros ps. unfold count_lists.
    eapply counts_are_ext;
      [|exact (count_lists_fold get_lists ps ∅ (fun _ => 0)
                 ltac:(intros l; apply lookup_empty))].
    intros l. reflexivity. }
  split; [exact (H patches)|].
  intros patches' Hp. apply map_eq. intros l.
  rewrite (H patches' l), (H patches l).
  rewrite (occurrences_Permutation get_lists l _ _ Hp). reflexivity.
Qed.

Lemma count_lists_counts_witness :
  count_lists (fun p => if String.eqb p "m1" then ["lkml"; "netdev"] else ["lkml"])
    ["m2"; "m1"] =
  count_lists (fun p => if String.eqb p "m1" then ["lkml"; "netdev"] else ["lkml"])
    ["m1"; "m2"].
Proof.
  apply (proj2 (count_lists_counts
                  (fun p => if String.eqb p "m1" then ["lkml"; "netdev"]
                            else ["lkml"]) ["m1"; "m2"])).
  apply perm_swap.
Defined.

(** ** Numbered patches *)

Lemma search_app m pre : forall s,
  m s = true -> search m (pre +:+ s) = true.
Proof.
  induction pre as [|c pre IH]; intros s H.
  - destruct s; simpl; rewrite H; reflexivity.
  - change (String c pre +:+ s) with (String c (pre +:+ s)).
    simpl. rewrite (IH s H). apply orb_true_r.
Qed.

Lemma search_true m s :
  search m s = true -> exists pre suf, s = pre +:+ suf /\ m suf = true.
Proof.
  induction s as [|c s IH]; simpl.
  - rewrite orb_false_r. intros H. exists "", "". auto.
  - intros H. apply orb_true_iff in H as [H|H].
    + exists "", (String c s). auto.
    + destruct (IH H) as (pre & suf & -> & Hm).
      exists (String c pre), suf. auto.
Qed.

(** X19: [is_part_of_patch_set] answers [True] exactly when the message is
    known and its subject holds, somewhere, digits, a slash, digits and a
    closing bracket, as in [PATCH 2/5]; an unknown message gives [False]. *)
Theorem is_part_of_patch_set_spec (_repo : gmap string string) patch :
  is_part_of_patch_set _repo patch = true <->
  exists pre number total post,
    _repo !! patch = Some (pre +:+ number +:+ "/" +:+ total +:+ "]" +:+ post) /\
    digit_string number /\ digit_string total.
Proof.
  unfold is_part_of_patch_set. split.
  - destruct (_repo !! patch) as [subject|]; [|discriminate].
    intros H. apply search_true in H as (pre & suf & -> & Hm).
    unfold patch_number in Hm.
    destruct (Re.digits1 suf) as [[n s1]|] eqn:H1; [|discriminate].
    apply digits1_Some in H1 as (-> & Hn & _).
    destruct (Str.strip_prefix "/" s1) as [s2|] eqn:H2; [|discriminate].
    apply strip_prefix_Some in H2 as ->.
    destruct (Re.digits1 s2) as [[t s3]|] eqn:H3; [|discriminate].
    apply digits1_Some in H3 as (-> & Ht & _).
    destruct (Str.strip_prefix "]" s3) as [s4|] eqn:H4; [|discriminate].
    apply strip_prefix_Some in H4 as ->.
    exists pre, n, t, s4. auto.
  - intros (pre & n & t & post & -> & Hn & Ht).
    apply search_app. unfold patch_number.
    rewrite (digits1_app n ("/" +:+ t +:+ "]" +:+ post) Hn eq_refl).
    rewrite strip_prefix_app.
    rewrite (digits1_app t ("]" +:+ post) Ht eq_refl).
    rewrite strip_prefix_app. reflexivity.
Qed.

(** ** The populations of [get_ignored] *)

Lemma skip_of_false mc d c :
  mc !! d = Some c -> (skip_of c = false <-> relevant_patch mc d).
Proof.
  intros Hc. unfold skip_of, relevant_patch. split.
  - intros H. exists c. split; [exact Hc|].
    destruct c as [[] [] [] []]; simpl in *; auto; discriminate.
  - intros (c' & Hc' & H1 & H2 & H3 & H4). rewrite Hc in Hc'.
    injection Hc' as <-. rewrite H1, H2, H3, H4. reflexivity.
Qed.

Lemma count_visited_cons mc f d ds :
  count_visited mc f (d :: ds) =
  (match mc !! d with Some c => if f c then 1 else 0 | None => 0 end)
  + count_visited mc f ds.
Proof.
  unfold count_visited. simpl. destruct (mc !! d) as [c|]; [|reflexivity].
  destruct (f c); reflexivity.
Qed.

Lemma count_visited_app mc f ds ds' :
  count_visited mc f (ds ++ ds') = count_visited mc f ds + count_visited mc f ds'.
Proof.
  unfold count_visited. rewrite List.filter_app, length_app. reflexivity.
Qed.

Lemma grown_nil mc up p rel : grown mc up p rel p rel [].
Proof.
  unfold grown, count_visited. simpl.
  repeat split; try (intros; tauto); try lia; intros [H|[_ []]]; tauto.
Qed.

Lemma visit_downstream_grown mc up : forall down p rel p' rel',
  visit_downstream mc up (p, rel) down = Some (p', rel') ->
  grown mc up p rel p' rel' down.
Proof.
  induction down as [|d rest IH]; intros p rel p' rel' H.
  - injection H as <- <-. apply grown_nil.
  - simpl in H. destruct (mc !! d) as [c|] eqn:Hc; [|discriminate].
    apply IH in H as (G1 & G2 & G3 & G4 & G5 & G6 & G7 & G8 & G9 & G10).
    simpl in *. pose proof (skip_of_false mc d c Hc) as Hskip.
    unfold grown. rewrite !count_visited_cons, Hc. cbn [In].
    split; [|split; [|split; [|split; [|split; [|split]]]]].
    + intros x. rewrite G1, elem_of_union, elem_of_singleton.
      intuition (subst; auto).
    + intros x. rewrite G2. destruct (has_upstream up);
        rewrite ?elem_of_union, ?elem_of_singleton;
        intuition (subst; auto; discriminate).
    + intros x. rewrite G3. destruct (has_upstream up);
        rewrite ?elem_of_union, ?elem_of_singleton;
        intuition (subst; auto; discriminate).
    + exact G4.
    + exact G5.
    + intros x. rewrite G6. destruct (skip_of c).
      * split.
        -- intros [H|[H1 H2]]; auto.
        -- intros [H|[[<-|H1] H2]]; auto.
           apply Hskip in H2. discriminate.
      * rewrite elem_of_union, elem_of_singleton. split.
        -- intros [[H| ->]|[H1 H2]]; auto.
           right. split; [left; reflexivity|]. apply Hskip. reflexivity.
        -- intros [H|[[<-|H1] H2]]; auto.
    + rewrite G7, G8, G9, G10.
      destruct (is_from_bot c), (is_stable_review c), (patches_linux c),
        (is_first_patch_in_thread c); simpl; repeat split; lia.
Qed.

Lemma visit_downstream_is_Some mc up : forall down st,
  is_Some (visit_downstream mc up st down) <->
  forall d, In d down -> is_Some (mc !! d).
Proof.
  induction down as [|d rest IH]; intros [p rel]; simpl.
  - split; [intros _ d []|eauto].
  - destruct (mc !! d) as [c|] eqn:Hc.
    + rewrite IH. split.
      * intros H x [<-|Hx]; [rewrite Hc; eauto|auto].
      * intros H x Hx. apply H. right. exact Hx.
    + split.
      * intros [? H]. discriminate H.
      * intros H. specialize (H d (or_introl eq_refl)). rewrite Hc in H.
        destruct H as [? H]. discriminate H.
Qed.

Lemma file_relevant_same up p rel :
  population_all_patches (file_relevant up p rel) = population_all_patches p /\
  population_accepted (file_relevant up p rel) = population_accepted p /\
  population_not_accepted (file_relevant up p rel) = population_not_accepted p /\
  skipped_bot (file_relevant up p rel) = skipped_bot p /\
  skipped_stable (file_relevant up p rel) = skipped_stable p /\
  skipped_not_linux (file_relevant up p rel) = skipped_not_linux p /\
  skipped_not_first_patch (file_relevant up p rel) = skipped_not_first_patch p.
Proof.
  unfold file_relevant. destruct (decide (size rel = 0)); repeat split.
Qed.

Lemma file_relevant_sets up p rel x :
  (x ∈ upstreamed_patches (file_relevant up p rel) <->
   x ∈ upstreamed_patches p \/ (has_upstream up = true /\ x ∈ rel)) /\
  (x ∈ not_upstreamed_patches (file_relevant up p rel) <->
   x ∈ not_upstreamed_patches p \/ (has_upstream up = false /\ x ∈ rel)).
Proof.
  unfold file_relevant. destruct (decide (size rel = 0)) as [Hz|Hnz].
  - apply size_empty_inv in Hz. apply leibniz_equiv in Hz. subst rel.
    split; (split; [auto|]); intros [H|[_ H]]; auto;
      exfalso; exact (not_elem_of_empty x H).
  - simpl. destruct (has_upstream up);
      rewrite ?elem_of_union; intuition discriminate.
Qed.

Lemma in_cluster_cons acc down up cs x :
  in_cluster acc ((down, up) :: cs) x <->
  (has_upstream up = acc /\ In x down) \/ in_cluster acc cs x.
Proof.
  unfold in_cluster. split.
  - intros (dn & u & [[= <- <-]|Hin] & Hu & Hx); [auto|].
    right. exists dn, u. auto.
  - intros [[Hu Hx]|(dn & u & Hin & Hu & Hx)].
    + exists down, up. split; [left; reflexivity|auto].
    + exists dn, u. split; [right; exact Hin|auto].
Qed.

Lemma visit_clusters_grown mc : forall cs p p',
  visit_clusters mc p cs = Some p' -> grown_all mc p p' cs.
Proof.
  induction cs as [|[down up] cs IH]; intros p p' H.
  - injection H as <-. unfold grown_all, visited, in_cluster, count_visited.
    simpl. repeat split; try (intros; tauto); try lia;
      try (intros [H|H]; [exact H|]);
      try (destruct H as [(? & ? & [] & _) _]);
      try (destruct H as (? & ? & [] & _)); try destruct H.
  - simpl in H.
    destruct (visit_downstream mc up (p, ∅) down) as [[p1 rel]|] eqn:Hd;
      [|discriminate].
    apply visit_downstream_grown in Hd
      as (D1 & D2 & D3 & D4 & D5 & D6 & D7 & D8 & D9 & D10).
    apply IH in H as (G1 & G2 & G3 & G4 & G5 & G6 & G7 & G8 & G9).
    destruct (file_relevant_same up p1 rel)
      as (F1 & F2 & F3 & F4 & F5 & F6 & F7).
    rewrite F1 in G1. rewrite F2 in G2. rewrite F3 in G3.
    rewrite F4 in G6. rewrite F5 in G7. rewrite F6 in G8. rewrite F7 in G9.
    unfold grown_all.
    change (visited ((down, up) :: cs)) with (down ++ visited cs).
    rewrite !count_visited_app.
    split; [|split; [|split; [|split; [|split]]]].
    + intros x. rewrite G1, D1, in_app_iff. tauto.
    + intros x. rewrite G2, D2, in_cluster_cons. tauto.
    + intros x. rewrite G3, D3, in_cluster_cons. tauto.
    + intros x. rewrite G4, (proj1 (file_relevant_sets up p1 rel x)), D4, D6,
        in_cluster_cons.
      split.
      * intros [[H|[Hu [H|[H1 H2]]]]|[H1 H2]]; auto.
        exfalso. exact (not_elem_of_empty x H).
      * intros [H|[[[Hu H1]|H1] H2]]; auto 6.
    + intros x. rewrite G5, (proj2 (file_relevant_sets up p1 rel x)), D5, D6,
        in_cluster_cons.
      split.
      * intros [[H|[Hu [H|[H1 H2]]]]|[H1 H2]]; auto.
        exfalso. exact (not_elem_of_empty x H).
      * intros [H|[[[Hu H1]|H1] H2]]; auto 6.
    + rewrite G6, G7, G8, G9, D7, D8, D9, D10. repeat split; lia.
Qed.

Lemma visit_clusters_is_Some mc : forall cs p,
  is_Some (visit_clusters mc p cs) <->
  forall d, In d (visited cs) -> is_Some (mc !! d).
Proof.
  induction cs as [|[down up] cs IH]; intros p.
  - simpl. split; [intros _ d []|eauto].
  - change (visited ((down, up) :: cs)) with (down ++ visited cs). simpl.
    pose proof (visit_downstream_is_Some mc up down (p, ∅)) as Hd.
    destruct (visit_downstream mc up (p, ∅) down) as [[p1 rel]|].
    + rewrite IH. split.
      * intros H d Hin. apply in_app_iff in Hin as [Hin|Hin]; [|auto].
        apply (proj1 Hd); eauto.
      * intros H d Hin. apply H. apply in_app_iff. right. exact Hin.
    + split.
      * intros [? H]. discriminate H.
      * intros H. destruct (proj2 Hd) as [? Hn]; [|discriminate Hn].
        intros d Hin. apply H. apply in_app_iff. left. exact Hin.
Qed.

Lemma visited_in_cluster cs x :
  In x (visited cs) <-> in_cluster true cs x \/ in_cluster false cs x.
Proof.
  induction cs as [|[down up] cs IH].
  - unfold in_cluster. simpl. split; [intros []|].
    intros [(? & ? & [] & _)|(? & ? & [] & _)].
  - change (visited ((down, up) :: cs)) with (down ++ visited cs).
    rewrite in_app_iff, IH, !in_cluster_cons.
    destruct (has_upstream up); intuition discriminate.
Qed.

Lemma get_ignored_populations_grown mc cs p :
  get_ignored_populations mc cs = Some p -> grown_all mc populations_init p cs.
Proof. apply visit_clusters_grown. Qed.

Lemma example_populations_run :
  get_ignored_populations example_characteristics example_clusters =
  Some example_populations.
Proof. vm_compute. reflexivity. Qed.

(** X20: when the first loop of [get_ignored] ends, the population of all
    patches is the set of the patches of the clusters, it is the union of
    the accepted and the not accepted patches, and the upstreamed and not
    upstreamed patches are accepted respectively not accepted ones. *)
Theorem get_ignored_populations_consistent mc cs p :
  get_ignored_populations mc cs = Some p ->
  (forall x, x ∈ population_all_patches p <-> In x (visited cs)) /\
  population_all_patches p = population_accepted p ∪ population_not_accepted p /\
  upstreamed_patches p ⊆ population_accepted p /\
  not_upstreamed_patches p ⊆ population_not_accepted p.
Proof.
  intros H. apply get_ignored_populations_grown in H
    as (G1 & G2 & G3 & G4 & G5 & _).
  simpl in *.
  assert (E : forall x (P : Prop), (x ∈ (∅ : gset string) \/ P) <-> P).
  { intros x P. split; [intros [H|H]; [|exact H]|auto].
    exfalso. exact (not_elem_of_empty x H). }
  split; [|split; [|split]].
  - intros x. rewrite G1. apply E.
  - apply set_eq. intros x.
    rewrite elem_of_union, G1, G2, G3, !E. apply visited_in_cluster.
  - intros x. rewrite G4, G2, !E. tauto.
  - intros x. rewrite G5, G3, !E. tauto.
Qed.

Lemma get_ignored_populations_consistent_witness :
  population_all_patches example_populations =
  population_accepted example_populations ∪
  population_not_accepted example_populations.
Proof.
  exact (proj1 (proj2 (get_ignored_populations_consistent _ _ _
                         example_populations_run))).
Defined.

(** X21: a patch ends among the upstreamed patches exactly when it belongs
    to a cluster with an upstream commit and none of the four tests skips
    it (it is not from a bot, not a stable review, patches Linux and is the
    first patch of its thread); among the not upstreamed ones exactly when
    it belongs to a cluster without upstream commit and none of the tests
    skips it. *)
Theorem get_ignored_relevant mc cs p :
  get_ignored_populations mc cs = Some p ->
  forall x,
    (x ∈ upstreamed_patches p <->
     in_cluster true cs x /\ relevant_patch mc x) /\
    (x ∈ not_upstreamed_patches p <->
     in_cluster false cs x /\ relevant_patch mc x).
Proof.
  intros H x. apply get_ignored_populations_grown in H
    as (_ & _ & _ & G4 & G5 & _).
  simpl in *. rewrite G4, G5. split; split; auto;
    (intros [H|H]; [exfalso; exact (not_elem_of_empty x H)|exact H]).
Qed.

Lemma get_ignored_relevant_witness :
  ("p2" ∈ upstreamed_patches example_populations <->
   in_cluster true example_clusters "p2" /\
   relevant_patch example_characteristics "p2") /\
  ("p2" ∈ not_upstreamed_patches example_populations <->
   in_cluster false example_clusters "p2" /\
   relevant_patch example_characteristics "p2").
Proof.
  exact (get_ignored_relevant _ _ _ example_populations_run "p2").
Defined.

Lemma all_or_missing (mc : gmap string characteristics) ds :
  (forall d, In d ds -> is_Some (mc !! d)) \/
  (exists d, In d ds /\ mc !! d = None).
Proof.
  induction ds as [|d ds [IH|(x & Hx & Hm)]].
  - left. intros d [].
  - destruct (mc !! d) as [c|] eqn:Hc.
    + left. intros x [<-|Hx]; [rewrite Hc; eauto|auto].
    + right. exists d. split; [left; reflexivity|exact Hc].
  - right. exists x. split; [right; exact Hx|exact Hm].
Qed.

(** X22: the loop raises the [KeyError] of [mail_characteristics[d]]
    exactly when some patch of some cluster has no characteristics; when
    every patch has them it ends normally. *)
Theorem get_ignored_key_error mc cs :
  (is_Some (get_ignored_populations mc cs) <->
   forall d, In d (visited cs) -> is_Some (mc !! d)) /\
  (get_ignored_populations mc cs = None <->
   exists d, In d (visited cs) /\ mc !! d = None).
Proof.
  assert (H : is_Some (get_ignored_populations mc cs) <->
              forall d, In d (visited cs) -> is_Some (mc !! d))
    by apply visit_clusters_is_Some.
  split; [exact H|]. split.
  - intros Hn.
    destruct (all_or_missing mc (visited cs)) as [Hall|Hex]; [|exact Hex].
    apply H in Hall. rewrite Hn in Hall. destruct Hall as [? Hs].
    discriminate Hs.
  - intros (d & Hd & Hm).
    destruct (get_ignored_populations mc cs) eqn:Hg; [|reflexivity].
    assert (Hs : is_Some (mc !! d)) by (apply (proj1 H); eauto).
    rewrite Hm in Hs. destruct Hs as [? Hs]. discriminate Hs.
Qed.

(** X23: each of the four counters is the number of visited patches that
    fail its test, a patch that fails several tests being counted by each
    of them. *)
Theorem get_ignored_counters mc cs p :
  get_ignored_populations mc cs = Some p ->
  skipped_bot p = count_visited mc is_from_bot (visited cs) /\
  skipped_stable p = count_visited mc is_stable_review (visited cs) /\
  skipped_not_linux p =
    count_visited mc (fun c => negb (patches_linux c)) (visited cs) /\
  skipped_not_first_patch p =
    count_visited mc (fun c => negb (is_first_patch_in_thread c)) (visited cs).
Proof.
  intros H. apply get_ignored_populations_grown in H
    as (_ & _ & _ & _ & _ & G6 & G7 & G8 & G9).
  simpl in *. auto.
Qed.

Lemma get_ignored_counters_witness :
  skipped_bot example_populations =
    count_visited example_characteristics is_from_bot
      (visited example_clusters).
Proof.
  exact (proj1 (get_ignored_counters _ _ _ example_populations_run)).
Defined.

(** * Termination and composition of the parse *)

(** X24: the parser ends on every text: it returns a Diff, or it raises
    one of three exceptions, the [IndexError] of [pop(0)], the
    [AttributeError] of [.group(1)] or the [ValueError] of [int]. *)
Theorem parse_diff_returns_or_raises text :
  (exists d, parse_diff text = Ok d) \/
  parse_diff text = Raise IndexError \/
  parse_diff text = Raise AttributeError \/
  parse_diff text = Raise ValueError.
Proof.
  unfold parse_diff, parse_diff_nosplit.
  destruct (excluded (Str.split_newline text)); [left; eauto|].
  destruct (file_loop ∅ (Str.split_newline text)) as [p|[]|] eqn:H; simpl;
    eauto.
  exfalso. exact (file_loop_no_fuel _ _ H).
Qed.

Lemma body_loop_app l r rest : forall diff st st' left,
  body_loop l r st diff = Ok (st', left) ->
  body_loop l r st (diff ++ rest) = Ok (st', left ++ rest).
Proof.
  induction diff as [|line diff IH]; intros st st' left; simpl.
  - destruct (satisfied l r st) eqn:Hs; [|discriminate].
    intros [= <- <-]. destruct rest; simpl; rewrite Hs; reflexivity.
  - destruct (satisfied l r st) eqn:Hs.
    + intros [= <- <-]. reflexivity.
    + apply IH.
Qed.

Lemma hunk_loop_app idx rest :
  match rest with [] => True | l :: _ => Re.HUNK l = None end ->
  forall diff patches patches' left,
    hunk_loop patches idx diff = Ok (patches', left) ->
    hunk_loop patches idx (diff ++ rest) = Ok (patches', left ++ rest).
Proof.
  intros Hrest diff. remember (length diff) as n eqn:Hn. revert diff Hn.
  induction n as [n IH] using lt_wf_ind.
  intros diff Hn patches patches' left. destruct diff as [|header diff1].
  - rewrite hunk_loop_nil. intros [= <- <-]. simpl.
    apply (hunk_loop_stop _ _ _ Hrest).
  - simpl app. rewrite !hunk_loop_cons.
    destruct (Re.HUNK header) as [hunk|]; [|intros [= <- <-]; reflexivity].
    destruct_counts hunk.
    destruct (body_loop _ _ body_init diff1) as [[st diff2]| |] eqn:Hb;
      simpl; try discriminate.
    rewrite (body_loop_app _ _ rest _ _ _ _ Hb). simpl.
    apply body_loop_length in Hb. subst n.
    apply (IH (length diff2) ltac:(simpl; lia) diff2 eq_refl).
Qed.

Lemma seek_minus_matches diff0 : forall first minus plus_line diff2,
  seek_minus first diff0 = (minus, plus_line :: diff2) ->
  is_Some (Re.FILE_SEPARATOR_MINUS minus).
Proof.
  induction diff0 as [|l diff0 IH]; intros first minus plus_line diff2; simpl.
  - destruct (Re.FILE_SEPARATOR_MINUS first); discriminate.
  - destruct (Re.FILE_SEPARATOR_MINUS first) eqn:Hf.
    + intros [= <- <- <-]. rewrite Hf. eauto.
    + apply IH.
Qed.

(** The first minus header of a list of lines, if there is one. *)
Lemma first_minus diff :
  no_minus diff \/
  exists pre minus rest g,
    diff = pre ++ minus :: rest /\ no_minus pre /\
    Re.FILE_SEPARATOR_MINUS minus = Some g.
Proof.
  induction diff as [|l diff [IH|(pre & m & rest & g & -> & Hpre & Hm)]].
  - left. constructor.
  - destruct (Re.FILE_SEPARATOR_MINUS l) as [g|] eqn:Hl.
    + right. exists [], l, diff, g. split; [reflexivity|]. split; [constructor|auto].
    + left. constructor; assumption.
  - destruct (Re.FILE_SEPARATOR_MINUS l) as [g'|] eqn:Hl.
    + right. exists [], l, (pre ++ m :: rest), g'.
      split; [reflexivity|]. split; [constructor|auto].
    + right. exists (l :: pre), m, rest, g.
      split; [reflexivity|]. split; [constructor; assumption|auto].
Qed.

(** Lines without a minus header in front of the input are skipped. *)
Lemma file_loop_skip patches pre rest :
  no_minus pre -> file_loop patches (pre ++ rest) = file_loop patches rest.
Proof.
  intros Hpre.
  destruct (first_minus rest) as [Hno|(pre2 & m & rest2 & g & -> & Hpre2 & Hm)].
  - rewrite (file_loop_no_minus _ _ Hno). apply file_loop_no_minus.
    apply Forall_app. split; assumption.
  - rewrite (file_loop_segment _ _ _ _ _ Hpre2 Hm).
    rewrite app_assoc.
    apply (file_loop_segment patches (pre ++ pre2) m rest2 g); [|exact Hm].
    apply Forall_app. split; assumption.
Qed.

Lemma last_app_cons {A} (pre : list A) x l d :
  List.last (pre ++ x :: l) d = List.last (x :: l) d.
Proof.
  induction pre as [|y pre IH]; [reflexivity|].
  change ((y :: pre) ++ x :: l) with (y :: (pre ++ x :: l)).
  destruct (pre ++ x :: l) as [|a l0] eqn:He; [destruct pre; discriminate|].
  change (List.last (y :: a :: l0) d) with (List.last (a :: l0) d).
  exact IH.
Qed.

(** X25: parsing composes: when the file-segment loop ends normally on
    some lines whose last one is not a minus header, then on those lines
    followed by further lines that do not begin with a hunk header it does
    what it does on the further lines alone, starting from the patches of
    the first part. *)
Theorem parse_composes diff rest patches patches' :
  file_loop patches diff = Ok patches' ->
  diff = [] \/ Re.FILE_SEPARATOR_MINUS (List.last diff "") = None ->
  match rest with [] => True | l :: _ => Re.HUNK l = None end ->
  file_loop patches (diff ++ rest) = file_loop patches' rest.
Proof.
  intros Hrun Hlast Hrest. revert patches patches' Hrun Hlast.
  remember (length diff) as n eqn:Hn. revert diff Hn.
  induction n as [n IH] using lt_wf_ind.
  intros diff Hn patches patches' Hrun Hlast.
  destruct diff as [|first diff0].
  - rewrite file_loop_nil in Hrun. injection Hrun as <-. reflexivity.
  - destruct Hlast as [Hlast|Hlast]; [discriminate|].
    rewrite file_loop_cons in Hrun.
    destruct (seek_minus first diff0) as [minus diff1] eqn:Hs.
    destruct (seek_minus_split _ _ _ _ Hs) as (pre & Hpre & Hno).
    destruct diff1 as [|plus_line diff2].
    + injection Hrun as <-.
      assert (Hm : Re.FILE_SEPARATOR_MINUS minus = None).
      { rewrite Hpre, last_app_cons in Hlast. exact Hlast. }
      rewrite Hpre. apply file_loop_skip.
      apply Forall_app. split; [exact Hno|]. constructor; [exact Hm|constructor].
    + destruct (seek_minus_matches _ _ _ _ _ Hs) as [g Hm].
      rewrite Hm in Hrun. simpl in Hrun.
      destruct (Re.FILE_SEPARATOR_PLUS plus_line) as [q|] eqn:Hq;
        simpl in Hrun; [|discriminate].
      destruct (hunk_loop patches (g, q) diff2) as [[p1 diff3]| |] eqn:Hh;
        simpl in Hrun; try discriminate.
      rewrite Hpre, <- app_assoc. simpl app.
      rewrite (file_loop_segment _ _ _ _ _ Hno Hm), Hq. simpl.
      rewrite (hunk_loop_app _ _ Hrest _ _ _ _ Hh). simpl.
      pose proof (hunk_loop_length _ _ _ _ _ Hh) as Hlen.
      assert (Hlen' : length diff2 < length (first :: diff0)).
      { rewrite Hpre, length_app. simpl. lia. }
      subst n.
      apply (IH (length diff3) ltac:(lia) diff3 eq_refl _ _ Hrun).
      destruct diff3 as [|x diff3]; [left; reflexivity|right].
      rewrite Hpre in Hlast.
      assert (Hsuf : exists used, diff2 = used ++ x :: diff3).
      { clear - Hh. revert Hh. unfold hunk_loop.
        rewrite hunk_loop_fuel_list.
        destruct (hunk_list_fuel (length diff2) (g, q) diff2)
          as [[hs r]| |] eqn:Hl; simpl; try discriminate.
        intros [= <- <-].
        exact (proj1 (hunk_list_fuel_from _ _ _ _ _ Hl)). }
      destruct Hsuf as (used & ->).
      rewrite last_app_cons in Hlast.
      change (plus_line :: used ++ x :: diff3)
        with ((plus_line :: used) ++ x :: diff3) in Hlast.
      change (minus :: (plus_line :: used) ++ x :: diff3)
        with ((minus :: plus_line :: used) ++ x :: diff3) in Hlast.
      rewrite last_app_cons in Hlast. exact Hlast.
Qed.

Lemma parse_composes_witness :
  file_loop ∅ (["--- a/x"; "+++ b/x"; "@@ -1 +1 @@"; "-a"; "+b"] ++
               ["--- a/y"; "+++ b/y"; "@@ -1 +1 @@"; "-c"; "+d"]) =
  file_loop {[ ("a/x", "b/x") := {[ "" := mkHunk ["b"] ["a"] [] ]} ]}
    ["--- a/y"; "+++ b/y"; "@@ -1 +1 @@"; "-c"; "+d"].
Proof.
  apply (parse_composes ["--- a/x"; "+++ b/x"; "@@ -1 +1 @@"; "-a"; "+b"]
           ["--- a/y"; "+++ b/y"; "@@ -1 +1 @@"; "-c"; "+d"] ∅).
  - vm_compute. reflexivity.
  - right. reflexivity.
  - reflexivity.
Defined.

(** ** Where the parse raises *)

Lemma body_loop_raises l r diff : forall st e,
  body_loop l r st diff = Raise e ->
  e = IndexError /\
  forall k, k <= length diff ->
    satisfied l r (account_all st (firstn k diff)) = false.
Proof.
  induction diff as [|line diff IH]; intros st e; simpl;
    destruct (satisfied l r st) eqn:Hs; try discriminate.
  - intros [= <-]. split; [reflexivity|]. intros k Hk.
    assert (k = 0) as -> by (simpl in Hk; lia). exact Hs.
  - intros H. destruct (IH _ _ H) as [-> Hall]. split; [reflexivity|].
    intros [|k] Hk; [exact Hs|]. apply Hall. simpl in Hk. lia.
Qed.

Lemma fails_run pos e : fails pos e -> run pos = Raise e.
Proof.
  intros [patches pre minus next rest g Hpre Hm Hp
         |patches idx header hunk body Hh He
         |patches idx header hunk body Hh He Hnever]; cbn [run].
  - rewrite (file_loop_segment _ _ _ _ _ Hpre Hm), Hp. reflexivity.
  - rewrite hunk_loop_cons, Hh, !count_of_declared.
    unfold truncation_error in He.
    destruct (convertible (Re.group2 hunk)); [|reflexivity].
    destruct (convertible (Re.group4 hunk)); [discriminate|reflexivity].
  - rewrite hunk_loop_cons, Hh, !count_of_declared.
    unfold truncation_error in He.
    destruct (convertible (Re.group2 hunk)); [|discriminate].
    destruct (convertible (Re.group4 hunk)); [|discriminate].
    simpl. rewrite (body_loop_exhausted _ _ _ _ Hnever). reflexivity.
Qed.

Lemma step_size a b : step a b -> position_size b < position_size a.
Proof.
  intros [patches pre minus plus_line rest old_path new_path Hpre Hm Hp
         |patches idx header hunk l_lines r_lines diff1 st diff2 Hh Hl Hr Hb
         |patches idx diff Hend]; simpl.
  - rewrite length_app. simpl. lia.
  - apply body_loop_length in Hb. lia.
  - lia.
Qed.

(** From any position, a parse that raises moves to a position of
    [fails]. *)
Lemma run_raises_at n : forall pos e,
  position_size pos <= n -> run pos = Raise e ->
  exists pos', rtc step pos pos' /\ fails pos' e.
Proof.
  induction n as [|n IH]; intros pos e Hn Hrun.
  - destruct pos as [p d|p idx d]; simpl in Hn; [|lia].
    destruct d; [discriminate Hrun|simpl in Hn; lia].
  - assert (Hmove : forall pos1, step pos pos1 ->
              exists pos', rtc step pos pos' /\ fails pos' e).
    { intros pos1 Hstep. pose proof (step_size _ _ Hstep) as Hlt.
      rewrite (step_run _ _ Hstep) in Hrun.
      destruct (IH pos1 e ltac:(lia) Hrun) as (pos' & Hreach & Hfail).
      exists pos'. split; [exact (rtc_l _ _ _ _ Hstep Hreach)|exact Hfail]. }
    destruct pos as [p d|p idx d]; cbn [run] in Hrun.
    + destruct (first_minus d) as [Hno|(pre & minus & rest & g & -> & Hpre & Hm)].
      { rewrite (file_loop_no_minus _ _ Hno) in Hrun. discriminate. }
      rewrite (file_loop_segment _ _ _ _ _ Hpre Hm) in Hrun.
      destruct rest as [|next rest]; [discriminate|].
      destruct (Re.FILE_SEPARATOR_PLUS next) as [q|] eqn:Hp.
      * apply (Hmove _ (step_segment p pre minus next rest g q Hpre Hm Hp)).
      * injection Hrun as <-. eexists. split; [apply rtc_refl|].
        apply (fails_plus_header p pre minus next rest g Hpre Hm Hp).
    + destruct d as [|header body]; [discriminate|].
      destruct (Re.HUNK header) as [hunk|] eqn:Hh.
      2:{ apply (Hmove (AtFile p (header :: body))). apply step_next. exact Hh. }
      rewrite hunk_loop_cons, Hh in Hrun.
      pose proof (count_of_declared (Re.group2 hunk)) as Hl.
      pose proof (count_of_declared (Re.group4 hunk)) as Hr.
      destruct (convertible (Re.group2 hunk)) eqn:Hc2.
      2:{ rewrite Hl in Hrun. injection Hrun as <-.
          eexists. split; [apply rtc_refl|]. apply (fails_count _ _ _ hunk _ Hh).
          unfold truncation_error. rewrite Hc2. reflexivity. }
      destruct (convertible (Re.group4 hunk)) eqn:Hc4.
      2:{ rewrite Hl, Hr in Hrun. injection Hrun as <-.
          eexists. split; [apply rtc_refl|]. apply (fails_count _ _ _ hunk _ Hh).
          unfold truncation_error. rewrite Hc2, Hc4. reflexivity. }
      destruct (body_loop (declared (Re.group2 hunk)) (declared (Re.group4 hunk))
                  body_init body) as [[st diff2]|e'|] eqn:Hb.
      * exact (Hmove _ (step_hunk p idx header hunk _ _ body st diff2
                          Hh Hl Hr Hb)).
      * rewrite Hl, Hr in Hrun. simpl in Hrun. rewrite Hb in Hrun.
        injection Hrun as <-.
        destruct (body_loop_raises _ _ _ _ _ Hb) as [-> Hnever].
        eexists. split; [apply rtc_refl|].
        apply (fails_body _ _ _ hunk _ Hh); [|exact Hnever].
        unfold truncation_error. rewrite Hc2, Hc4. reflexivity.
      * exfalso. exact (body_loop_no_fuel _ _ _ _ Hb).
Qed.

(** X26: the parse of lines that do not start with a combined-diff header
    raises exactly when it comes to a position of [fails], and then with
    the exception of that position: a minus header whose next line is no
    plus header, a hunk header with a count that [int] refuses, and a hunk
    header whose counts the lines left never meet are the only places
    where it raises. *)
Theorem parse_raises_at diff e :
  excluded diff = false ->
  parse_diff_nosplit diff = Raise e <->
  exists pos, reaches diff pos /\ fails pos e.
Proof.
  intros Hcc. split.
  - unfold parse_diff_nosplit. rewrite Hcc.
    destruct (file_loop ∅ diff) as [p|e'|] eqn:Hrun; simpl; try discriminate.
    intros [= ->].
    apply (run_raises_at (position_size (AtFile ∅ diff)) (AtFile ∅ diff) e
             (Nat.le_refl _) Hrun).
  - intros (pos & Hreach & Hfail).
    apply (proj1 (parse_raises diff pos e Hreach Hcc (fails_run _ _ Hfail))).
Qed.

Lemma parse_raises_at_witness :
  parse_diff_nosplit ["--- a/x"; "+++ b/x"; "@@ -1,2 +1 @@"; "-a"]
  = Raise IndexError <->
  exists pos,
    reaches ["--- a/x"; "+++ b/x"; "@@ -1,2 +1 @@"; "-a"] pos /\
    fails pos IndexError.
Proof.
  exact (parse_raises_at ["--- a/x"; "+++ b/x"; "@@ -1,2 +1 @@"; "-a"]
           IndexError eq_refl).
Defined.
